(** * ELB access-log forwarder: [parse_elb_log] and [lambda_handler]

    A shallow embedding of [lambda_handler.py].

    Python [str] values are modelled as lists of characters ([text]); a
    character is a code point below 256, carried by [ascii].  The regular
    expressions of the source ([re.sub], [re.match] and the one that
    [datetime.strptime] builds from its format) are embedded as values of
    [regex] and run by a backtracking matcher with the priorities of
    Python's [re]: greedy repetition, ordered alternation, first match
    wins.  The matcher is checked against a declarative reading of the
    patterns ([Matches]), and [strptime] against a declarative reading
    of its format ([in_source_format]).

    Exceptions are explicit ([outcome]).  [os.environ] is an argument of
    [parse_elb_log].  [lambda_handler] starts from the lines of the
    decompressed object, already decoded: fetching the object from S3,
    [gzip] and [decode] are not modelled.  The HTTP sink is an argument:
    from the calls made so far and the present one it gives a status code
    or raises. *)

From Stdlib Require Import List Ascii Bool Arith NArith Lia.
From Stdlib Require String DecimalString DecimalFacts DecimalN.
Import ListNotations String.StringSyntax.

Abbreviation string := String.string.

Local Open Scope string_scope.
Local Open Scope list_scope.

(* ------------------------------------------------------------------ *)
(** ** Text *)

Definition text := list ascii.

(** A string literal of the source, as [text]. *)
Definition str (s : string) : text := String.list_ascii_of_string s.

Definition code (c : ascii) : N := N_of_ascii c.

Definition in_range (lo hi : N) (c : ascii) : bool :=
  (N.leb lo (code c) && N.leb (code c) hi)%bool.

Definition is_char (a : ascii) (c : ascii) : bool := Ascii.eqb c a.

(** [\s] of a Unicode pattern on code points below 256: the characters for
    which [str.isspace] holds. *)
Definition is_space (c : ascii) : bool :=
  (in_range 9 13 c || in_range 28 32 c || N.eqb (code c) 133
   || N.eqb (code c) 160)%bool.

(** [\S] *)
Definition non_space (c : ascii) : bool := negb (is_space c).

(** [\d]: the decimal digits; below code point 256 these are [0-9]. *)
Definition is_digit (c : ascii) : bool := in_range 48 57 c.

(** The double quote character. *)
Definition dquote : ascii := ascii_of_nat 34.

(** The class of every character but the double quote. *)
Definition non_quote (c : ascii) : bool := negb (Ascii.eqb c dquote).

(** [[a-z0-9]] *)
Definition is_lower_alnum (c : ascii) : bool :=
  (in_range 97 122 c || is_digit c)%bool.

Fixpoint text_eqb (a b : text) : bool :=
  match a, b with
  | [], [] => true
  | x :: a', y :: b' => (Ascii.eqb x y && text_eqb a' b')%bool
  | _, _ => false
  end.

(** [s.startswith(p)] *)
Fixpoint startswith (p s : text) : bool :=
  match p, s with
  | [], _ => true
  | x :: p', y :: s' => (Ascii.eqb x y && startswith p' s')%bool
  | _ :: _, [] => false
  end.

(** [p in s] for strings: [p] occurs in [s] as a contiguous substring. *)
Fixpoint contains (p s : text) : bool :=
  match s with
  | [] => startswith p []
  | _ :: s' => (startswith p s || contains p s')%bool
  end.

(* ------------------------------------------------------------------ *)
(** ** Regular expressions *)

(** The fragment of [re] syntax the source uses.  Repetition is only ever
    applied to a character class ([\S+], [\d+], [[0-9]{1,6}]); an
    optional item [x?] is the ordered alternative [x|]. *)
Inductive regex : Type :=
| Eps : regex
| Cls : (ascii -> bool) -> regex
| Seq : regex -> regex -> regex
| Alt : regex -> regex -> regex
| Rep : (ascii -> bool) -> nat -> option nat -> regex
| Grp : string -> regex -> regex.

Definition Lit (a : ascii) : regex := Cls (is_char a).
Definition Plus (p : ascii -> bool) : regex := Rep p 1 None.
Definition Star (p : ascii -> bool) : regex := Rep p 0 None.
Definition Opt (r : regex) : regex := Alt r Eps.

(** A sequence of items, as they follow one another in a pattern. *)
Definition seqs (rs : list regex) : regex := fold_right Seq Eps rs.

(** A literal word. *)
Definition word (w : string) : regex := seqs (map Lit (str w)).

(** Group captures of a match in progress, most recent first. *)
Definition captures := list (string * text).

Fixpoint capture (n : string) (c : captures) : option text :=
  match c with
  | [] => None
  | (m, v) :: c' => if String.eqb n m then Some v else capture n c'
  end.

Definition may_repeat (hi : option nat) : bool :=
  match hi with
  | Some O => false
  | _ => true
  end.

Section Matcher.

Variable A : Type.

(** Greedy repetition of a class, between [lo] and [hi] times: the
    longest run first, then shorter ones while the rest fails. *)
Fixpoint rep (p : ascii -> bool) (lo : nat) (hi : option nat) (s : text)
         (k : text -> option A) {struct s} : option A :=
  let stop := match lo with O => k s | S _ => None end in
  match s with
  | [] => stop
  | a :: s' =>
      if (p a && may_repeat hi)%bool
      then match rep p (pred lo) (option_map pred hi) s' k with
           | Some r => Some r
           | None => stop
           end
      else stop
  end.

(** The backtracking matcher, in continuation-passing style: [k]
    receives the rest of the subject and the captures so far, and a
    [None] from it makes the matcher try its next alternative. *)
Fixpoint rmatch (r : regex) (s : text) (c : captures)
         (k : text -> captures -> option A) {struct r} : option A :=
  match r with
  | Eps => k s c
  | Cls p =>
      match s with
      | a :: s' => if p a then k s' c else None
      | [] => None
      end
  | Seq r1 r2 => rmatch r1 s c (fun s' c' => rmatch r2 s' c' k)
  | Alt r1 r2 =>
      match rmatch r1 s c k with
      | Some x => Some x
      | None => rmatch r2 s c k
      end
  | Rep p lo hi => rep p lo hi s (fun s' => k s' c)
  | Grp n r1 =>
      rmatch r1 s c
        (fun s' c' =>
           k s' ((n, firstn (length s - length s') s) :: c'))
  end.

End Matcher.

Arguments rep {A} p lo hi s k.
Arguments rmatch {A} r s c k.

(** The group names of a pattern, in the order the groups open. *)
Fixpoint group_names (r : regex) : list string :=
  match r with
  | Eps | Cls _ | Rep _ _ _ => []
  | Seq r1 r2 | Alt r1 r2 => group_names r1 ++ group_names r2
  | Grp n r1 => n :: group_names r1
  end.

(** A match object: what is left of the subject after the match, and the
    captures. *)
Record match_object : Type := { m_rest : text; m_caps : captures }.

(** [re.match(r, s)]: a match at the start of [s]; the end is free. *)
Definition re_match (r : regex) (s : text) : option match_object :=
  rmatch r s [] (fun s' c => Some {| m_rest := s'; m_caps := c |}).

(** Length of the match of [r] at the start of [s]. *)
Definition match_length (r : regex) (s : text) : option nat :=
  match re_match r s with
  | Some m => Some (length s - length (m_rest m))
  | None => None
  end.

(** The scan that [re.sub] and [str.replace] share: [find] tells, at each
    position, how long the match that starts there is; a match is replaced
    by [repl] and the scan goes on behind it.  [skip] counts the
    characters still covered by the last match. *)
Fixpoint scan (find : text -> option nat) (repl : text) (skip : nat)
         (s : text) : text :=
  match s with
  | [] => []
  | a :: s' =>
      match skip with
      | S n => scan find repl n s'
      | O =>
          match find s with
          | Some n => repl ++ scan find repl (pred n) s'
          | None => a :: scan find repl 0 s'
          end
      end
  end.

(** [re.sub(r, repl, s)] for a pattern that matches no empty string: the
    leftmost matches, left to right, without overlap. *)
Definition re_sub (r : regex) (repl : text) (s : text) : text :=
  scan (match_length r) repl 0 s.

(* ------------------------------------------------------------------ *)
(** ** Python strings *)

(** [s.replace("", new)]: [new] before every character and at the end. *)
Fixpoint interleave (new s : text) : text :=
  match s with
  | [] => new
  | a :: s' => new ++ a :: interleave new s'
  end.

(** Where [old] starts the text, the length of that occurrence. *)
Definition find_prefix (old s : text) : option nat :=
  if startswith old s then Some (length old) else None.

(** [s.replace(old, new)]: for a non-empty [old], every occurrence found
    scanning from the left, without overlap. *)
Definition replace (s old new : text) : text :=
  match old with
  | [] => interleave new s
  | _ :: _ => scan (find_prefix old) new 0 s
  end.

(** [s.count(p)] for a non-empty [p]: occurrences without overlap. *)
Fixpoint count_from (skip : nat) (p s : text) : nat :=
  match s with
  | [] => 0
  | _ :: s' =>
      match skip with
      | S n => count_from n p s'
      | O =>
          if startswith p s
          then S (count_from (pred (length p)) p s')
          else count_from 0 p s'
      end
  end.

(** [s.count(p)] *)
Definition count (p s : text) : nat :=
  match p with
  | [] => S (length s)
  | _ :: _ => count_from 0 p s
  end.

(** [s.split(sep)] for a one-character separator; never the empty list. *)
Fixpoint split (sep : ascii) (s : text) : list text :=
  match s with
  | [] => [[]]
  | a :: s' =>
      if Ascii.eqb a sep then [] :: split sep s'
      else match split sep s' with
           | h :: t => (a :: h) :: t
           | [] => [[a]]
           end
  end.

(** [s.rsplit(sep, 1)]: cut at the last separator, if there is one. *)
Fixpoint rsplit1 (sep : ascii) (s : text) : list text :=
  match s with
  | [] => [[]]
  | a :: s' =>
      match rsplit1 sep s' with
      | [h; t] => [a :: h; t]
      | _ => if Ascii.eqb a sep then [[]; s'] else [a :: s']
      end
  end.

(** [int(s)] on a string of decimal digits. *)
Definition digit_value (c : ascii) : N := (code c - 48)%N.

Definition int_of (s : text) : N :=
  fold_left (fun acc c => (10 * acc + digit_value c)%N) s 0%N.

(** [str(n)] for a natural number. *)
Definition decimal (n : N) : text :=
  str (DecimalString.NilEmpty.string_of_uint (N.to_uint n)).

(** ["%0wd" % n] *)
Definition zero_padded (w : nat) (n : N) : text :=
  let d := decimal n in repeat "0"%char (w - length d) ++ d.

(* ------------------------------------------------------------------ *)
(** ** Exceptions *)

Inductive exn : Type :=
| TypeError | AttributeError | KeyError | ValueError | ConnectionError.

Inductive outcome (A : Type) : Type :=
| Ok : A -> outcome A
| Raise : exn -> outcome A.

Arguments Ok {A} _.
Arguments Raise {A} _.

Definition bind {A B : Type} (m : outcome A) (f : A -> outcome B)
  : outcome B :=
  match m with
  | Ok a => f a
  | Raise e => Raise e
  end.

Notation "x <- m ;; f" := (bind m (fun x => f))
  (at level 61, m at next level, right associativity).

(* ------------------------------------------------------------------ *)
(** ** Dictionaries *)

(** A Python [dict] with string keys: the items in insertion order, no key
    twice. *)
Definition dict (V : Type) := list (string * V).

Fixpoint lookup {V : Type} (k : string) (d : dict V) : option V :=
  match d with
  | [] => None
  | (k', v) :: d' => if String.eqb k k' then Some v else lookup k d'
  end.

(** [d[k]] *)
Definition getitem {V : Type} (k : string) (d : dict V) : outcome V :=
  match lookup k d with
  | Some v => Ok v
  | None => Raise KeyError
  end.

(** [d[k] = v]: a present key keeps its place, a new one goes last. *)
Fixpoint setitem {V : Type} (k : string) (v : V) (d : dict V) : dict V :=
  match d with
  | [] => [(k, v)]
  | (k', v') :: d' =>
      if String.eqb k k' then (k', v) :: d' else (k', v') :: setitem k v d'
  end.

Fixpoint remove_key {V : Type} (k : string) (d : dict V) : dict V :=
  match d with
  | [] => []
  | (k', v') :: d' =>
      if String.eqb k k' then d' else (k', v') :: remove_key k d'
  end.

(** [del d[k]] *)
Definition delitem {V : Type} (k : string) (d : dict V) : outcome (dict V) :=
  match lookup k d with
  | Some _ => Ok (remove_key k d)
  | None => Raise KeyError
  end.

(** [{**d, **e}] *)
Definition update {V : Type} (d e : dict V) : dict V :=
  fold_left (fun acc kv => setitem (fst kv) (snd kv) acc) e d.

Definition keys {V : Type} (d : dict V) : list string := map fst d.

(** What a regular-expression group holds: a string, or [None] when the
    group took no part in the match. *)
Inductive pyval : Type :=
| PNone : pyval
| PStr : text -> pyval.

(** [str(v)] *)
Definition py_str (v : pyval) : text :=
  match v with
  | PNone => str "None"
  | PStr s => s
  end.

(** [v == s] for a string [s] *)
Definition py_eq (v : pyval) (s : text) : bool :=
  match v with
  | PNone => false
  | PStr t => text_eqb t s
  end.

(** The values of an outgoing record, as JSON. *)
#[local] Unset Elimination Schemes.
Inductive json : Type :=
| JNull : json
| JStr : text -> json
| JObj : list (string * json) -> json.
#[local] Set Elimination Schemes.

Definition to_json (v : pyval) : json :=
  match v with
  | PNone => JNull
  | PStr s => JStr s
  end.

Definition record := dict json.

(** [m.groupdict()] *)
Definition groupdict (r : regex) (m : match_object) : dict pyval :=
  map (fun n => (n, match capture n (m_caps m) with
                    | Some s => PStr s
                    | None => PNone
                    end))
      (group_names r).

(* ------------------------------------------------------------------ *)
(** ** [datetime.strptime] and [isoformat] *)

Record datetime : Type :=
  { year : N; month : N; day : N;
    hour : N; minute : N; second : N; microsecond : N }.

(** A letter of the format, matched without regard to case (the regular
    expression of [strptime] is compiled with [re.IGNORECASE]). *)
Definition Letter (upper lower : ascii) : regex :=
  Cls (fun c => (is_char upper c || is_char lower c)%bool).

Definition d_ (lo hi : ascii) : regex := Cls (in_range (code lo) (code hi)).

Definition digit : regex := Cls is_digit.

(** The regular expression [strptime] builds from
    [%Y-%m-%dT%H:%M:%S.%fZ]. *)
Definition strptime_regex : regex :=
  seqs
    [ Grp "Y" (seqs [digit; digit; digit; digit]); Lit "-";
      Grp "m" (Alt (Seq (Lit "1") (d_ "0" "2"))
              (Alt (Seq (Lit "0") (d_ "1" "9"))
                   (d_ "1" "9")));
      Lit "-";
      Grp "d" (Alt (Seq (Lit "3") (d_ "0" "1"))
              (Alt (Seq (d_ "1" "2") digit)
              (Alt (Seq (Lit "0") (d_ "1" "9"))
              (Alt (d_ "1" "9")
                   (Seq (Lit " ") (d_ "1" "9"))))));
      Letter "T" "t";
      Grp "H" (Alt (Seq (Lit "2") (d_ "0" "3"))
              (Alt (Seq (d_ "0" "1") digit)
                   digit));
      Lit ":";
      Grp "M" (Alt (Seq (d_ "0" "5") digit) digit);
      Lit ":";
      Grp "S" (Alt (Seq (Lit "6") (d_ "0" "1"))
              (Alt (Seq (d_ "0" "5") digit)
                   digit));
      Lit ".";
      Grp "f" (Rep (in_range 48 57) 1 (Some 6));
      Letter "Z" "z" ].

Definition is_leap (y : N) : bool :=
  ((y mod 4 =? 0) && (negb (y mod 100 =? 0) || (y mod 400 =? 0)))%N%bool.

Definition days_in_month (y m : N) : N :=
  (if m =? 2 then (if is_leap y then 29 else 28)
   else if (m =? 4) || (m =? 6) || (m =? 9) || (m =? 11) then 30
   else 31)%N%bool.

(** The checks of the [datetime] constructor. *)
Definition valid_datetime (t : datetime) : bool :=
  ((1 <=? year t) && (year t <=? 9999)
   && (1 <=? month t) && (month t <=? 12)
   && (1 <=? day t) && (day t <=? days_in_month (year t) (month t))
   && (hour t <=? 23) && (minute t <=? 59) && (second t <=? 59)
   && (microsecond t <=? 999999))%N%bool.

Definition group_int (n : string) (c : captures) : N :=
  match capture n c with
  | Some s => int_of s
  | None => 0%N
  end.

(** [datetime.strptime(s, "%Y-%m-%dT%H:%M:%S.%fZ")]; [None] stands for the
    [ValueError] it raises: no match, unconverted data left, or field
    values that are no date and time. *)
Definition strptime (s : text) : option datetime :=
  match re_match strptime_regex s with
  | None => None
  | Some m =>
      match m_rest m with
      | _ :: _ => None
      | [] =>
          let c := m_caps m in
          let f := match capture "f" c with Some f => f | None => [] end in
          let t :=
            {| year := group_int "Y" c; month := group_int "m" c;
               day := group_int "d" c; hour := group_int "H" c;
               minute := group_int "M" c; second := group_int "S" c;
               microsecond := int_of (f ++ repeat "0"%char (6 - length f)) |}
          in
          if valid_datetime t then Some t else None
      end
  end.

(** [t.isoformat()] for a naive [datetime] *)
Definition isoformat (t : datetime) : text :=
  zero_padded 4 (year t) ++ str "-" ++ zero_padded 2 (month t) ++ str "-"
  ++ zero_padded 2 (day t) ++ str "T" ++ zero_padded 2 (hour t) ++ str ":"
  ++ zero_padded 2 (minute t) ++ str ":" ++ zero_padded 2 (second t)
  ++ (if (microsecond t =? 0)%N then []
      else str "." ++ zero_padded 6 (microsecond t)).

(* ------------------------------------------------------------------ *)
(** ** [parse_elb_log] *)

Definition sp : regex := Cls is_space.

(** A double-quoted field: [dquote (?P<n>[^dquote]* ) dquote] *)
Definition quoted (n : string) : list regex :=
  [Lit dquote; Grp n (Star non_quote); Lit dquote].

(** [-?\d+|-] *)
Definition signed_or_dash : regex :=
  Alt (Seq (Opt (Lit "-")) (Plus is_digit)) (Lit "-").

(** [\d+|-] *)
Definition digits_or_dash : regex := Alt (Plus is_digit) (Lit "-").

(** The access-log grammar of the source, item by item. *)
Definition pattern_items : list regex :=
    ([ Grp "type" (Plus non_space); sp;
       Grp "time" (Plus non_space); sp;
       Plus non_space; sp;
       Grp "client_port" (Plus non_space); sp;
       Grp "target_port" (Alt (Plus non_space) (Lit "-")); sp;
       Grp "request_processing_time" signed_or_dash; sp;
       Grp "target_processing_time" signed_or_dash; sp;
       Grp "response_processing_time" signed_or_dash; sp;
       Grp "elb_status_code" digits_or_dash; sp;
       Grp "target_status_code" (Plus non_space); sp;
       Grp "received_bytes" digits_or_dash; sp;
       Grp "sent_bytes" (Plus is_digit); sp;
       Lit dquote;
       Grp "request"
         (seqs [ Grp "method" (Plus non_space); sp;
                 Grp "url" (Plus non_space); sp;
                 Grp "protocol" (Plus non_space) ]);
       Lit dquote; sp ]
     ++ quoted "user_agent" ++ [ sp;
       Grp "ssl_cipher" (Plus non_space); sp;
       Grp "ssl_protocol" (Plus non_space); sp;
       Grp "target_group_arn" (Plus non_space); sp ]
     ++ quoted "trace_id" ++ [ sp ]
     ++ quoted "domain_name" ++ [ sp;
       Plus non_space; sp;
       Grp "matched_rule_priority" (Plus non_space); sp;
       Grp "request_creation_time" (Plus non_space); sp ]
     ++ quoted "actions_executed" ++ [ sp ]
     ++ quoted "redirect_url" ++ [ sp ]
     ++ quoted "error_reason" ++ [ sp ]
     ++ quoted "target_port_list" ++ [ sp ]
     ++ quoted "target_status_code_list" ++ [ sp ]
     ++ quoted "classification" ++ [ sp ]
     ++ quoted "classification_reason" ++ [ sp;
       Grp "tid" (Plus non_space) ]).

Definition pattern : regex := seqs pattern_items.

(** [app/k8s-default-ingressn-[a-z0-9]+/[a-z0-9]+] *)
Definition ingress_path : regex :=
  seqs [ word "app/k8s-default-ingressn-"; Plus is_lower_alnum; Lit "/";
         Plus is_lower_alnum ].

(** The pre-normalization of the line. *)
Definition normalize (log_line : text) : text :=
  re_sub ingress_path (str "app/k8s-default-ingress") log_line.

(** [os.environ] *)
Definition environ := string -> option text.

(** [os.environ.get(k, default)] *)
Definition environ_get (env : environ) (k : string) (default : text) : text :=
  match env k with
  | Some v => v
  | None => default
  end.

(** [os.environ[k]] *)
Definition environ_item (env : environ) (k : string) : outcome text :=
  match env k with
  | Some v => Ok v
  | None => Raise KeyError
  end.

(** The record returned for a line that does not match. *)
Definition failure_record : record :=
  [ ("_time", JStr []);
    ("data", JObj [("error", JStr (str "Failed to parse log line"))]) ].

(** The [try] around [strptime]: a [ValueError] keeps the token. *)
Definition format_timestamp (v : pyval) : outcome text :=
  match v with
  | PNone => Raise TypeError
  | PStr s =>
      match strptime s with
      | Some t => Ok (isoformat t ++ str "Z")
      | None => Ok s
      end
  end.

(** [v.rsplit(':', 1) if ':' in v else (v, "")], unpacked into two. *)
Definition split_address (v : pyval) : outcome (pyval * pyval) :=
  match v with
  | PNone => Raise TypeError
  | PStr s =>
      if existsb (is_char ":") s
      then match rsplit1 ":" s with
           | [a; p] => Ok (PStr a, PStr p)
           | _ => Raise ValueError
           end
      else Ok (PStr s, PStr [])
  end.

(** [v.split('/')[-1] if v != '-' else ''] *)
Definition service_name (v : pyval) : outcome text :=
  match v with
  | PNone => Raise AttributeError
  | PStr s =>
      if text_eqb s (str "-") then Ok [] else Ok (last (split "/" s) [])
  end.

(** One turn of the loop that empties the sentinel values. *)
Definition normalize_empty (kv : string * pyval) : string * pyval :=
  (fst kv, PStr (if py_eq (snd kv) (str "-") then [] else py_str (snd kv))).

(** The sanitized copy of the line. *)
Definition redact (env : environ) (log_line : text) : text :=
  replace
    (replace log_line (environ_get env "CERT_ARN" []) (str "CERT_ARN"))
    (environ_get env "ACCOUNT_ID" []) (str "ACCOUNT_ID").

Definition parse_elb_log (env : environ) (log_line : text) : outcome record :=
  let log_line := normalize log_line in
  match re_match pattern log_line with
  | None => Ok failure_record
  | Some m =>
      let result := groupdict pattern m in
      tm <- getitem "time" result ;;
      iso_time <- format_timestamp tm ;;
      cp <- getitem "client_port" result ;;
      client <- split_address cp ;;
      let result := setitem "client" (fst client) result in
      let result := setitem "client_port" (snd client) result in
      tp <- getitem "target_port" result ;;
      target <- split_address tp ;;
      let result := setitem "target" (fst target) result in
      let result := setitem "target_port" (snd target) result in
      arn <- getitem "target_group_arn" result ;;
      service <- service_name arn ;;
      let result := setitem "service" (PStr service) result in
      result <- delitem "target_group_arn" result ;;
      result <- delitem "time" result ;;
      let result := map normalize_empty result in
      let result := setitem "raw_log" (PStr (redact env log_line)) result in
      Ok (update [("_time", JStr iso_time)]
                 (map (fun kv => (fst kv, to_json (snd kv))) result))
  end.

(* ------------------------------------------------------------------ *)
(** ** [lambda_handler] *)

(** One [requests.post] call: where it goes, its headers and the batch it
    carries as JSON. *)
Record request : Type :=
  { url : text; headers : dict text; payload : list record }.

(** What the logger receives. *)
Inductive log_entry : Type :=
| Info : text -> log_entry
| Error : exn -> log_entry.

(** The effects of a run: the calls made to the sink, in order, and the
    log. *)
Record world : Type := { posts : list request; log : list log_entry }.

(** The sink: from the calls made so far and the present one, the status
    code of the response, or the exception [requests.post] raises. *)
Definition sink := list request -> request -> outcome N.

Record response : Type := { statusCode : N; message : text }.

(** [range(0, stop, step)] for a positive [step] *)
Definition range_step (stop step : nat) : list nat :=
  map (fun j => j * step) (seq 0 ((stop + step - 1) / step)).

(** [l[i:i + n]] *)
Definition slice {A : Type} (l : list A) (i n : nat) : list A :=
  firstn n (skipn i l).

Definition batch_failed (i batch_size : nat) (status : N) : log_entry :=
  Info (str "Batch " ++ decimal (N.of_nat (i / batch_size + 1))
        ++ str " failed: " ++ decimal status).

(** The loop over the batches: one call per index of the range. *)
Fixpoint send_batches (post : sink) (to : text) (hdrs : dict text)
         (json_logs : list record) (batch_size : nat) (indices : list nat)
         (w : world) : world * outcome unit :=
  match indices with
  | [] => (w, Ok tt)
  | i :: rest =>
      let rq := {| url := to; headers := hdrs;
                   payload := slice json_logs i batch_size |} in
      match post (posts w) rq with
      | Raise e => ({| posts := posts w ++ [rq]; log := log w |}, Raise e)
      | Ok status =>
          send_batches post to hdrs json_logs batch_size rest
            {| posts := posts w ++ [rq];
               log := if (status =? 200)%N then log w
                      else log w ++ [batch_failed i batch_size status] |}
      end
  end.

(** The loop over the lines of the log file. *)
Fixpoint parse_lines (env : environ) (lines : list text)
  : outcome (list record) :=
  match lines with
  | [] => Ok []
  | line :: rest =>
      log_entry <- parse_elb_log env line ;;
      json_logs <- parse_lines env rest ;;
      Ok (log_entry :: json_logs)
  end.

Definition batch_size : nat := 50.

(** The handler, from the decoded lines of the decompressed object. *)
Definition lambda_handler (env : environ) (lines : list text) (post : sink)
  : world * outcome response :=
  let w0 := {| posts := []; log := [] |} in
  let body :=
    match parse_lines env lines with
    | Raise e => (w0, Raise e)
    | Ok json_logs =>
        match environ_item env "DATASET_NAME" with
        | Raise e => (w0, Raise e)
        | Ok dataset_name =>
            match environ_item env "AXIOM_API_TOKEN" with
            | Raise e => (w0, Raise e)
            | Ok token =>
                let hdrs := [ ("Authorization", str "Bearer " ++ token);
                              ("Content-Type", str "application/json") ] in
                let to := str "https://api.axiom.co/v1/datasets/"
                          ++ dataset_name ++ str "/ingest" in
                match send_batches post to hdrs json_logs batch_size
                        (range_step (length json_logs) batch_size) w0 with
                | (w, Raise e) => (w, Raise e)
                | (w, Ok _) =>
                    (w, Ok {| statusCode := 200;
                              message :=
                                str "Processed "
                                ++ decimal (N.of_nat (length json_logs))
                                ++ str " logs" |})
                end
            end
        end
    end in
  match body with
  | (w, Raise e) =>
      ({| posts := posts w; log := log w ++ [Error e] |}, Raise e)
  | (w, Ok r) => (w, Ok r)
  end.

(* ------------------------------------------------------------------ *)
(** ** What a pattern matches *)

(** [Matches r s c c']: the pattern [r] matches exactly the text [s] and
    takes the captures [c] to [c'].  This is the declarative reading of a
    pattern, against which the matcher is checked. *)
Inductive Matches : regex -> text -> captures -> captures -> Prop :=
| M_Eps : forall c, Matches Eps [] c c
| M_Cls : forall (p : ascii -> bool) a c,
    p a = true -> Matches (Cls p) [a] c c
| M_Seq : forall r1 r2 s1 s2 c c1 c2,
    Matches r1 s1 c c1 -> Matches r2 s2 c1 c2 ->
    Matches (Seq r1 r2) (s1 ++ s2) c c2
| M_AltL : forall r1 r2 s c c',
    Matches r1 s c c' -> Matches (Alt r1 r2) s c c'
| M_AltR : forall r1 r2 s c c',
    Matches r2 s c c' -> Matches (Alt r1 r2) s c c'
| M_Rep : forall (p : ascii -> bool) lo hi s c,
    forallb p s = true -> lo <= length s ->
    (forall h, hi = Some h -> length s <= h) ->
    Matches (Rep p lo hi) s c c
| M_Grp : forall n r s c c',
    Matches r s c c' -> Matches (Grp n r) s c ((n, s) :: c').

(** A whitespace character immediately followed by a double quote. *)
Fixpoint space_then_quote (s : text) : bool :=
  match s with
  | [] => false
  | a :: s' =>
      (match s' with
       | b :: _ => is_space a && Ascii.eqb b dquote
       | [] => false
       end || space_then_quote s')%bool
  end.

(** [always_set r n]: every match of [r] captures the group [n]. *)
Fixpoint always_set (r : regex) (n : string) : bool :=
  match r with
  | Eps | Cls _ | Rep _ _ _ => false
  | Seq r1 r2 => (always_set r1 n || always_set r2 n)%bool
  | Alt r1 r2 => (always_set r1 n && always_set r2 n)%bool
  | Grp n' r1 => (String.eqb n n' || always_set r1 n)%bool
  end.

(* ------------------------------------------------------------------ *)
(** ** The record of a matched line, field by field *)

(** [m.group(n)] for a group that took part in the match. *)
Definition group (m : match_object) (n : string) : text :=
  match capture n (m_caps m) with
  | Some s => s
  | None => []
  end.

(** The sentinel of the log format becomes the empty string. *)
Definition empty_if_dash (s : text) : text :=
  if text_eqb s (str "-") then [] else s.

(** The time token, reformatted when it is in the source format. *)
Definition iso_time_of (s : text) : text :=
  match strptime s with
  | Some t => isoformat t ++ str "Z"
  | None => s
  end.

(** What stands before the last colon, or everything without a colon. *)
Definition address_part (s : text) : text :=
  if existsb (is_char ":") s then nth 0 (rsplit1 ":" s) [] else s.

(** What stands after the last colon, or nothing without a colon. *)
Definition port_part (s : text) : text :=
  if existsb (is_char ":") s then nth 1 (rsplit1 ":" s) [] else [].

Definition service_of (s : text) : text :=
  if text_eqb s (str "-") then [] else last (split "/" s) [].

(** The groups that reach the record as they were captured. *)
Definition plain_groups : list string :=
  [ "request_processing_time"; "target_processing_time";
    "response_processing_time"; "elb_status_code"; "target_status_code";
    "received_bytes"; "sent_bytes"; "request"; "method"; "url";
    "protocol"; "user_agent"; "ssl_cipher"; "ssl_protocol"; "trace_id";
    "domain_name"; "matched_rule_priority"; "request_creation_time";
    "actions_executed"; "redirect_url"; "error_reason";
    "target_port_list"; "target_status_code_list"; "classification";
    "classification_reason"; "tid" ].

(** The record [parse_elb_log] builds from the match [m] of the
    canonical line [line]. *)
Definition success_record (env : environ) (line : text) (m : match_object)
  : record :=
  [ ("_time", JStr (iso_time_of (group m "time")));
    ("type", JStr (empty_if_dash (group m "type")));
    ("client_port",
     JStr (empty_if_dash (port_part (group m "client_port"))));
    ("target_port",
     JStr (empty_if_dash (port_part (group m "target_port")))) ]
  ++ map (fun n => (n, JStr (empty_if_dash (group m n)))) plain_groups
  ++ [ ("client",
        JStr (empty_if_dash (address_part (group m "client_port"))));
       ("target",
        JStr (empty_if_dash (address_part (group m "target_port"))));
       ("service",
        JStr (empty_if_dash (service_of (group m "target_group_arn"))));
       ("raw_log", JStr (redact env line)) ].

(** A record is flat when every field holds a string. *)
Definition flat (r : record) : Prop :=
  forall k v, In (k, v) r -> exists s, v = JStr s.

(** The record of a line, matched or not. *)
Definition record_of (env : environ) (line : text) : record :=
  match re_match pattern (normalize line) with
  | Some m => success_record env (normalize line) m
  | None => failure_record
  end.

(* ------------------------------------------------------------------ *)
(** ** Sample inputs *)

(** A log line written with an apostrophe wherever the line has a double
    quote. *)
Definition line_of (s : string) : text :=
  map (fun c => if Ascii.eqb c "'" then dquote else c) (str s).

Definition sample_line : text := line_of
  "https 2023-01-15T10:30:00.123456Z app/k8s-default-ingressn-1a2b3c/4d5e6f 10.0.0.1:443 - 0 1 0 200 200 34 366 'GET https://example.com:443/index.html HTTP/1.1' 'curl/7.46.0' ECDHE-RSA-AES128-GCM-SHA256 TLSv1.2 arn:aws:elasticloadbalancing:us-east-1:123456789012:targetgroup/my-service/73e2d6bc24d8a067 'Root=1-58337262-36d228ad5d99923122bbe354' 'example.com' arn:aws:acm:us-east-1:123456789012:certificate/0f1e2d3c-4b5a-6978-8796-a5b4c3d2e1f0 1 2023-01-15T10:29:59.000000Z 'forward' '-' '-' '10.0.0.2:80' '200' '-' '-' TID_dc57cebed65b444ebc8177bb698fe166".

(** A short line of the grammar with the given time token and the given
    last field. *)
Definition line_with (time tid : string) : text :=
  line_of "h2 " ++ str time
  ++ line_of " app/lb/1 10.0.0.1:443 10.0.0.2:80 0 1 0 200 200 34 366 'GET / HTTP/1.1' 'ua' - - arn:tg/svc 'Root=1' 'example.com' - 0 - 'forward' '-' '-' '-' '-' '-' '-' "
  ++ str tid.

Definition line_at (time : string) : text := line_with time "TID_1".

(** Text behind the last field of a line. *)
Definition trailing : text := str " trailing text".

Definition garbage_line : text := str "garbage".

Definition sample_cert : text :=
  str "arn:aws:acm:us-east-1:123456789012:certificate/0f1e2d3c-4b5a-6978-8796-a5b4c3d2e1f0".

Definition sample_account : text := str "123456789012".

Definition env_of (cert account : text) : environ :=
  fun k =>
    if String.eqb k "CERT_ARN" then Some cert
    else if String.eqb k "ACCOUNT_ID" then Some account
    else if String.eqb k "DATASET_NAME" then Some (str "elb-logs")
    else if String.eqb k "AXIOM_API_TOKEN" then Some (str "xaat-token")
    else None.

Definition sample_env : environ := env_of sample_cert sample_account.

(** A sink that answers 500 to its second call and 200 to the others. *)
Definition second_call_fails : sink :=
  fun earlier _ => Ok (if length earlier =? 1 then 500%N else 200%N).

(** [starts_with_tokens ts s]: the text [s] begins with the tokens [ts],
    each a non-empty run of characters that are no whitespace, each
    followed by one whitespace character. *)
Fixpoint starts_with_tokens (ts : list text) (s : text) : Prop :=
  match ts with
  | [] => True
  | t :: ts' =>
      forallb non_space t = true /\ t <> [] /\
      exists w rest,
        is_space w = true /\ s = t ++ w :: rest /\
        starts_with_tokens ts' rest
  end.

(** The field [k] of the record a call returned. *)
Definition field_of (k : string) (o : outcome record) : option json :=
  match o with
  | Ok r => lookup k r
  | Raise _ => None
  end.

(** The match object of a line that matches. *)
Definition match_of (line : text) : match_object :=
  match re_match pattern (normalize line) with
  | Some m => m
  | None => {| m_rest := []; m_caps := [] |}
  end.

(** [address] and [port] are what stands before and after the last colon
    of [field]; without a colon, the whole field and nothing. *)
Definition split_at_last_colon (field address port : text) : Prop :=
  (exists a p,
      field = a ++ ":"%char :: p /\ existsb (is_char ":") p = false /\
      address = a /\ port = p)
  \/ (existsb (is_char ":") field = false /\ address = field /\ port = []).

(** 120 lines, some of the grammar and some not. *)
Definition sample_lines : list text :=
  repeat sample_line 70 ++ repeat garbage_line 50.

(* ------------------------------------------------------------------ *)
(** ** Occurrences of one text around a block of another *)

(** No character of [x] occurs in [y]. *)
Definition shares_no_char (x y : text) : bool :=
  forallb (fun c => negb (existsb (Ascii.eqb c) y)) x.

(** An occurrence of [x] that starts before a block [w] ends before the
    block. *)
Definition clear_before (x w : text) : Prop :=
  forall u rest,
    u <> [] -> startswith x (u ++ w ++ rest) = true -> startswith x u = true.

(** No occurrence of [x] starts inside a block [w], its first character
    included. *)
Definition clear_inside (x w : text) : Prop :=
  forall v1 v2 rest,
    w = v1 ++ v2 -> v2 <> [] -> startswith x (v2 ++ rest) = false.

(** No occurrence of [x] overlaps a block [w], in whatever text. *)
Definition untouched_by (x w : text) : Prop :=
  clear_before x w /\ clear_inside x w.

(* ------------------------------------------------------------------ *)
(** ** Vocabulary of the further properties *)

(** [seg] is what stands in [field] after its last [sep], or the whole
    field when it has none. *)
Definition after_last (sep : ascii) (field seg : text) : Prop :=
  existsb (is_char sep) seg = false /\
  (field = seg \/ exists a, field = a ++ sep :: seg).

(** A decimal number: digits, at least one. *)
Definition is_number (s : text) : Prop :=
  forallb is_digit s = true /\ s <> [].

(** A decimal number with an optional minus sign. *)
Definition is_signed_number (s : text) : Prop :=
  is_number s \/ exists d, s = "-"%char :: d /\ is_number d.

(** The keys of the record of a matched line, in order. *)
Definition record_keys : list string :=
  [ "_time"; "type"; "client_port"; "target_port" ] ++ plain_groups
  ++ [ "client"; "target"; "service"; "raw_log" ].

(** The double-quoted fields of the grammar. *)
Definition quoted_groups : list string :=
  [ "user_agent"; "trace_id"; "domain_name"; "actions_executed";
    "redirect_url"; "error_reason"; "target_port_list";
    "target_status_code_list"; "classification"; "classification_reason" ].

(** The literal text every match of the path pattern begins with. *)
Definition ingress_prefix : text := str "app/k8s-default-ingressn-".

(** No character class of [r] accepts [a]: no match of [r] holds [a]. *)
Fixpoint rejects (r : regex) (a : ascii) : bool :=
  match r with
  | Eps => true
  | Cls p | Rep p _ _ => negb (p a)
  | Seq r1 r2 | Alt r1 r2 => (rejects r1 a && rejects r2 a)%bool
  | Grp _ r1 => rejects r1 a
  end.

(** Any character but the decimal point. *)
Definition no_point (c : ascii) : bool := negb (is_char "." c).

(** The request that carries the batch of [json_logs] at index [i] to
    the dataset. *)
Definition batch_request (dataset token : text) (json_logs : list record)
           (i : nat) : request :=
  {| url := str "https://api.axiom.co/v1/datasets/" ++ dataset
            ++ str "/ingest";
     headers := [ ("Authorization", str "Bearer " ++ token);
                  ("Content-Type", str "application/json") ];
     payload := slice json_logs i batch_size |}.

Definition is_info (x : log_entry) : Prop := exists t, x = Info t.

(* ------------------------------------------------------------------ *)
(** ** The source format of the time, read declaratively *)

(** The parts of a time token, each as the token writes it. *)
Record time_parts : Type :=
  { p_year : text; p_month : text; p_day : text; p_hour : text;
    p_minute : text; p_second : text; p_fraction : text }.

(** Between [lo] and [hi] decimal digits. *)
Definition digits (lo hi : nat) (s : text) : Prop :=
  forallb is_digit s = true /\ lo <= length s <= hi.

(** The token [s] is in the source format, with the parts [p]: a year of
    four digits, a month, a day, an hour, a minute and a second of one
    or two digits and a fraction of one to six digits, written
    [year-month-dayThour:minute:second.fractionZ], the two letters in
    either case, and naming a date and a time of day that exist. *)
Definition in_source_format (s : text) (p : time_parts) : Prop :=
  (exists T Z : ascii,
      (T = "T" \/ T = "t")%char /\ (Z = "Z" \/ Z = "z")%char /\
      s = p_year p ++ "-"%char :: p_month p ++ "-"%char :: p_day p
          ++ T :: p_hour p ++ ":"%char :: p_minute p ++ ":"%char
          :: p_second p ++ "."%char :: p_fraction p ++ [Z]) /\
  digits 4 4 (p_year p) /\ digits 1 2 (p_month p) /\ digits 1 2 (p_day p) /\
  digits 1 2 (p_hour p) /\ digits 1 2 (p_minute p) /\
  digits 1 2 (p_second p) /\ digits 1 6 (p_fraction p) /\
  (1 <= int_of (p_year p))%N /\
  (1 <= int_of (p_month p) <= 12)%N /\
  (1 <= int_of (p_day p)
   <= days_in_month (int_of (p_year p)) (int_of (p_month p)))%N /\
  (int_of (p_hour p) <= 23)%N /\ (int_of (p_minute p) <= 59)%N /\
  (int_of (p_second p) <= 59)%N.

(** One or two digits, written with two. *)
Definition two_digits (s : text) : text :=
  repeat "0"%char (2 - length s) ++ s.

(** The ISO 8601 form of the parts: every field at its full width, the
    fraction with six digits or, when it is zero, left out, and the
    marker Z. *)
Definition iso_8601 (p : time_parts) : text :=
  p_year p ++ str "-" ++ two_digits (p_month p) ++ str "-"
  ++ two_digits (p_day p) ++ str "T" ++ two_digits (p_hour p) ++ str ":"
  ++ two_digits (p_minute p) ++ str ":" ++ two_digits (p_second p)
  ++ (if forallb (is_char "0") (p_fraction p) then []
      else str "." ++ p_fraction p
           ++ repeat "0"%char (6 - length (p_fraction p)))
  ++ str "Z".

(** The date and time the parts name. *)
Definition datetime_of (p : time_parts) : datetime :=
  {| year := int_of (p_year p); month := int_of (p_month p);
     day := int_of (p_day p); hour := int_of (p_hour p);
     minute := int_of (p_minute p); second := int_of (p_second p);
     microsecond :=
       int_of (p_fraction p
               ++ repeat "0"%char (6 - length (p_fraction p))) |}.

(** The digits of a text as a decimal number of the standard library. *)
Definition digit_cons (c : ascii) (u : Decimal.uint) : Decimal.uint :=
  match digit_value c with
  | 0 => Decimal.D0 u | 1 => Decimal.D1 u | 2 => Decimal.D2 u
  | 3 => Decimal.D3 u | 4 => Decimal.D4 u | 5 => Decimal.D5 u
  | 6 => Decimal.D6 u | 7 => Decimal.D7 u | 8 => Decimal.D8 u
  | _ => Decimal.D9 u
  end%N.

Fixpoint uint_of (s : text) : Decimal.uint :=
  match s with
  | [] => Decimal.Nil
  | c :: s' => digit_cons c (uint_of s')
  end.

(* ================================================================== *)
(** * Properties *)

(** ** Text *)

Lemma text_eqb_eq (a b : text) : text_eqb a b = true <-> a = b.
Proof.
  revert b; induction a as [|x a IH]; intros [|y b]; simpl;
    try (split; (discriminate || reflexivity)).
  rewrite andb_true_iff, Ascii.eqb_eq, IH.
  split; [intros [-> ->]; reflexivity | intros H; inversion H; auto].
Qed.

Lemma text_eqb_refl (a : text) : text_eqb a a = true.
Proof. apply text_eqb_eq; reflexivity. Qed.

Lemma startswith_app (p s : text) :
  startswith p s = true <-> exists t, s = p ++ t.
Proof.
  revert s; induction p as [|x p IH]; intros s; simpl.
  - split; [intros _; exists s; reflexivity | reflexivity].
  - destruct s as [|y s].
    + split; [discriminate | intros [t H]; discriminate].
    + rewrite andb_true_iff, Ascii.eqb_eq, IH.
      split.
      * intros [-> [t ->]]. exists t; reflexivity.
      * intros [t H]. inversion H; subst. split; [reflexivity | eauto].
  Qed.

Lemma startswith_self (p t : text) : startswith p (p ++ t) = true.
Proof. apply startswith_app. exists t. reflexivity. Qed.

Lemma startswith_mono (x u t : text) :
  startswith x u = true -> startswith x (u ++ t) = true.
Proof.
  intros H. apply startswith_app in H. destruct H as [r ->].
  rewrite <- app_assoc. apply startswith_self.
Qed.

Lemma startswith_nil (x : text) : x <> [] -> startswith x [] = false.
Proof. destruct x; [contradiction | reflexivity]. Qed.

Lemma contains_cons (x : text) (c : ascii) (s : text) :
  contains x (c :: s) = (startswith x (c :: s) || contains x s)%bool.
Proof. reflexivity. Qed.

Lemma contains_app_r (x a b : text) :
  contains x b = true -> contains x (a ++ b) = true.
Proof.
  intros H. induction a as [|c a IH]; [assumption|].
  simpl app. rewrite contains_cons, IH. apply orb_true_r.
Qed.

Lemma contains_app_l (x a b : text) :
  x <> [] -> contains x a = true -> contains x (a ++ b) = true.
Proof.
  intros Hx. induction a as [|c a IH]; intros H.
  - simpl in H. rewrite startswith_nil in H by assumption. discriminate.
  - simpl app. rewrite contains_cons in *.
    apply orb_true_iff in H. destruct H as [H|H].
    + change (c :: a ++ b) with ((c :: a) ++ b).
      rewrite (startswith_mono _ _ _ H). reflexivity.
    + rewrite (IH H). apply orb_true_r.
Qed.

Lemma startswith_contains (x s : text) :
  startswith x s = true -> contains x s = true.
Proof.
  intros H. destruct s; [exact H|]. rewrite contains_cons, H. reflexivity.
Qed.

Lemma contains_suffix (x v u : text) :
  startswith x u = true -> contains x (v ++ u) = true.
Proof. intros H. apply contains_app_r, startswith_contains, H. Qed.

Lemma contains_false_of_not_true (x s t : text) :
  (contains x s = true -> contains x t = true) ->
  contains x t = false -> contains x s = false.
Proof. destruct (contains x s); [intros H E; rewrite H in E; auto | auto]. Qed.

(** ** The matcher against [Matches] *)

Lemma rep_sound (A : Type) (p : ascii -> bool) (k : text -> option A) :
  forall s lo hi a,
    rep p lo hi s k = Some a ->
    exists s1 s2,
      s = s1 ++ s2 /\ forallb p s1 = true /\ lo <= length s1 /\
      (forall h, hi = Some h -> length s1 <= h) /\ k s2 = Some a.
Proof.
  assert (Hstop : forall s lo hi a,
             match lo with O => k s | S _ => None end = Some a ->
             exists s1 s2,
               s = s1 ++ s2 /\ forallb p s1 = true /\ lo <= length s1 /\
               (forall h, hi = Some h -> length s1 <= h) /\ k s2 = Some a).
  { intros s [|lo] hi a H; [|discriminate].
    exists [], s. simpl. repeat split; auto with arith. }
  induction s as [|x s IH]; intros lo hi a H; simpl in H.
  - apply Hstop; assumption.
  - destruct (p x && may_repeat hi)%bool eqn:E; [|apply Hstop; assumption].
    destruct (rep p (pred lo) (option_map pred hi) s k) eqn:R;
      [|apply Hstop; assumption].
    inversion H; subst; clear H.
    apply andb_true_iff in E. destruct E as [Hp Hhi].
    destruct (IH _ _ _ R) as (s1 & s2 & -> & Hall & Hlo & Hbound & Hk).
    exists (x :: s1), s2. simpl. rewrite Hp, Hall.
    repeat split; auto; try lia.
    intros h ->. simpl in *.
    destruct h as [|h]; [discriminate|].
    specialize (Hbound h eq_refl). lia.
Qed.

Lemma rmatch_sound (A : Type) :
  forall r s c (k : text -> captures -> option A) a,
    rmatch r s c k = Some a ->
    exists s1 s2 c',
      s = s1 ++ s2 /\ Matches r s1 c c' /\ k s2 c' = Some a.
Proof.
  induction r as [|p|r1 IH1 r2 IH2|r1 IH1 r2 IH2|p lo hi|n r IH];
    intros s c k a H; simpl in H.
  - exists [], s, c. repeat split; auto. constructor.
  - destruct s as [|x s]; [discriminate|].
    destruct (p x) eqn:Hp; [|discriminate].
    exists [x], s, c. repeat split; auto. constructor; assumption.
  - destruct (IH1 _ _ _ _ H) as (s1 & s2 & c1 & -> & M1 & H2).
    destruct (IH2 _ _ _ _ H2) as (s3 & s4 & c2 & -> & M2 & H3).
    exists (s1 ++ s3), s4, c2. rewrite app_assoc.
    repeat split; auto. econstructor; eassumption.
  - destruct (rmatch r1 s c k) eqn:E1.
    + inversion H; subst.
      destruct (IH1 _ _ _ _ E1) as (s1 & s2 & c1 & -> & M1 & H2).
      exists s1, s2, c1. repeat split; auto. apply M_AltL; assumption.
    + destruct (IH2 _ _ _ _ H) as (s1 & s2 & c1 & -> & M1 & H2).
      exists s1, s2, c1. repeat split; auto. apply M_AltR; assumption.
  - destruct (rep_sound _ _ _ _ _ _ _ H) as (s1 & s2 & -> & Hall & Hlo & Hhi & Hk).
    exists s1, s2, c. repeat split; auto. constructor; assumption.
  - destruct (IH _ _ _ _ H) as (s1 & s2 & c1 & -> & M1 & H2).
    rewrite length_app, Nat.add_sub, firstn_app, Nat.sub_diag, firstn_all in H2.
    simpl in H2. rewrite app_nil_r in H2.
    exists s1, s2, ((n, s1) :: c1). repeat split; auto.
    constructor; assumption.
Qed.

Lemma re_match_sound (r : regex) (s : text) (m : match_object) :
  re_match r s = Some m ->
  exists s1, s = s1 ++ m_rest m /\ Matches r s1 [] (m_caps m).
Proof.
  intros H. apply rmatch_sound in H.
  destruct H as (s1 & s2 & c' & -> & M & H). inversion H; subst; simpl.
  exists s1; auto.
Qed.

Lemma rep_complete (A : Type) (p : ascii -> bool) (k : text -> option A) :
  forall s1 s2 lo hi,
    forallb p s1 = true -> lo <= length s1 ->
    (forall h, hi = Some h -> length s1 <= h) ->
    k s2 <> None ->
    rep p lo hi (s1 ++ s2) k <> None.
Proof.
  induction s1 as [|x s1 IH]; intros s2 lo hi Hall Hlo Hhi Hk.
  - simpl in *. assert (lo = 0) by lia. subst lo.
    destruct s2 as [|y s2]; simpl; auto.
    destruct (p y && may_repeat hi)%bool; auto.
    destruct (rep p 0 (option_map pred hi) s2 k); [discriminate | auto].
  - simpl in Hall. apply andb_true_iff in Hall. destruct Hall as [Hx Hall].
    assert (Hm : may_repeat hi = true).
    { destruct hi as [[|h]|]; auto. specialize (Hhi 0 eq_refl).
      simpl in Hhi. lia. }
    simpl. rewrite Hx, Hm. simpl.
    assert (R : rep p (pred lo) (option_map pred hi) (s1 ++ s2) k <> None).
    { apply IH; auto.
      - simpl in Hlo. lia.
      - intros h Hh. destruct hi as [h'|]; [|discriminate].
        simpl in Hh. inversion Hh; subst.
        specialize (Hhi h' eq_refl). simpl in Hhi. lia. }
    destruct (rep p (pred lo) (option_map pred hi) (s1 ++ s2) k);
      [discriminate | contradiction].
Qed.

Lemma rmatch_complete (A : Type) :
  forall r s1 c c',
    Matches r s1 c c' ->
    forall s2 (k : text -> captures -> option A),
      k s2 c' <> None -> rmatch r (s1 ++ s2) c k <> None.
Proof.
  induction 1 as [c|p a c Hp|r1 r2 s1 s2 c c1 c2 M1 IH1 M2 IH2
                 |r1 r2 s c c' M IH|r1 r2 s c c' M IH|p lo hi s c Hall Hlo Hhi
                 |n r s c c' M IH];
    intros rest k Hk; simpl.
  - assumption.
  - rewrite Hp. assumption.
  - rewrite <- app_assoc. apply IH1. apply IH2. assumption.
  - specialize (IH rest k Hk).
    destruct (rmatch r1 (s ++ rest) c k); [discriminate | contradiction].
  - destruct (rmatch r1 (s ++ rest) c k); [discriminate |].
    apply IH; assumption.
  - apply rep_complete; assumption.
  - apply IH.
    rewrite length_app, Nat.add_sub, firstn_app, Nat.sub_diag, firstn_all.
    simpl. rewrite app_nil_r. assumption.
Qed.

(** The matcher finds a match exactly when some prefix of the subject is
    matched by the pattern. *)
Lemma re_match_iff (r : regex) (s : text) :
  re_match r s <> None <->
  exists s1 s2 c', s = s1 ++ s2 /\ Matches r s1 [] c'.
Proof.
  split.
  - destruct (re_match r s) as [m|] eqn:E; [intros _ | contradiction].
    destruct (re_match_sound _ _ _ E) as (s1 & Hs & M). eauto.
  - intros (s1 & s2 & c' & -> & M). unfold re_match.
    eapply rmatch_complete; [eassumption | discriminate].
Qed.

Lemma Matches_captures (n : string) :
  forall r s c c',
    Matches r s c c' ->
    (capture n c <> None -> capture n c' <> None) /\
    (always_set r n = true -> capture n c' <> None).
Proof.
  induction 1 as [c|p a c Hp|r1 r2 s1 s2 c c1 c2 M1 IH1 M2 IH2
                 |r1 r2 s c c' M IH|r1 r2 s c c' M IH|p lo hi s c Hall Hlo Hhi
                 |n' r s c c' M IH];
    simpl; try (split; [auto | discriminate]).
  - destruct IH1 as [P1 S1], IH2 as [P2 S2].
    split; [auto|]. intros E. apply orb_true_iff in E.
    destruct E; auto.
  - destruct IH as [P S]. split; [auto|].
    intros E. apply andb_true_iff in E. destruct E; auto.
  - destruct IH as [P S]. split; [auto|].
    intros E. apply andb_true_iff in E. destruct E; auto.
  - destruct IH as [P S]. split.
    + intros E. destruct (String.eqb n n'); [discriminate | auto].
    + intros E. destruct (String.eqb n n'); [discriminate |].
      simpl in E. auto.
Qed.

(** Every group a pattern always sets is captured by a match. *)
Lemma group_captured (r : regex) (s : text) (m : match_object) (n : string) :
  re_match r s = Some m -> always_set r n = true ->
  capture n (m_caps m) = Some (group m n).
Proof.
  intros H Hn. destruct (re_match_sound _ _ _ H) as (s1 & _ & M).
  apply (Matches_captures n) in M. destruct M as [_ M].
  specialize (M Hn). unfold group.
  destruct (capture n (m_caps m)); [reflexivity | contradiction].
Qed.

Lemma Matches_keeps (n : string) :
  forall r s c c',
    Matches r s c c' -> ~ In n (group_names r) -> capture n c' = capture n c.
Proof.
  induction 1 as [c|p a c Hp|r1 r2 s1 s2 c c1 c2 M1 IH1 M2 IH2
                 |r1 r2 s c c' M IH|r1 r2 s c c' M IH|p lo hi s c Hall Hlo Hhi
                 |n' r s c c' M IH];
    simpl; intros Hn; auto.
  - rewrite in_app_iff in Hn. rewrite IH2, IH1; auto.
  - rewrite in_app_iff in Hn. auto.
  - rewrite in_app_iff in Hn. auto.
  - destruct (String.eqb n n') eqn:E.
    + apply String.eqb_eq in E. subst. tauto.
    + apply IH. tauto.
Qed.

Lemma Matches_seqs_app (l1 l2 : list regex) :
  forall s c c',
    Matches (seqs (l1 ++ l2)) s c c' ->
    exists s1 s2 c1,
      s = s1 ++ s2 /\ Matches (seqs l1) s1 c c1 /\ Matches (seqs l2) s2 c1 c'.
Proof.
  induction l1 as [|r l1 IH]; intros s c c' M; simpl in *.
  - exists [], s, c. repeat split; auto. constructor.
  - inversion M as [| |r1 r2 s1 s2 c0 c1 c2 Ma Mb| | | |]; subst; clear M.
    destruct (IH _ _ _ Mb) as (t1 & t2 & c3 & -> & M1 & M2).
    exists (s1 ++ t1), t2, c3. rewrite app_assoc. repeat split; auto.
    econstructor; eassumption.
Qed.

Ltac inv H := inversion H; subst; clear H.

Ltac inv_matches :=
  unfold sp, Plus, Star, Lit, Opt in *;
  repeat match goal with
    | H : Matches (Seq _ _) _ _ _ |- _ => inv H
    | H : Matches (Cls _) _ _ _ |- _ => inv H
    | H : Matches (Grp _ _) _ _ _ |- _ => inv H
    | H : Matches (Rep _ _ _) _ _ _ |- _ => inv H
    | H : Matches Eps _ _ _ |- _ => inv H
    | H : Matches (Alt _ _) _ _ _ |- _ => inv H
    end.

(** ** The pieces of [parse_elb_log] *)

Lemma rsplit1_spec (sep : ascii) (s : text) :
  if existsb (is_char sep) s
  then exists a p,
      rsplit1 sep s = [a; p] /\ s = a ++ sep :: p /\
      existsb (is_char sep) p = false
  else rsplit1 sep s = [s].
Proof.
  induction s as [|x s IH]; simpl; [reflexivity|].
  destruct (existsb (is_char sep) s) eqn:E.
  - destruct IH as (a & p & -> & -> & Hp).
    rewrite orb_true_r. exists (x :: a), p. auto.
  - rewrite IH, orb_false_r. unfold is_char at 1.
    destruct (Ascii.eqb x sep) eqn:Ex.
    + apply Ascii.eqb_eq in Ex. subst x. exists [], s. auto.
    + reflexivity.
Qed.

Lemma split_address_str (s : text) :
  split_address (PStr s) = Ok (PStr (address_part s), PStr (port_part s)).
Proof.
  unfold split_address, address_part, port_part.
  pose proof (rsplit1_spec ":" s) as H.
  destruct (existsb (is_char ":") s); [|reflexivity].
  destruct H as (a & p & -> & _ & _). reflexivity.
Qed.

Lemma format_timestamp_str (s : text) :
  format_timestamp (PStr s) = Ok (iso_time_of s).
Proof.
  unfold format_timestamp, iso_time_of. destruct (strptime s); reflexivity.
Qed.

Lemma service_name_str (s : text) :
  service_name (PStr s) = Ok (service_of s).
Proof.
  unfold service_name, service_of.
  destruct (text_eqb s (str "-")); reflexivity.
Qed.

Lemma split_parts (s : text) :
  split_at_last_colon s (address_part s) (port_part s).
Proof.
  unfold split_at_last_colon, address_part, port_part.
  pose proof (rsplit1_spec ":" s) as H.
  destruct (existsb (is_char ":") s); [left | right; auto].
  destruct H as (a & p & -> & -> & Hp). exists a, p. auto.
Qed.

Ltac run_parse :=
  repeat (rewrite ?format_timestamp_str, ?split_address_str,
            ?service_name_str;
          progress cbn [bind getitem lookup setitem delitem remove_key map
                        normalize_empty py_eq py_str to_json update
                        fold_left fst snd String.eqb Ascii.eqb Bool.eqb]).

(** A line whose canonical form matches the grammar yields the record
    [success_record]; no step of the function raises. *)
Lemma parse_matched (env : environ) (line : text) (m : match_object) :
  re_match pattern (normalize line) = Some m ->
  parse_elb_log env line = Ok (success_record env (normalize line) m).
Proof.
  intros H. unfold parse_elb_log. rewrite H.
  assert (G : forall n, always_set pattern n = true ->
                        capture n (m_caps m) = Some (group m n)).
  { intros n Hn. eapply group_captured; eassumption. }
  unfold groupdict.
  let l := eval vm_compute in (group_names pattern) in
  change (group_names pattern) with l.
  cbn [map].
  rewrite !G by reflexivity.
  unfold success_record, plain_groups, empty_if_dash. cbn [map app].
  generalize (redact env (normalize line)), (group m). intros raw g.
  run_parse.
  reflexivity.
Qed.

Lemma parse_unmatched (env : environ) (line : text) :
  re_match pattern (normalize line) = None ->
  parse_elb_log env line = Ok failure_record.
Proof. intros H. unfold parse_elb_log. rewrite H. reflexivity. Qed.

(** [parse_elb_log] raises on no line. *)
Lemma parse_elb_log_total (env : environ) (line : text) :
  parse_elb_log env line = Ok (record_of env line).
Proof.
  unfold record_of.
  destruct (re_match pattern (normalize line)) as [m|] eqn:E.
  - apply parse_matched; assumption.
  - apply parse_unmatched; assumption.
Qed.

Lemma field_of_matched (env : environ) (line : text) (m : match_object)
      (k : string) :
  re_match pattern (normalize line) = Some m ->
  field_of k (parse_elb_log env line) =
  lookup k (success_record env (normalize line) m).
Proof. intros H. rewrite (parse_matched env line m H). reflexivity. Qed.

Lemma success_record_flat (env : environ) (line : text) (m : match_object) :
  flat (success_record env line m).
Proof.
  intros k v H. unfold success_record, plain_groups in H.
  cbn [map app In] in H.
  repeat (destruct H as [H|H]; [inversion H; eauto |]).
  contradiction.
Qed.

Lemma success_record_keys (env : environ) (line : text) (m : match_object) :
  keys (success_record env line m) =
  [ "_time"; "type"; "client_port"; "target_port" ] ++ plain_groups
  ++ [ "client"; "target"; "service"; "raw_log" ].
Proof. reflexivity. Qed.

Lemma success_record_not_failure
      (env : environ) (line : text) (m : match_object) :
  success_record env line m <> failure_record.
Proof.
  intros X. apply (f_equal (@length _)) in X. discriminate X.
Qed.

Lemma matched_not_failure (env : environ) (line : text) (m : match_object) :
  re_match pattern (normalize line) = Some m ->
  parse_elb_log env line <> Ok failure_record.
Proof.
  intros H. rewrite (parse_matched env line m H). intros X.
  apply (success_record_not_failure env (normalize line) m). congruence.
Qed.


Lemma empty_if_dash_no_sentinel (s : text) : empty_if_dash s <> str "-".
Proof.
  unfold empty_if_dash. destruct (text_eqb s (str "-")) eqn:E.
  - discriminate.
  - intros ->. rewrite text_eqb_refl in E. discriminate.
Qed.

Lemma iso_time_of_sentinel (s : text) :
  iso_time_of s = str "-" <-> s = str "-".
Proof.
  split.
  - unfold iso_time_of. destruct (strptime s) as [t|]; [|auto].
    intros E. apply (f_equal (@length ascii)) in E.
    unfold isoformat in E. rewrite !length_app in E. simpl in E. lia.
  - intros ->. reflexivity.
Qed.

(** ** The shape of a matched line *)

Lemma not_nil_of_length (A : Type) (l : list A) : 1 <= length l -> l <> [].
Proof. destruct l; simpl; [lia | discriminate]. Qed.

Lemma dash_non_space (a : ascii) :
  is_char "-" a = true -> forallb non_space [a] = true.
Proof. intros H. apply Ascii.eqb_eq in H. subst. reflexivity. Qed.

(** The first five fields of a matched line are its first five tokens:
    the groups [type] and [time], the name of the load balancer, and the
    groups [client_port] and [target_port]. *)
Lemma leading_tokens (s : text) (m : match_object) :
  re_match pattern s = Some m ->
  exists elb,
    starts_with_tokens
      [ group m "type"; group m "time"; elb; group m "client_port";
        group m "target_port" ] s.
Proof.
  intros H. destruct (re_match_sound _ _ _ H) as (s1 & -> & M). clear H.
  unfold pattern in M.
  replace pattern_items
    with (firstn 10 pattern_items ++ skipn 10 pattern_items) in M
    by apply firstn_skipn.
  apply Matches_seqs_app in M. destruct M as (t1 & t2 & c1 & -> & M1 & M2).
  assert (K : forall n,
             ~ In n (group_names (seqs (skipn 10 pattern_items))) ->
             group m n =
             match capture n c1 with Some v => v | None => [] end).
  { intros n Hn. unfold group. rewrite (Matches_keeps n _ _ _ _ M2 Hn). reflexivity. }
  cbn in M1.
  inv_matches;
    rewrite !K by (cbv; intuition discriminate);
    cbn [capture String.eqb Ascii.eqb Bool.eqb];
    repeat rewrite <- app_assoc; cbn [app];
    eexists; cbn [starts_with_tokens];
    repeat (refine (conj _ (conj _ (ex_intro _ _ (ex_intro _ _
                      (conj _ (conj eq_refl _))))));
            [ solve [auto using dash_non_space]
            | first [apply not_nil_of_length; assumption | discriminate]
            | assumption
            | ]);
    exact I.
Qed.

Lemma token_unique (t t' : text) (w w' : ascii) (rest rest' : text) :
  forallb non_space t = true -> forallb non_space t' = true ->
  is_space w = true -> is_space w' = true ->
  t ++ w :: rest = t' ++ w' :: rest' ->
  t = t' /\ rest = rest'.
Proof.
  revert t'. induction t as [|x t IH]; intros [|y t'] Ht Ht' Hw Hw' E;
    simpl in *.
  - inversion E; auto.
  - inversion E; subst. apply andb_true_iff in Ht'. destruct Ht' as [Hy _].
    unfold non_space in Hy. rewrite Hw in Hy. discriminate.
  - inversion E; subst. apply andb_true_iff in Ht. destruct Ht as [Hx _].
    unfold non_space in Hx. rewrite Hw' in Hx. discriminate.
  - inversion E; subst.
    apply andb_true_iff in Ht, Ht'. destruct Ht as [_ Ht], Ht' as [_ Ht'].
    destruct (IH t' Ht Ht' Hw Hw' H1) as [-> ->]. auto.
Qed.

(** A text has one sequence of leading tokens of a given length. *)
Lemma starts_with_tokens_unique (ts ts' : list text) :
  forall s,
    starts_with_tokens ts s -> starts_with_tokens ts' s ->
    length ts = length ts' -> ts = ts'.
Proof.
  revert ts'. induction ts as [|t ts IH]; intros [|t' ts'] s H H' L;
    simpl in *; try discriminate; auto.
  destruct H as (Ht & _ & w & rest & Hw & -> & H).
  destruct H' as (Ht' & _ & w' & rest' & Hw' & E & H').
  destruct (token_unique t t' w w' rest rest' Ht Ht' Hw Hw' E) as [-> ->].
  f_equal. eapply IH; eauto.
Qed.

Lemma space_then_quote_app (a b : text) :
  space_then_quote b = true -> space_then_quote (a ++ b) = true.
Proof.
  intros H. induction a as [|x a IH]; simpl; [assumption|].
  rewrite IH. apply orb_true_r.
Qed.

Lemma space_then_quote_app_l (a b : text) :
  space_then_quote a = true -> space_then_quote (a ++ b) = true.
Proof.
  induction a as [|x a IH]; simpl; [discriminate|].
  intros H. apply orb_true_iff in H. destruct H as [H|H].
  - destruct a as [|y a]; [discriminate|]. simpl. rewrite H. reflexivity.
  - rewrite (IH H). apply orb_true_r.
Qed.

(** A matched line has a whitespace character followed by a double
    quote: the one that opens the request field. *)
Lemma matched_space_then_quote (s : text) (m : match_object) :
  re_match pattern s = Some m -> space_then_quote s = true.
Proof.
  intros H. destruct (re_match_sound _ _ _ H) as (s1 & -> & M). clear H.
  apply space_then_quote_app_l.
  unfold pattern in M.
  replace pattern_items
    with (firstn 23 pattern_items ++ skipn 23 pattern_items) in M
    by apply firstn_skipn.
  apply Matches_seqs_app in M. destruct M as (t1 & t2 & c1 & -> & _ & M).
  apply space_then_quote_app.
  change (skipn 23 pattern_items)
    with ([sp; Lit dquote] ++ skipn 25 pattern_items) in M.
  apply Matches_seqs_app in M. destruct M as (t3 & t4 & c2 & -> & M & _).
  apply space_then_quote_app_l.
  cbn in M. inv_matches. simpl.
  match goal with H : is_space _ = true |- _ => rewrite H end.
  match goal with H : is_char _ _ = true |- _ =>
    apply Ascii.eqb_eq in H; subst end.
  reflexivity.
Qed.

Lemma space_then_quote_length (s : text) :
  space_then_quote s = true -> 2 <= length s.
Proof.
  destruct s as [|a [|b s]]; simpl; try discriminate. intros _. lia.
Qed.

(** ** The batches *)

Lemma parse_lines_total (env : environ) (lines : list text) :
  parse_lines env lines = Ok (map (record_of env) lines).
Proof.
  induction lines as [|line rest IH]; simpl; [reflexivity|].
  rewrite parse_elb_log_total, IH. reflexivity.
Qed.

Lemma send_batches_responding (post : sink) (to : text) (hdrs : dict text)
      (json_logs : list record) (n : nat) :
  (forall earlier rq, exists status, post earlier rq = Ok status) ->
  forall indices w,
  exists w',
    send_batches post to hdrs json_logs n indices w = (w', Ok tt) /\
    posts w' =
    posts w ++ map (fun i => {| url := to; headers := hdrs;
                                payload := slice json_logs i n |}) indices.
Proof.
  intros Hpost. induction indices as [|i rest IH]; intros w; simpl.
  - exists w. rewrite app_nil_r. auto.
  - destruct (Hpost (posts w)
                {| url := to; headers := hdrs;
                   payload := slice json_logs i n |}) as [status ->].
    match goal with |- context [send_batches _ _ _ _ _ _ ?w1] =>
      destruct (IH w1) as (w' & -> & Hw') end.
    exists w'. split; [reflexivity|].
    rewrite Hw'. simpl. rewrite <- app_assoc. reflexivity.
Qed.

Lemma chunks_concat (A : Type) (n : nat) :
  forall k (l : list A),
    length l <= k * n ->
    concat (map (fun j => slice l (j * n) n) (seq 0 k)) = l.
Proof.
  unfold slice.
  induction k as [|k IH]; intros l Hl; simpl.
  - destruct l; [reflexivity | simpl in Hl; lia].
  - rewrite <- seq_shift, map_map.
    rewrite (map_ext _ (fun j => firstn n (skipn (j * n) (skipn n l)))).
    + rewrite IH; [apply firstn_skipn|].
      rewrite length_skipn. simpl in Hl. lia.
    + intros j. rewrite skipn_skipn. do 2 f_equal. simpl. lia.
Qed.

Lemma range_step_covers (stop step : nat) :
  0 < step -> stop <= (stop + step - 1) / step * step.
Proof.
  intros Hs.
  pose proof (Nat.div_mod_eq (stop + step - 1) step) as E.
  pose proof (Nat.mod_upper_bound (stop + step - 1) step) as B.
  nia.
Qed.

(** The batches of a run, one after the other, are the records. *)
Lemma batches_concat (A : Type) (l : list A) (n : nat) :
  0 < n ->
  concat (map (fun i => slice l i n) (range_step (length l) n)) = l.
Proof.
  intros Hn. unfold range_step. rewrite map_map.
  apply chunks_concat. apply range_step_covers; assumption.
Qed.

(** 120 records in batches of 50. *)
Lemma three_slices (A : Type) (l : list A) :
  length l = 120 ->
  map (fun i => slice l i batch_size) (range_step (length l) batch_size)
  = [ firstn 50 l; firstn 50 (skipn 50 l); skipn 100 l ].
Proof.
  intros L. rewrite L. unfold batch_size, slice.
  change (range_step 120 50) with [0; 50; 100]. cbn [map skipn].
  rewrite (firstn_all2 (skipn 100 l)) by (rewrite length_skipn; lia).
  reflexivity.
Qed.

(** A run whose sink answers every call, whatever the status codes:
    the calls carry the slices of the records, and the count of the
    records is returned. *)
Lemma lambda_handler_responding (env : environ) (lines : list text)
      (post : sink) :
  env "DATASET_NAME" <> None -> env "AXIOM_API_TOKEN" <> None ->
  (forall earlier rq, exists status, post earlier rq = Ok status) ->
  exists w,
    lambda_handler env lines post =
    (w, Ok {| statusCode := 200;
              message := str "Processed "
                         ++ decimal (N.of_nat (length lines))
                         ++ str " logs" |}) /\
    map payload (posts w) =
    map (fun i => slice (map (record_of env) lines) i batch_size)
        (range_step (length lines) batch_size).
Proof.
  intros Hd Ht Hpost. unfold lambda_handler, environ_item.
  rewrite parse_lines_total.
  destruct (env "DATASET_NAME") as [dataset|]; [|contradiction].
  destruct (env "AXIOM_API_TOKEN") as [token|]; [|contradiction].
  match goal with |- context [send_batches ?p ?t ?h ?l ?n ?i ?w0] =>
    destruct (send_batches_responding p t h l n Hpost i w0)
      as (w & -> & Hw) end.
  exists w. rewrite length_map. split; [reflexivity|].
  rewrite Hw, length_map. simpl. rewrite map_map. reflexivity.
Qed.

(** ** The scan of [re.sub] and [str.replace] *)

Lemma scan_skip (find : text -> option nat) (repl : text) :
  forall s k, scan find repl k s = scan find repl 0 (skipn k s).
Proof.
  induction s as [|a s IH]; intros [|k]; simpl; auto.
Qed.

(** A match of the path pattern is not empty, as [re_sub] supposes. *)
Lemma ingress_path_match_not_empty (s : text) (n : nat) :
  match_length ingress_path s = Some n -> 27 <= n.
Proof.
  unfold match_length. destruct (re_match ingress_path s) as [m|] eqn:E;
    [|discriminate].
  intros H. inversion H; subst; clear H.
  destruct (re_match_sound _ _ _ E) as (s1 & -> & M).
  rewrite length_app, Nat.add_sub.
  unfold ingress_path, word in M. cbn in M. inv_matches.
  rewrite !length_app. simpl. lia.
Qed.

Lemma space_then_quote_skip (repl s : text) :
  forallb non_space repl = true ->
  space_then_quote (repl ++ s) = space_then_quote s.
Proof.
  intros H. induction repl as [|c repl IH]; simpl in *; [reflexivity|].
  apply andb_true_iff in H. destruct H as [Hc H].
  rewrite (IH H). unfold non_space in Hc. apply negb_true_iff in Hc.
  rewrite Hc. destruct (repl ++ s); reflexivity.
Qed.

Lemma space_then_quote_tail (a : ascii) (s : text) :
  space_then_quote s = true -> space_then_quote (a :: s) = true.
Proof. intros H. simpl. rewrite H. apply orb_true_r. Qed.

Lemma scan_head_quote (find : text -> option nat) (repl : text) :
  repl <> [] -> hd_error repl <> Some dquote ->
  forall s t,
    scan find repl 0 s = dquote :: t -> exists s', s = dquote :: s'.
Proof.
  intros Hne Hhd [|c s] t; simpl; [discriminate|].
  destruct (find (c :: s)).
  - destruct repl as [|r repl]; [contradiction|]. simpl in *.
    intros E. inversion E; subst. contradiction Hhd. reflexivity.
  - intros E. inversion E; subst. eauto.
Qed.

(** A replacement text without whitespace that does not begin with a
    double quote brings no whitespace-then-quote into the text. *)
Lemma scan_space_then_quote (find : text -> option nat) (repl : text) :
  forallb non_space repl = true ->
  repl <> [] -> hd_error repl <> Some dquote ->
  forall s k,
    space_then_quote (scan find repl k s) = true ->
    space_then_quote s = true.
Proof.
  intros Hns Hne Hhd.
  induction s as [|a s IH]; intros k H; simpl in H; [discriminate|].
  destruct k as [|k].
  - destruct (find (a :: s)) as [n|].
    + rewrite space_then_quote_skip in H by assumption.
      apply space_then_quote_tail. eapply IH; eassumption.
    + simpl in H. apply orb_true_iff in H. destruct H as [H|H].
      * destruct (scan find repl 0 s) as [|b t] eqn:E; [discriminate|].
        apply andb_true_iff in H. destruct H as [Ha Hb].
        apply Ascii.eqb_eq in Hb. subst b.
        destruct (scan_head_quote find repl Hne Hhd s t E) as [s' ->].
        simpl. rewrite Ha. reflexivity.
      * apply space_then_quote_tail. eapply IH; eassumption.
  - apply space_then_quote_tail. eapply IH; eassumption.
Qed.

Lemma interleave_space_then_quote (new s : text) :
  forallb non_space new = true ->
  new <> [] -> hd_error new <> Some dquote ->
  space_then_quote (interleave new s) = false.
Proof.
  intros Hns Hne Hhd.
  assert (Hnew : space_then_quote new = false).
  { rewrite <- (app_nil_r new). rewrite space_then_quote_skip by assumption.
    reflexivity. }
  induction s as [|a s IH]; simpl; [assumption|].
  rewrite space_then_quote_skip by assumption. simpl. rewrite IH.
  destruct (interleave new s) as [|b t] eqn:E; [reflexivity|].
  rewrite orb_false_r.
  assert (Hb : hd_error new = Some b).
  { destruct s; simpl in E.
    - rewrite E. reflexivity.
    - destruct new; [contradiction|]. inversion E; reflexivity. }
  destruct (Ascii.eqb b dquote) eqn:Eb; [|apply andb_false_r].
  apply Ascii.eqb_eq in Eb. subst b. contradiction.
Qed.

(** [str.replace] with such a replacement text: no whitespace-then-quote
    in the result that was not in the text; and none at all for an empty
    [old]. *)
Lemma replace_space_then_quote (s old new : text) :
  forallb non_space new = true ->
  new <> [] -> hd_error new <> Some dquote ->
  space_then_quote (replace s old new) = true ->
  space_then_quote s = true /\ old <> [].
Proof.
  intros Hns Hne Hhd H. destruct old as [|o old]; simpl in H.
  - rewrite interleave_space_then_quote in H by assumption. discriminate.
  - split; [|discriminate]. eapply scan_space_then_quote; eassumption.
Qed.

Lemma scan_not_nil (find : text -> option nat) (repl s : text) :
  repl <> [] -> s <> [] -> scan find repl 0 s <> [].
Proof.
  intros Hr Hs. destruct s as [|a s]; [contradiction|]. simpl.
  destruct (find (a :: s)); [|discriminate].
  destruct repl; [contradiction | discriminate].
Qed.

Lemma scan_length2 (find : text -> option nat) (repl s : text) :
  2 <= length repl -> 2 <= length s -> 2 <= length (scan find repl 0 s).
Proof.
  intros Hr Hs. destruct s as [|a s]; simpl in *; [lia|].
  destruct (find (a :: s)).
  - rewrite length_app. lia.
  - assert (scan find repl 0 s <> []).
    { apply scan_not_nil; destruct repl, s; simpl in *; try lia; discriminate. }
    destruct (scan find repl 0 s); [contradiction | simpl; lia].
Qed.

Lemma interleave_length (new s : text) :
  length new <= length (interleave new s).
Proof. destruct s; simpl; [|rewrite length_app]; lia. Qed.

Lemma replace_length2 (s old new : text) :
  2 <= length new -> 2 <= length s -> 2 <= length (replace s old new).
Proof.
  intros Hn Hs. destruct old; simpl.
  - pose proof (interleave_length new s). lia.
  - apply scan_length2; assumption.
Qed.

Lemma redact_length2 (env : environ) (s : text) :
  2 <= length s -> 2 <= length (redact env s).
Proof.
  intros H. unfold redact. repeat apply replace_length2; simpl; auto; lia.
Qed.

Lemma redact_space_then_quote (env : environ) (s : text) :
  environ_get env "CERT_ARN" [] = [] \/ environ_get env "ACCOUNT_ID" [] = [] ->
  space_then_quote (redact env s) = false.
Proof.
  intros H. destruct (space_then_quote (redact env s)) eqn:E; [|reflexivity].
  unfold redact in E.
  apply replace_space_then_quote in E;
    [|reflexivity | discriminate | discriminate].
  destruct E as [E Ha].
  apply replace_space_then_quote in E;
    [|reflexivity | discriminate | discriminate].
  destruct E as [_ Hc]. tauto.
Qed.

Lemma normalize_space_then_quote (line : text) :
  space_then_quote (normalize line) = true -> space_then_quote line = true.
Proof.
  unfold normalize, re_sub. apply scan_space_then_quote;
    [reflexivity | discriminate | discriminate].
Qed.

Lemma interleave_concat (new s : text) :
  interleave new s = new ++ concat (map (fun c => c :: new) s).
Proof.
  induction s as [|a s IH]; simpl; [rewrite app_nil_r; reflexivity|].
  rewrite IH. reflexivity.
Qed.

(** ** Occurrences and [str.replace] *)

Lemma scan_hit (old new s : text) :
  old <> [] ->
  scan (find_prefix old) new 0 (old ++ s)
  = new ++ scan (find_prefix old) new 0 s.
Proof.
  intros H. destruct old as [|c old]; [contradiction|]. simpl app.
  cbn [scan]. unfold find_prefix at 1.
  change (c :: old ++ s) with ((c :: old) ++ s). rewrite startswith_self.
  f_equal. simpl pred. rewrite scan_skip.
  rewrite skipn_app, Nat.sub_diag, skipn_all. reflexivity.
Qed.

Lemma scan_miss (old new : text) (c : ascii) (s : text) :
  startswith old (c :: s) = false ->
  scan (find_prefix old) new 0 (c :: s)
  = c :: scan (find_prefix old) new 0 s.
Proof. intros H. cbn [scan]. unfold find_prefix at 1. rewrite H. reflexivity. Qed.

Lemma count_skip (p : text) :
  forall s k, count_from k p s = count_from 0 p (skipn k s).
Proof. induction s as [|a s IH]; intros [|k]; simpl; auto. Qed.

Lemma count_hit (p s : text) :
  p <> [] -> count p (p ++ s) = S (count p s).
Proof.
  intros H. destruct p as [|c p]; [contradiction|]. unfold count.
  simpl app. cbn [count_from].
  change (c :: p ++ s) with ((c :: p) ++ s). rewrite startswith_self.
  f_equal. simpl pred. rewrite count_skip.
  rewrite skipn_app, Nat.sub_diag, skipn_all. reflexivity.
Qed.

Lemma count_miss (p : text) (c : ascii) (s : text) :
  p <> [] -> startswith p (c :: s) = false -> count p (c :: s) = count p s.
Proof.
  intros Hp H. destruct p as [|d p]; [contradiction|]. unfold count.
  cbn [count_from]. rewrite H. reflexivity.
Qed.

Lemma count_nil (p : text) : p <> [] -> count p [] = 0.
Proof. destruct p; [contradiction | reflexivity]. Qed.

(** The first occurrence of [old], if there is one, and what the scan
    does with it. *)
Lemma first_occurrence (old new : text) :
  old <> [] ->
  forall s,
    (contains old s = false /\ scan (find_prefix old) new 0 s = s) \/
    (exists g rest,
        s = g ++ old ++ rest /\
        scan (find_prefix old) new 0 s
        = g ++ new ++ scan (find_prefix old) new 0 rest /\
        (forall v u, g = v ++ u -> u <> [] ->
                     startswith old (u ++ old ++ rest) = false)).
Proof.
  intros Hold. induction s as [|c s IH].
  - left. split; [apply startswith_nil; assumption | reflexivity].
  - destruct (startswith old (c :: s)) eqn:E.
    + right. apply startswith_app in E. destruct E as [rest E].
      exists [], rest. rewrite E. split; [reflexivity|].
      split; [apply scan_hit; assumption|].
      intros v u Hg Hu. destruct v, u; try discriminate. contradiction.
    + rewrite (scan_miss _ _ _ _ E).
      destruct IH as [[Hc Hs]|(g & rest & -> & Hs & Hg)].
      * left. rewrite contains_cons, E, Hc, Hs. auto.
      * right. exists (c :: g), rest. rewrite Hs.
        split; [reflexivity|]. split; [reflexivity|].
        intros v u Hvu Hu. destruct v as [|d v].
        -- simpl in Hvu. subst u. exact E.
        -- inversion Hvu; subst. eapply Hg; eauto.
Qed.

Lemma first_occurrence_length (g old rest : text) :
  old <> [] -> length rest < length (g ++ old ++ rest).
Proof.
  intros H. rewrite !length_app. destruct old; [contradiction|]. simpl. lia.
Qed.

(** Around a block that [x] does not overlap, [x] occurs where it occurs
    before the block or behind it. *)
Lemma contains_behind_block (x w : text) :
  clear_inside x w ->
  forall v1 v2 rest,
    w = v1 ++ v2 -> contains x (v2 ++ rest) = contains x rest.
Proof.
  intros Hin v1 v2. revert v1.
  induction v2 as [|c v2 IH]; intros v1 rest Hw; [reflexivity|].
  simpl app. rewrite contains_cons.
  change (c :: v2 ++ rest) with ((c :: v2) ++ rest).
  rewrite (Hin v1 (c :: v2) rest Hw) by discriminate.
  apply (IH (v1 ++ [c])). rewrite <- app_assoc. exact Hw.
Qed.

Lemma contains_around_block (x w : text) :
  x <> [] -> untouched_by x w ->
  forall g rest,
    contains x (g ++ w ++ rest) = (contains x g || contains x rest)%bool.
Proof.
  intros Hx [Hb Hin] g rest. induction g as [|c g IH].
  - simpl app. rewrite (contains_behind_block x w Hin [] w rest eq_refl).
    simpl. rewrite startswith_nil by assumption. reflexivity.
  - simpl app. rewrite !contains_cons, IH, orb_assoc. f_equal. f_equal.
    destruct (startswith x (c :: g)) eqn:E.
    + change (c :: g ++ w ++ rest) with ((c :: g) ++ w ++ rest).
      apply startswith_mono. assumption.
    + destruct (startswith x (c :: g ++ w ++ rest)) eqn:E'; [|reflexivity].
      change (c :: g ++ w ++ rest) with ((c :: g) ++ w ++ rest) in E'.
      apply Hb in E'; [congruence | discriminate].
Qed.

(** An induction on the text along the occurrences [str.replace] finds. *)
Lemma replace_induction (old new : text) (P : text -> Prop) :
  old <> [] ->
  (forall s, contains old s = false ->
             scan (find_prefix old) new 0 s = s -> P s) ->
  (forall g rest,
      scan (find_prefix old) new 0 (g ++ old ++ rest)
      = g ++ new ++ scan (find_prefix old) new 0 rest ->
      (forall v u, g = v ++ u -> u <> [] ->
                   startswith old (u ++ old ++ rest) = false) ->
      P rest -> P (g ++ old ++ rest)) ->
  forall s, P s.
Proof.
  intros Hold Hnone Hsome s.
  remember (length s) as n eqn:Hn. revert s Hn.
  induction n as [n IH] using lt_wf_ind. intros s Hn.
  destruct (first_occurrence old new Hold s)
    as [[Hc Hs]|(g & rest & -> & Hs & Hg)].
  - apply Hnone; assumption.
  - apply Hsome; try assumption.
    apply (IH (length rest)); [|reflexivity].
    subst n. apply first_occurrence_length. assumption.
Qed.

Lemma gap_has_no_occurrence (old g rest : text) :
  old <> [] ->
  (forall v u, g = v ++ u -> u <> [] ->
               startswith old (u ++ old ++ rest) = false) ->
  contains old g = false.
Proof.
  intros Hold. induction g as [|c g IH]; intros Hg.
  - apply startswith_nil. assumption.
  - rewrite contains_cons. rewrite IH.
    + rewrite orb_false_r.
      destruct (startswith old (c :: g)) eqn:E; [|reflexivity].
      rewrite <- (Hg [] (c :: g) eq_refl) by discriminate.
      symmetry. apply startswith_mono. assumption.
    + intros v u -> Hu. apply (Hg (c :: v) u); auto.
Qed.

(** Replacing [old] by a text that [x] does not overlap brings no
    occurrence of [x] into the text. *)
Lemma replace_brings_no_occurrence (x old new s : text) :
  x <> [] -> old <> [] -> untouched_by x new ->
  contains x (replace s old new) = true -> contains x s = true.
Proof.
  intros Hx Hold Hnew. destruct old as [|o old]; [contradiction|].
  unfold replace. revert s.
  apply (replace_induction (o :: old) new
           (fun s => contains x (scan (find_prefix (o :: old)) new 0 s) = true
                     -> contains x s = true) Hold).
  - intros s _ ->. auto.
  - intros g rest -> Hg IH H.
    rewrite (contains_around_block x new Hx Hnew) in H.
    apply orb_true_iff in H. destruct H as [H|H].
    + apply contains_app_l; assumption.
    + rewrite app_assoc. apply contains_app_r. auto.
Qed.

(** After [old] is replaced by a text it does not overlap, [old] occurs
    no more. *)
Lemma replace_leaves_no_occurrence (old new s : text) :
  old <> [] -> untouched_by old new ->
  contains old (replace s old new) = false.
Proof.
  intros Hold Hnew. destruct old as [|o old]; [contradiction|].
  unfold replace. revert s.
  apply (replace_induction (o :: old) new
           (fun s => contains (o :: old)
                       (scan (find_prefix (o :: old)) new 0 s) = false) Hold).
  - intros s Hc ->. exact Hc.
  - intros g rest -> Hg IH.
    rewrite (contains_around_block _ new Hold Hnew), IH, orb_false_r.
    eapply gap_has_no_occurrence; eassumption.
Qed.

(** ** Counting occurrences around [str.replace] *)

Lemma count_zero (x s : text) :
  x <> [] -> contains x s = false -> count x s = 0.
Proof.
  intros Hx. induction s as [|c s IH]; intros H.
  - apply count_nil. assumption.
  - rewrite contains_cons in H. apply orb_false_iff in H.
    destruct H as [H1 H2]. rewrite count_miss by assumption. auto.
Qed.

Lemma count_behind_block (x w : text) :
  x <> [] -> clear_inside x w ->
  forall v1 v2 rest, w = v1 ++ v2 -> count x (v2 ++ rest) = count x rest.
Proof.
  intros Hx Hin v1 v2. revert v1.
  induction v2 as [|c v2 IH]; intros v1 rest Hw; [reflexivity|].
  simpl app. rewrite count_miss; [|assumption|].
  - apply (IH (v1 ++ [c])). rewrite <- app_assoc. exact Hw.
  - change (c :: v2 ++ rest) with ((c :: v2) ++ rest).
    apply (Hin v1 (c :: v2) rest Hw). discriminate.
Qed.

(** Around a block that [x] does not overlap, the occurrences of [x] are
    those before the block and those behind it. *)
Lemma count_around_block (x w : text) :
  x <> [] -> untouched_by x w ->
  forall g rest, count x (g ++ w ++ rest) = count x g + count x rest.
Proof.
  intros Hx [Hb Hin] g rest.
  remember (length g) as n eqn:Hn. revert g Hn.
  induction n as [n IH] using lt_wf_ind. intros g Hn.
  destruct g as [|c g].
  - simpl app. rewrite (count_behind_block x w Hx Hin [] w rest eq_refl).
    rewrite count_nil by assumption. reflexivity.
  - destruct (startswith x (c :: g)) eqn:E.
    + apply startswith_app in E. destruct E as [g' E]. rewrite E.
      rewrite <- app_assoc, !count_hit by assumption.
      rewrite (IH (length g')); [reflexivity | | reflexivity].
      subst n. rewrite E, length_app. destruct x; [contradiction|].
      simpl. lia.
    + simpl app. rewrite !count_miss; try assumption.
      * apply (IH (length g)); [subst n; simpl; lia | reflexivity].
      * destruct (startswith x (c :: g ++ w ++ rest)) eqn:E'; [|reflexivity].
        change (c :: g ++ w ++ rest) with ((c :: g) ++ w ++ rest) in E'.
        apply Hb in E'; [congruence | discriminate].
Qed.

(** Replacing [old] by [new] keeps the number of occurrences of a text
    that overlaps neither. *)
Lemma count_preserved (x old new s : text) :
  x <> [] -> old <> [] -> untouched_by x old -> untouched_by x new ->
  count x (replace s old new) = count x s.
Proof.
  intros Hx Hold Uold Unew. destruct old as [|o old]; [contradiction|].
  unfold replace. revert s.
  apply (replace_induction (o :: old) new
           (fun s => count x (scan (find_prefix (o :: old)) new 0 s)
                     = count x s) Hold).
  - intros s _ ->. reflexivity.
  - intros g rest -> Hg IH.
    rewrite !count_around_block by assumption. rewrite IH. reflexivity.
Qed.

Lemma count_at_first (x g rest : text) :
  x <> [] ->
  (forall v u, g = v ++ u -> u <> [] ->
               startswith x (u ++ x ++ rest) = false) ->
  count x (g ++ x ++ rest) = S (count x rest).
Proof.
  intros Hx. induction g as [|c g IH]; intros Hg.
  - exact (count_hit x rest Hx).
  - simpl app. rewrite count_miss; [|assumption|].
    + apply IH. intros v u -> Hu. apply (Hg (c :: v) u); auto.
    + apply (Hg [] (c :: g) eq_refl). discriminate.
Qed.

(** In a text without [new], the occurrences of [new] after [old] is
    replaced by it are as many as the occurrences of [old] were. *)
Lemma count_replaced (old new s : text) :
  old <> [] -> new <> [] -> clear_before new new ->
  contains new s = false ->
  count new (replace s old new) = count old s.
Proof.
  intros Hold Hnew Hself. destruct old as [|o old]; [contradiction|].
  unfold replace. revert s.
  apply (replace_induction (o :: old) new
           (fun s => contains new s = false ->
                     count new (scan (find_prefix (o :: old)) new 0 s)
                     = count (o :: old) s) Hold).
  - intros s Hc -> Hn. rewrite !count_zero; auto.
  - intros g rest -> Hg IH Hn.
    assert (Hg' : contains new g = false).
    { destruct (contains new g) eqn:E; [|reflexivity].
      rewrite (contains_app_l new g _ Hnew E) in Hn. discriminate. }
    assert (Hr : contains new rest = false).
    { destruct (contains new rest) eqn:E; [|reflexivity].
      rewrite app_assoc, (contains_app_r new _ rest E) in Hn. discriminate. }
    rewrite !count_at_first; auto.
    intros v u -> Hu.
    match goal with |- ?b = false => destruct b eqn:E; [|reflexivity] end.
    apply Hself in E; [|assumption].
    rewrite (contains_suffix new v u E) in Hg'. discriminate.
Qed.

(** ** Texts that do not overlap *)

Lemma shares_no_char_tail (c : ascii) (x w : text) :
  shares_no_char (c :: x) w = true ->
  existsb (Ascii.eqb c) w = false /\ shares_no_char x w = true.
Proof.
  unfold shares_no_char. simpl. intros H. apply andb_true_iff in H.
  destruct H as [H1 H2]. apply negb_true_iff in H1. auto.
Qed.

Lemma disjoint_clear_before (w : text) :
  w <> [] ->
  forall x u rest,
    shares_no_char x w = true ->
    startswith x (u ++ w ++ rest) = true -> startswith x u = true.
Proof.
  intros Hw x u. revert x.
  induction u as [|a u IH]; intros [|c x] rest Hx H; auto.
  - destruct w as [|d w]; [contradiction|].
    apply shares_no_char_tail in Hx. destruct Hx as [Hc _].
    simpl in Hc, H. apply orb_false_iff in Hc. destruct Hc as [Hc _].
    rewrite Hc in H. discriminate.
  - apply shares_no_char_tail in Hx. destruct Hx as [_ Hx].
    simpl in *. apply andb_true_iff in H. destruct H as [H1 H2].
    rewrite H1. simpl. eapply IH; eassumption.
Qed.

(** A text that shares no character with a block does not overlap it. *)
Lemma disjoint_untouched (x w : text) :
  x <> [] -> w <> [] -> shares_no_char x w = true -> untouched_by x w.
Proof.
  intros Hx Hw H. split.
  - intros u rest _. apply disjoint_clear_before; assumption.
  - intros v1 v2 rest E Hv2.
    destruct x as [|c x]; [contradiction|].
    destruct v2 as [|d v2]; [contradiction|].
    apply shares_no_char_tail in H. destruct H as [Hc _].
    rewrite E, existsb_app in Hc. apply orb_false_iff in Hc.
    destruct Hc as [_ Hc]. simpl in Hc. apply orb_false_iff in Hc.
    destruct Hc as [Hc _]. simpl. rewrite Hc. reflexivity.
Qed.

Lemma shares_no_char_app (x a b : text) :
  shares_no_char x (a ++ b) = true ->
  shares_no_char x a = true /\ shares_no_char x b = true.
Proof.
  unfold shares_no_char. induction x as [|c x IH]; simpl; [auto|].
  intros H. apply andb_true_iff in H. destruct H as [H1 H2].
  destruct (IH H2) as [Ia Ib]. rewrite Ia, Ib.
  rewrite existsb_app in H1. apply negb_true_iff in H1.
  apply orb_false_iff in H1. destruct H1 as [-> ->]. auto.
Qed.

Lemma shares_no_char_sym (x w : text) :
  shares_no_char x w = true -> shares_no_char w x = true.
Proof.
  unfold shares_no_char. rewrite !forallb_forall. intros H d Hd.
  apply negb_true_iff. destruct (existsb (Ascii.eqb d) x) eqn:E; [|reflexivity].
  apply existsb_exists in E. destruct E as (c & Hc & Hcd).
  apply Ascii.eqb_eq in Hcd. subst c.
  specialize (H d Hc). apply negb_true_iff in H.
  assert (E : existsb (Ascii.eqb d) w = true).
  { apply existsb_exists. exists d. split; [assumption | apply Ascii.eqb_refl]. }
  congruence.
Qed.

(** The two placeholder tokens, against each other and themselves: by
    cases on the characters before the block, and on the place inside
    it. *)
Ltac clear_before_by_cases :=
  intros u rest Hu;
  repeat (destruct u as [|? u];
          [ first [ contradiction
                  | simpl; intros H;
                    repeat (apply andb_true_iff in H; destruct H as [? H]);
                    discriminate ]
          | ]);
  simpl; intros H; exact H.

Ltac clear_inside_by_cases :=
  intros v1 v2 rest Hw Hv2; simpl in Hw;
  repeat (destruct v1 as [|? v1];
          [ simpl in Hw; subst v2; first [contradiction | reflexivity]
          | simpl in Hw; first [discriminate Hw | injection Hw as <- Hw] ]).

Lemma cert_token_clear_of_itself :
  clear_before (str "CERT_ARN") (str "CERT_ARN").
Proof. clear_before_by_cases. Qed.

Lemma account_token_clear_of_itself :
  clear_before (str "ACCOUNT_ID") (str "ACCOUNT_ID").
Proof. clear_before_by_cases. Qed.

Lemma cert_token_untouched_by_account_token :
  untouched_by (str "CERT_ARN") (str "ACCOUNT_ID").
Proof. split; [clear_before_by_cases | clear_inside_by_cases]. Qed.

Lemma account_token_untouched_by_cert_token :
  untouched_by (str "ACCOUNT_ID") (str "CERT_ARN").
Proof. split; [clear_before_by_cases | clear_inside_by_cases]. Qed.

(* ------------------------------------------------------------------ *)
Lemma lookup_setitem_other (V : Type) (k k' : string) (v : V) (d : dict V) :
  k <> k' -> lookup k (setitem k' v d) = lookup k d.
Proof.
  intros Hk. induction d as [|[k0 v0] d IH]; simpl.
  - destruct (String.eqb k k') eqn:E; [|reflexivity].
    apply String.eqb_eq in E. contradiction.
  - destruct (String.eqb k' k0) eqn:E'; simpl.
    + destruct (String.eqb k k0) eqn:E; [|reflexivity].
      apply String.eqb_eq in E, E'. subst. contradiction.
    + rewrite IH. reflexivity.
Qed.

(** ** Decimal digits and the numbers they write *)

Lemma forallb_repeat (p : ascii -> bool) (a : ascii) (n : nat) :
  p a = true -> forallb p (repeat a n) = true.
Proof. intros H. induction n; simpl; [reflexivity | rewrite H; assumption]. Qed.

Lemma is_digit_cases (c : ascii) :
  is_digit c = true ->
  (c = "0" \/ c = "1" \/ c = "2" \/ c = "3" \/ c = "4" \/ c = "5" \/
   c = "6" \/ c = "7" \/ c = "8" \/ c = "9")%char.
Proof.
  destruct c as [[] [] [] [] [] [] [] []]; intros H;
    first [ discriminate H
          | repeat (first [left; reflexivity | right]); reflexivity ].
Qed.

Ltac digit_cases H :=
  apply is_digit_cases in H;
  destruct H as [H|[H|[H|[H|[H|[H|[H|[H|[H|H]]]]]]]]]; subst.

Ltac digit_values :=
  repeat match goal with
    | |- context [digit_value ?c] =>
        let v := eval vm_compute in (digit_value c) in
        change (digit_value c) with v
    end.

Lemma forallb_cons_digit (c : ascii) (s : text) :
  forallb is_digit (c :: s) = true ->
  is_digit c = true /\ forallb is_digit s = true.
Proof. simpl. intros H. apply andb_true_iff in H. exact H. Qed.

Lemma str_uint_of (s : text) :
  forallb is_digit s = true ->
  str (DecimalString.NilEmpty.string_of_uint (uint_of s)) = s.
Proof.
  induction s as [|c s IH]; intros H; [reflexivity|].
  apply forallb_cons_digit in H. destruct H as [Hc Hs].
  specialize (IH Hs). digit_cases Hc; simpl; rewrite IH; reflexivity.
Qed.

Lemma of_uint_acc_horner (s : text) :
  forallb is_digit s = true ->
  forall acc,
    N.pos (Pos.of_uint_acc (uint_of s) acc)
    = fold_left (fun a c => (10 * a + digit_value c)%N) s (N.pos acc).
Proof.
  induction s as [|c s IH]; intros H acc; [reflexivity|].
  apply forallb_cons_digit in H. destruct H as [Hc Hs].
  specialize (IH Hs).
  digit_cases Hc; cbn [uint_of fold_left]; unfold digit_cons;
    digit_values; cbv iota; cbn [Pos.of_uint_acc]; rewrite IH;
    f_equal; lia.
Qed.

Lemma of_uint_int_of (s : text) :
  forallb is_digit s = true -> N.of_uint (uint_of s) = int_of s.
Proof.
  unfold int_of. induction s as [|c s IH]; intros H; [reflexivity|].
  apply forallb_cons_digit in H. destruct H as [Hc Hs].
  specialize (IH Hs).
  digit_cases Hc; cbn [uint_of fold_left]; unfold digit_cons;
    digit_values; cbv iota;
    first [ exact IH
          | cbn [N.of_uint Pos.of_uint];
            apply (of_uint_acc_horner s Hs) ].
Qed.

Lemma decimal_int_of (s : text) :
  forallb is_digit s = true ->
  decimal (int_of s)
  = str (DecimalString.NilEmpty.string_of_uint
           (Decimal.unorm (uint_of s))).
Proof.
  intros H. unfold decimal. rewrite <- (of_uint_int_of s H).
  rewrite DecimalN.Unsigned.to_of. reflexivity.
Qed.

Lemma unorm_digits (s : text) :
  forallb is_digit s = true -> s <> [] ->
  let x := str (DecimalString.NilEmpty.string_of_uint
                  (Decimal.unorm (uint_of s))) in
  repeat "0"%char (length s - length x) ++ x = s.
Proof.
  induction s as [|c s IH]; intros H Hne; [contradiction|].
  apply forallb_cons_digit in H. destruct H as [Hc Hs].
  assert (F : str (DecimalString.NilEmpty.string_of_uint
                     (uint_of (c :: s))) = c :: s)
    by (apply str_uint_of; simpl; rewrite Hc, Hs; reflexivity).
  assert (Z : c = "0"%char \/
              Decimal.unorm (uint_of (c :: s)) = uint_of (c :: s)).
  { digit_cases Hc; first [left; reflexivity | right; reflexivity]. }
  destruct Z as [->|Z].
  - change (uint_of ("0"%char :: s)) with (Decimal.D0 (uint_of s)).
    rewrite DecimalFacts.unorm_D0.
    destruct s as [|d s]; [reflexivity|].
    specialize (IH Hs ltac:(discriminate)). cbv zeta in *.
    set (x := str (DecimalString.NilEmpty.string_of_uint
                     (Decimal.unorm (uint_of (d :: s))))) in *.
    assert (L : length x <= length (d :: s)).
    { apply (f_equal (@length ascii)) in IH.
      rewrite length_app, repeat_length in IH. lia. }
    change (length ("0"%char :: d :: s)) with (S (length (d :: s))).
    replace (S (length (d :: s)) - length x)
      with (S (length (d :: s) - length x)) by lia.
    apply (f_equal (cons "0"%char)) in IH. exact IH.
  - cbv zeta. rewrite Z, F. rewrite Nat.sub_diag. reflexivity.
Qed.

(** A number written with its digits reads back as those digits. *)
Lemma zero_padded_int_of (s : text) :
  forallb is_digit s = true -> s <> [] ->
  zero_padded (length s) (int_of s) = s.
Proof.
  intros H Hne. unfold zero_padded. rewrite (decimal_int_of s H).
  apply (unorm_digits s H Hne).
Qed.

Lemma int_of_leading_zeros (k : nat) (s : text) :
  int_of (repeat "0"%char k ++ s) = int_of s.
Proof.
  unfold int_of. induction k as [|k IH]; [reflexivity|].
  simpl. exact IH.
Qed.

Lemma forallb_digit_zeros (k : nat) : forallb is_digit (repeat "0"%char k) = true.
Proof. apply forallb_repeat. reflexivity. Qed.

(** A shorter number is padded with zeros on the left. *)
Lemma zero_padded_short (w : nat) (s : text) :
  forallb is_digit s = true -> s <> [] -> length s <= w ->
  zero_padded w (int_of s) = repeat "0"%char (w - length s) ++ s.
Proof.
  intros H Hne L.
  rewrite <- (int_of_leading_zeros (w - length s) s).
  replace w with (length (repeat "0"%char (w - length s) ++ s)) at 1
    by (rewrite length_app, repeat_length; lia).
  apply zero_padded_int_of.
  - rewrite forallb_app, forallb_digit_zeros, H. reflexivity.
  - destruct s; [contradiction|]. intros E.
    apply (f_equal (@length ascii)) in E.
    rewrite length_app in E. simpl in E. lia.
Qed.

Lemma horner_zero (s : text) :
  forallb is_digit s = true ->
  forall acc,
    fold_left (fun a c => (10 * a + digit_value c)%N) s acc = 0%N <->
    acc = 0%N /\ forallb (is_char "0") s = true.
Proof.
  induction s as [|c s IH]; intros H acc.
  - simpl. tauto.
  - apply forallb_cons_digit in H. destruct H as [Hc Hs].
    cbn [fold_left forallb]. rewrite (IH Hs).
    digit_cases Hc; digit_values;
      (split; [intros [A B] | intros [A B]]);
      first [ split; [lia | first [exact B | discriminate B | lia]]
            | discriminate B
            | lia
            | idtac ].
    all: try (simpl in B; split; [lia | exact B]).
    all: try (simpl in B; discriminate B).
Qed.

Lemma int_of_zero (s : text) :
  forallb is_digit s = true ->
  (int_of s =? 0)%N = forallb (is_char "0") s.
Proof.
  intros H. pose proof (horner_zero s H 0%N) as Z. fold (int_of s) in Z.
  destruct (forallb (is_char "0") s).
  - apply N.eqb_eq. apply Z. auto.
  - apply N.eqb_neq. intros E. apply Z in E. destruct E. discriminate.
Qed.

Lemma digit_value_le (c : ascii) : is_digit c = true -> (digit_value c <= 9)%N.
Proof. intros H. digit_cases H; digit_values; lia. Qed.

Lemma horner_bound (s : text) :
  forallb is_digit s = true ->
  forall acc,
    (fold_left (fun a c => (10 * a + digit_value c)%N) s acc
     < (acc + 1) * 10 ^ N.of_nat (length s))%N.
Proof.
  induction s as [|c s IH]; intros H acc.
  - simpl. lia.
  - apply forallb_cons_digit in H. destruct H as [Hc Hs].
    cbn [fold_left length]. rewrite Nat2N.inj_succ, N.pow_succ_r'.
    specialize (IH Hs (10 * acc + digit_value c)%N).
    pose proof (digit_value_le c Hc) as B.
    eapply N.lt_le_trans; [exact IH|]. nia.
Qed.

(** A number of [n] digits is below the [n]-th power of ten. *)
Lemma int_of_bound (s : text) :
  forallb is_digit s = true -> (int_of s < 10 ^ N.of_nat (length s))%N.
Proof.
  intros H. pose proof (horner_bound s H 0%N) as B.
  fold (int_of s) in B. lia.
Qed.

(** ** [strptime] on a token in the source format *)

Lemma digits_nonempty (lo hi : nat) (s : text) :
  digits (S lo) hi s -> s <> [].
Proof. intros [_ [L _]]. destruct s; [simpl in L; lia | discriminate]. Qed.

Lemma isoformat_datetime_of (p : time_parts) :
  digits 4 4 (p_year p) -> digits 1 2 (p_month p) -> digits 1 2 (p_day p) ->
  digits 1 2 (p_hour p) -> digits 1 2 (p_minute p) ->
  digits 1 2 (p_second p) -> digits 1 6 (p_fraction p) ->
  isoformat (datetime_of p) ++ str "Z" = iso_8601 p.
Proof.
  intros HY Hm Hd HH HM HS Hf.
  unfold isoformat, datetime_of, iso_8601, two_digits.
  cbn [year month day hour minute second microsecond].
  rewrite (zero_padded_short 4 (p_year p))
    by (first [apply HY | eapply digits_nonempty; apply HY]).
  replace (4 - length (p_year p)) with 0 by (destruct HY as [_ L]; lia).
  rewrite (zero_padded_short 2 (p_month p))
    by (first [apply Hm | eapply digits_nonempty; apply Hm]).
  rewrite (zero_padded_short 2 (p_day p))
    by (first [apply Hd | eapply digits_nonempty; apply Hd]).
  rewrite (zero_padded_short 2 (p_hour p))
    by (first [apply HH | eapply digits_nonempty; apply HH]).
  rewrite (zero_padded_short 2 (p_minute p))
    by (first [apply HM | eapply digits_nonempty; apply HM]).
  rewrite (zero_padded_short 2 (p_second p))
    by (first [apply HS | eapply digits_nonempty; apply HS]).
  destruct Hf as [Df Lf].
  set (f6 := p_fraction p ++ repeat "0"%char (6 - length (p_fraction p))).
  assert (D6 : forallb is_digit f6 = true)
    by (unfold f6; rewrite forallb_app, Df, forallb_digit_zeros;
        reflexivity).
  assert (L6 : length f6 = 6)
    by (unfold f6; rewrite length_app, repeat_length; lia).
  rewrite (int_of_zero f6 D6).
  assert (Z : forallb (is_char "0") f6
              = forallb (is_char "0") (p_fraction p)).
  { unfold f6. rewrite forallb_app.
    rewrite (forallb_repeat (is_char "0") "0"%char) by reflexivity.
    apply andb_true_r. }
  rewrite Z.
  replace (zero_padded 6 (int_of f6)) with f6.
  - simpl repeat at 1. cbn [app]. repeat rewrite <- app_assoc. reflexivity.
  - rewrite <- L6 at 1. symmetry. apply zero_padded_int_of; [exact D6|].
    intros E. rewrite E in L6. discriminate.
Qed.

Lemma firstn_consumed (x r : text) :
  firstn (length (x ++ r) - length r) (x ++ r) = x.
Proof.
  rewrite length_app, Nat.add_sub, firstn_app, Nat.sub_diag, firstn_all.
  simpl. apply app_nil_r.
Qed.

Lemma step_lit (A : Type) (a : ascii) (R : list regex) (rest : text)
      (c : captures) (k : text -> captures -> option A) :
  rmatch (seqs (Lit a :: R)) (a :: rest) c k = rmatch (seqs R) rest c k.
Proof.
  change (rmatch (seqs (Lit a :: R)) (a :: rest) c k)
    with (if is_char a a then rmatch (seqs R) rest c k else None).
  unfold is_char. rewrite Ascii.eqb_refl. reflexivity.
Qed.

Lemma step_letter (A : Type) (U L a : ascii) (R : list regex) (rest : text)
      (c : captures) (k : text -> captures -> option A) :
  a = U \/ a = L ->
  rmatch (seqs (Letter U L :: R)) (a :: rest) c k
  = rmatch (seqs R) rest c k.
Proof.
  intros H.
  change (rmatch (seqs (Letter U L :: R)) (a :: rest) c k)
    with (if (is_char U a || is_char L a)%bool
          then rmatch (seqs R) rest c k else None).
  unfold is_char.
  destruct H as [->| ->]; rewrite Ascii.eqb_refl, ?orb_true_r; reflexivity.
Qed.

Lemma step_year (A : Type) (Y : text) (R : list regex) (rest : text)
      (c : captures) (k : text -> captures -> option A) :
  digits 4 4 Y ->
  rmatch (seqs (Grp "Y" (seqs [digit; digit; digit; digit]) :: R))
         (Y ++ rest) c k
  = rmatch (seqs R) rest (("Y", Y) :: c) k.
Proof.
  intros [D L].
  destruct Y as [|y1 [|y2 [|y3 [|y4 [|y5 Y]]]]]; simpl in L; try lia.
  simpl in D.
  apply andb_true_iff in D; destruct D as [D1 D].
  apply andb_true_iff in D; destruct D as [D2 D].
  apply andb_true_iff in D; destruct D as [D3 D].
  apply andb_true_iff in D; destruct D as [D4 _].
  change (seqs (Grp "Y" (seqs [digit; digit; digit; digit]) :: R))
    with (Seq (Grp "Y" (seqs [digit; digit; digit; digit])) (seqs R)).
  generalize (seqs R). intros Q.
  pose proof (firstn_consumed [y1; y2; y3; y4] rest) as F.
  cbn [rmatch seqs fold_right app digit] in *.
  rewrite D1, D2, D3, D4. rewrite F. reflexivity.
Qed.

Lemma bounds_bool (lo hi n : N) :
  (lo <= n <= hi)%N -> ((lo <=? n) && (n <=? hi))%N%bool = true.
Proof.
  intros [A B]. apply andb_true_iff. split; apply N.leb_le; assumption.
Qed.

Lemma short_digits (x : text) :
  digits 1 2 x ->
  (exists a, x = [a] /\ is_digit a = true) \/
  (exists a b, x = [a; b] /\ is_digit a = true /\ is_digit b = true).
Proof.
  intros [D L]. destruct x as [|a [|b [|e x]]]; simpl in L; try lia.
  - left. exists a. simpl in D. rewrite andb_true_r in D. auto.
  - right. exists a, b. simpl in D. rewrite andb_true_r in D.
    apply andb_true_iff in D. destruct D. auto.
Qed.

(** The field [x] of one or two digits, told apart digit by digit; the
    values outside the bound [B] are discarded. *)
Ltac field_cases Dx B :=
  let a := fresh "a" in
  let b := fresh "b" in
  let Ha := fresh "Ha" in
  let Hb := fresh "Hb" in
  destruct (short_digits _ Dx) as [(a & -> & Ha)|(a & b & -> & Ha & Hb)];
  clear Dx;
  [ digit_cases Ha | digit_cases Ha; digit_cases Hb ];
  vm_compute in B; try discriminate B; clear B.

Lemma option_match_id (A : Type) (o : option A) :
  match o with Some x => Some x | None => None end = o.
Proof. destruct o; reflexivity. Qed.

(** One field of the pattern, run on its digits. *)
Ltac run_field :=
  match goal with
  | |- context [rmatch _ (?x ++ ?r) _ _] =>
      let F := fresh "F" in
      pose proof (firstn_consumed x r) as F;
      cbn [app] in F |- *; cbn -[length Nat.sub firstn]; rewrite ?F;
      first [reflexivity | apply option_match_id]
  end.

Lemma step_month (A : Type) (x : text) (R : list regex) (rest : text)
      (c : captures) (k : text -> captures -> option A) :
  digits 1 2 x -> (1 <= int_of x <= 12)%N ->
  rmatch (seqs (Grp "m" (Alt (Seq (Lit "1") (d_ "0" "2"))
                        (Alt (Seq (Lit "0") (d_ "1" "9"))
                             (d_ "1" "9")))
                :: Lit "-" :: R))
         (x ++ "-"%char :: rest) c k
  = rmatch (seqs R) rest (("m", x) :: c) k.
Proof.
  intros D B. apply bounds_bool in B.
  match goal with |- context [seqs (?G :: ?S :: R)] =>
    change (seqs (G :: S :: R)) with (Seq G (Seq S (seqs R))) end.
  generalize (seqs R). intros Q.
  field_cases D B; run_field.
Qed.


Lemma step_day (A : Type) (x : text) (T : ascii) (R : list regex)
      (rest : text) (c : captures) (k : text -> captures -> option A) :
  digits 1 2 x -> (1 <= int_of x <= 31)%N -> (T = "T" \/ T = "t")%char ->
  rmatch (seqs (Grp "d" (Alt (Seq (Lit "3") (d_ "0" "1"))
                        (Alt (Seq (d_ "1" "2") digit)
                        (Alt (Seq (Lit "0") (d_ "1" "9"))
                        (Alt (d_ "1" "9")
                             (Seq (Lit " ") (d_ "1" "9"))))))
                :: Letter "T" "t" :: R))
         (x ++ T :: rest) c k
  = rmatch (seqs R) rest (("d", x) :: c) k.
Proof.
  intros D B HT. apply bounds_bool in B.
  match goal with |- context [seqs (?G :: ?S :: R)] =>
    change (seqs (G :: S :: R)) with (Seq G (Seq S (seqs R))) end.
  generalize (seqs R). intros Q.
  destruct HT as [-> | ->]; field_cases D B; run_field.
Qed.

Lemma step_hour (A : Type) (x : text) (R : list regex) (rest : text)
      (c : captures) (k : text -> captures -> option A) :
  digits 1 2 x -> (int_of x <= 23)%N ->
  rmatch (seqs (Grp "H" (Alt (Seq (Lit "2") (d_ "0" "3"))
                        (Alt (Seq (d_ "0" "1") digit)
                             digit))
                :: Lit ":" :: R))
         (x ++ ":"%char :: rest) c k
  = rmatch (seqs R) rest (("H", x) :: c) k.
Proof.
  intros D B. apply N.leb_le in B.
  match goal with |- context [seqs (?G :: ?S :: R)] =>
    change (seqs (G :: S :: R)) with (Seq G (Seq S (seqs R))) end.
  generalize (seqs R). intros Q.
  field_cases D B; run_field.
Qed.

Lemma step_minute (A : Type) (x : text) (R : list regex) (rest : text)
      (c : captures) (k : text -> captures -> option A) :
  digits 1 2 x -> (int_of x <= 59)%N ->
  rmatch (seqs (Grp "M" (Alt (Seq (d_ "0" "5") digit) digit)
                :: Lit ":" :: R))
         (x ++ ":"%char :: rest) c k
  = rmatch (seqs R) rest (("M", x) :: c) k.
Proof.
  intros D B. apply N.leb_le in B.
  match goal with |- context [seqs (?G :: ?S :: R)] =>
    change (seqs (G :: S :: R)) with (Seq G (Seq S (seqs R))) end.
  generalize (seqs R). intros Q.
  field_cases D B; run_field.
Qed.

Lemma step_second (A : Type) (x : text) (R : list regex) (rest : text)
      (c : captures) (k : text -> captures -> option A) :
  digits 1 2 x -> (int_of x <= 59)%N ->
  rmatch (seqs (Grp "S" (Alt (Seq (Lit "6") (d_ "0" "1"))
                        (Alt (Seq (d_ "0" "5") digit)
                             digit))
                :: Lit "." :: R))
         (x ++ "."%char :: rest) c k
  = rmatch (seqs R) rest (("S", x) :: c) k.
Proof.
  intros D B. apply N.leb_le in B.
  match goal with |- context [seqs (?G :: ?S :: R)] =>
    change (seqs (G :: S :: R)) with (Seq G (Seq S (seqs R))) end.
  generalize (seqs R). intros Q.
  field_cases D B; run_field.
Qed.

(** A greedy repetition takes every character of its class when the
    rest cannot go on from a character of the class. *)
Lemma rep_greedy (A : Type) (p : ascii -> bool) (k : text -> option A)
      (rest : text) :
  match rest with [] => True | z :: _ => p z = false end ->
  (forall y ys, p y = true -> k (y :: ys) = None) ->
  forall x lo hi,
    forallb p x = true -> lo <= length x ->
    (forall h, hi = Some h -> length x <= h) ->
    rep p lo hi (x ++ rest) k = k rest.
Proof.
  intros Hrest Hk. induction x as [|a x IH]; intros lo hi Hp Hlo Hhi.
  - simpl in Hlo. replace lo with 0 by lia. cbn [app].
    destruct rest as [|z rest]; [reflexivity|]. cbn [rep].
    rewrite Hrest. reflexivity.
  - simpl in Hp. apply andb_true_iff in Hp. destruct Hp as [Ha Hx].
    simpl app. cbn [rep]. rewrite Ha.
    assert (Hm : may_repeat hi = true).
    { destruct hi as [[|h]|]; try reflexivity.
      specialize (Hhi 0 eq_refl). simpl in Hhi. lia. }
    rewrite Hm. cbn [andb].
    rewrite IH.
    + destruct (k rest) eqn:E; [reflexivity|].
      destruct lo; [apply Hk; exact Ha | reflexivity].
    + exact Hx.
    + simpl in Hlo. lia.
    + intros h Hh. destruct hi as [h'|]; [|discriminate].
      simpl in Hh. inversion Hh; subst. specialize (Hhi h' eq_refl).
      simpl in Hhi. lia.
Qed.

Lemma digit_is_no_marker (y : ascii) :
  in_range 48 57 y = true -> (is_char "Z" y || is_char "z" y)%bool = false.
Proof.
  intros H. change (is_digit y = true) in H. digit_cases H; reflexivity.
Qed.

Lemma step_fraction (A : Type) (x : text) (Z : ascii) (c : captures)
      (k : text -> captures -> option A) :
  digits 1 6 x -> (Z = "Z" \/ Z = "z")%char ->
  rmatch (seqs [Grp "f" (Rep (in_range 48 57) 1 (Some 6)); Letter "Z" "z"])
         (x ++ [Z]) c k
  = k [] (("f", x) :: c).
Proof.
  intros [D L] HZ.
  change (rmatch (seqs [Grp "f" (Rep (in_range 48 57) 1 (Some 6));
                        Letter "Z" "z"]) (x ++ [Z]) c k)
    with (rep (in_range 48 57) 1 (Some 6) (x ++ [Z])
            (fun s' =>
               rmatch (Seq (Letter "Z" "z") Eps) s'
                 (("f", firstn (length (x ++ [Z]) - length s') (x ++ [Z]))
                  :: c) k)).
  rewrite rep_greedy.
  - rewrite firstn_consumed. cbn [rmatch Letter].
    destruct HZ as [-> | ->]; reflexivity.
  - destruct HZ as [-> | ->]; reflexivity.
  - intros y ys Hy. cbn [rmatch Letter].
    rewrite (digit_is_no_marker y Hy). reflexivity.
  - exact D.
  - lia.
  - intros h Hh. inversion Hh; subst. lia.
Qed.

Lemma days_in_month_le (y m : N) : (days_in_month y m <= 31)%N.
Proof.
  unfold days_in_month.
  destruct (m =? 2)%N; [destruct (is_leap y); lia|].
  destruct ((m =? 4) || (m =? 6) || (m =? 9) || (m =? 11))%N%bool; lia.
Qed.

(** [strptime] accepts every token in the source format, with the value
    of each part. *)
Lemma strptime_in_source_format (s : text) (p : time_parts) :
  in_source_format s p -> strptime s = Some (datetime_of p).
Proof.
  intros ((T & Z & HT & HZ & ->) & DY & Dm & Dd & DH & DM & DS & Df
          & BY & Bm & Bd & BH & BM & BS).
  unfold strptime, re_match, strptime_regex.
  rewrite (step_year _ _ _ _ _ _ DY), step_lit.
  rewrite (step_month _ _ _ _ _ _ Dm Bm).
  rewrite (step_day _ _ T _ _ _ _ Dd).
  2: { split; [apply Bd|]. eapply N.le_trans; [apply Bd|].
       apply days_in_month_le. }
  2: exact HT.
  rewrite (step_hour _ _ _ _ _ _ DH BH).
  rewrite (step_minute _ _ _ _ _ _ DM BM).
  rewrite (step_second _ _ _ _ _ _ DS BS).
  rewrite (step_fraction _ _ Z _ _ Df HZ).
  cbn [m_rest m_caps]. unfold group_int. cbn [capture String.eqb Ascii.eqb Bool.eqb].
  fold (datetime_of p).
  replace (valid_datetime (datetime_of p)) with true; [reflexivity|].
  symmetry. unfold valid_datetime, datetime_of.
  cbn [year month day hour minute second microsecond].
  repeat (apply andb_true_iff; split); apply N.leb_le;
    try first [exact BY | apply Bm | apply Bd | exact BH | exact BM
              | exact BS].
  - pose proof (int_of_bound _ (proj1 DY)) as B.
    replace (length (p_year p)) with 4 in B by (destruct DY as [_ L]; lia).
    change (10 ^ N.of_nat 4)%N with 10000%N in B. lia.
  - destruct Df as [Df Lf].
    match goal with |- (int_of ?f6 <= _)%N =>
      assert (D6 : forallb is_digit f6 = true)
        by (rewrite forallb_app, Df, forallb_digit_zeros; reflexivity);
      pose proof (int_of_bound f6 D6) as B;
      replace (length f6) with 6 in B
        by (rewrite length_app, repeat_length; lia)
    end.
    change (10 ^ N.of_nat 6)%N with 1000000%N in B. lia.
Qed.


(** ** What [strptime] accepts is in the source format *)

Lemma in_range_digit (lo hi : N) (c : ascii) :
  in_range lo hi c = true ->
  (48 <=? lo)%N = true -> (hi <=? 57)%N = true -> is_digit c = true.
Proof.
  unfold is_digit, in_range. intros H Hlo Hhi.
  apply andb_true_iff in H. destruct H as [H1 H2].
  apply N.leb_le in H1, H2, Hlo, Hhi.
  apply andb_true_iff. split; apply N.leb_le; lia.
Qed.

(** The characters of a matched field are digits. *)
Ltac field_digits :=
  unfold d_, digit, Letter in *; inv_matches;
  repeat match goal with
    | H : is_char _ _ = true |- _ => apply Ascii.eqb_eq in H; subst
    | H : in_range ?lo ?hi ?c = true |- _ =>
        apply (in_range_digit lo hi c) in H; [| reflexivity | reflexivity]
    end;
  try discriminate;
  (split; [reflexivity |]); unfold digits;
  (split; [cbn [app forallb];
           repeat match goal with
             | H : is_digit _ = true |- _ => rewrite H; clear H
             end;
           reflexivity
          | simpl; lia]).

Lemma inv_year (s : text) (c c' : captures) :
  Matches (Grp "Y" (seqs [digit; digit; digit; digit])) s c c' ->
  c' = ("Y", s) :: c /\ digits 4 4 s.
Proof. intros M. cbn [seqs fold_right] in M. field_digits. Qed.

Lemma inv_month (s : text) (c c' : captures) :
  Matches (Grp "m" (Alt (Seq (Lit "1") (d_ "0" "2"))
                   (Alt (Seq (Lit "0") (d_ "1" "9"))
                        (d_ "1" "9")))) s c c' ->
  c' = ("m", s) :: c /\ digits 1 2 s.
Proof. intros M. field_digits. Qed.

Lemma inv_day (s : text) (c c' : captures) :
  Matches (Grp "d" (Alt (Seq (Lit "3") (d_ "0" "1"))
                   (Alt (Seq (d_ "1" "2") digit)
                   (Alt (Seq (Lit "0") (d_ "1" "9"))
                   (Alt (d_ "1" "9")
                        (Seq (Lit " ") (d_ "1" "9"))))))) s c c' ->
  forallb non_space s = true ->
  c' = ("d", s) :: c /\ digits 1 2 s.
Proof. intros M N. revert N. field_digits. Qed.

Lemma inv_hour (s : text) (c c' : captures) :
  Matches (Grp "H" (Alt (Seq (Lit "2") (d_ "0" "3"))
                   (Alt (Seq (d_ "0" "1") digit)
                        digit))) s c c' ->
  c' = ("H", s) :: c /\ digits 1 2 s.
Proof. intros M. field_digits. Qed.

Lemma inv_minute (s : text) (c c' : captures) :
  Matches (Grp "M" (Alt (Seq (d_ "0" "5") digit) digit)) s c c' ->
  c' = ("M", s) :: c /\ digits 1 2 s.
Proof. intros M. field_digits. Qed.

Lemma inv_second (s : text) (c c' : captures) :
  Matches (Grp "S" (Alt (Seq (Lit "6") (d_ "0" "1"))
                   (Alt (Seq (d_ "0" "5") digit)
                        digit))) s c c' ->
  c' = ("S", s) :: c /\ digits 1 2 s.
Proof. intros M. field_digits. Qed.

Lemma inv_fraction (s : text) (c c' : captures) :
  Matches (Grp "f" (Rep (in_range 48 57) 1 (Some 6))) s c c' ->
  c' = ("f", s) :: c /\ digits 1 6 s.
Proof.
  intros M. inv_matches. split; [reflexivity|].
  split; [assumption|]. split; [assumption|].
  match goal with H : forall h, Some 6 = Some h -> _ |- _ =>
    apply (H 6 eq_refl) end.
Qed.

Lemma inv_lit (a : ascii) (s : text) (c c' : captures) :
  Matches (Lit a) s c c' -> s = [a] /\ c' = c.
Proof.
  intros M. inv_matches.
  match goal with H : is_char _ _ = true |- _ =>
    apply Ascii.eqb_eq in H; subst end.
  auto.
Qed.

Lemma inv_letter (U L : ascii) (s : text) (c c' : captures) :
  Matches (Letter U L) s c c' ->
  exists a, s = [a] /\ (a = U \/ a = L) /\ c' = c.
Proof.
  intros M. unfold Letter in M. inv_matches.
  match goal with H : (_ || _)%bool = true |- _ =>
    apply orb_true_iff in H; destruct H as [H|H];
    apply Ascii.eqb_eq in H; subst end;
    eexists; repeat split; auto.
Qed.

(** A token without whitespace that [strptime] accepts is in the source
    format, and the value is that of its parts. *)
Lemma strptime_only_source_format (s : text) (t : datetime) :
  forallb non_space s = true ->
  strptime s = Some t ->
  exists p, in_source_format s p /\ t = datetime_of p.
Proof.
  intros NS. unfold strptime.
  destruct (re_match strptime_regex s) as [m|] eqn:E; [|discriminate].
  destruct (m_rest m) eqn:R; [|discriminate].
  destruct (re_match_sound _ _ _ E) as (s1 & Es & M). clear E.
  rewrite R, app_nil_r in Es. subst s1.
  destruct m as [rest caps]. cbn [m_rest m_caps] in *. clear R rest.
  unfold strptime_regex in M.
  change (seqs [?a]) with a in M.
  repeat match goal with
    | H : Matches (seqs (_ :: _)) _ _ _ |- _ =>
        cbn [seqs fold_right] in H
    | H : Matches (Seq _ _) _ _ _ |- _ => inv H
    | H : Matches Eps _ _ _ |- _ => inv H
    end.
  repeat match goal with
    | H : Matches (Lit _) _ _ _ |- _ =>
        apply inv_lit in H; destruct H as [-> ->]
    | H : Matches (Letter _ _) _ _ _ |- _ =>
        apply inv_letter in H; destruct H as (? & -> & ? & ->)
    end.
  rewrite !forallb_app in NS.
  repeat match goal with
    | H : (_ && _)%bool = true |- _ => apply andb_true_iff in H; destruct H
    end.
  repeat match goal with
    | H : Matches (Grp "Y" _) _ _ _ |- _ =>
        apply inv_year in H; destruct H as [-> DY]
    | H : Matches (Grp "m" _) _ _ _ |- _ =>
        apply inv_month in H; destruct H as [-> Dm]
    | H : Matches (Grp "d" _) _ _ _ |- _ =>
        apply inv_day in H; [destruct H as [-> Dd] | assumption]
    | H : Matches (Grp "H" _) _ _ _ |- _ =>
        apply inv_hour in H; destruct H as [-> DH]
    | H : Matches (Grp "M" _) _ _ _ |- _ =>
        apply inv_minute in H; destruct H as [-> DM]
    | H : Matches (Grp "S" _) _ _ _ |- _ =>
        apply inv_second in H; destruct H as [-> DS]
    | H : Matches (Grp "f" _) _ _ _ |- _ =>
        apply inv_fraction in H; destruct H as [-> Df]
    end.
  unfold group_int. cbn [capture String.eqb Ascii.eqb Bool.eqb].
  match goal with
  | |- context [valid_datetime ?d] =>
      match d with
      | {| year := int_of ?Y; month := int_of ?m; day := int_of ?d';
           hour := int_of ?H; minute := int_of ?M; second := int_of ?S;
           microsecond := int_of (?f ++ _) |} =>
          change d with
            (datetime_of {| p_year := Y; p_month := m; p_day := d';
                            p_hour := H; p_minute := M; p_second := S;
                            p_fraction := f |});
          set (p := {| p_year := Y; p_month := m; p_day := d';
                       p_hour := H; p_minute := M; p_second := S;
                       p_fraction := f |})
      end
  end.
  destruct (valid_datetime (datetime_of p)) eqn:V; [|discriminate].
  intros Et. inversion Et; subst t; clear Et.
  exists p. split; [|reflexivity].
  unfold valid_datetime, datetime_of in V.
  cbn [year month day hour minute second microsecond] in V.
  repeat match goal with
    | H : (_ && _)%bool = true |- _ => apply andb_true_iff in H; destruct H
    end.
  repeat match goal with
    | H : (_ <=? _)%N = true |- _ => apply N.leb_le in H
    end.
  unfold in_source_format, p. cbn [p_year p_month p_day p_hour p_minute
                                   p_second p_fraction].
  repeat (split; try assumption).
  eexists. eexists. split; [eassumption|]. split; [eassumption|].
  cbn [app]. reflexivity.
Qed.

(** ** The claims *)

(** C1, as the code has it.  The [raw_log] field of the record of a
    matched line is the canonical line, that is the input after the path
    pre-normalization, in which every occurrence of the CERT_ARN secret
    and then every occurrence of the ACCOUNT_ID secret is replaced by its
    placeholder token. *)
Theorem C1_raw_log_redacts_canonical_line
        (env : environ) (line : text) (m : match_object) :
  re_match pattern (normalize line) = Some m ->
  field_of "raw_log" (parse_elb_log env line) =
  Some (JStr (replace
                (replace (normalize line)
                         (environ_get env "CERT_ARN" []) (str "CERT_ARN"))
                (environ_get env "ACCOUNT_ID" []) (str "ACCOUNT_ID"))).
Proof.
  intros H. rewrite (field_of_matched env line m "raw_log" H). reflexivity.
Qed.

Lemma C1_witness :
  re_match pattern (normalize sample_line) = Some (match_of sample_line) /\
  field_of "raw_log" (parse_elb_log sample_env sample_line) =
  Some (JStr (replace
                (replace (normalize sample_line)
                         (environ_get sample_env "CERT_ARN" [])
                         (str "CERT_ARN"))
                (environ_get sample_env "ACCOUNT_ID" [])
                (str "ACCOUNT_ID"))).
Proof.
  split; [vm_compute; reflexivity |].
  apply (C1_raw_log_redacts_canonical_line sample_env sample_line
           (match_of sample_line)).
  vm_compute; reflexivity.
Defined.

(** C1, as the spec has it, fails: on the sample line, whose name of the
    load balancer the pre-normalization shortens, [raw_log] is not the
    redacted original line. *)
Lemma C1_counterexample :
  exists raw,
    field_of "raw_log" (parse_elb_log sample_env sample_line) =
    Some (JStr raw) /\
    raw <> replace (replace sample_line sample_cert (str "CERT_ARN"))
                   sample_account (str "ACCOUNT_ID").
Proof.
  eexists. split; [vm_compute; reflexivity |].
  intros E. apply text_eqb_eq in E. vm_compute in E. discriminate.
Qed.

(** C2, as the code has it.  In the record of a matched line no field
    other than [_time] is the sentinel: a group that captured the
    sentinel gives the empty string, any other group its text.  [_time]
    is not normalized: it is the sentinel exactly when the time token of
    the line is. *)
Theorem C2_no_sentinel_outside_time
        (env : environ) (line : text) (m : match_object) :
  re_match pattern (normalize line) = Some m ->
  exists r,
    parse_elb_log env line = Ok r /\
    (forall k v, In (k, v) r -> k <> "_time" -> v <> JStr (str "-")) /\
    (forall n, In n ("type" :: plain_groups) ->
               lookup n r
               = Some (JStr (if text_eqb (group m n) (str "-") then []
                             else group m n))) /\
    (lookup "_time" r = Some (JStr (str "-")) <-> group m "time" = str "-").
Proof.
  intros H. exists (success_record env (normalize line) m).
  split; [apply parse_matched; assumption |].
  split; [|split].
  - intros k v Hin Hk E. subst v.
    unfold success_record, plain_groups in Hin. cbn [map app In] in Hin.
    destruct Hin as [Hin|Hin]; [inversion Hin; subst; contradiction |].
    repeat (destruct Hin as [Hin|Hin];
            [inversion Hin as [[Hk' Hv]];
             first [ exact (empty_if_dash_no_sentinel _ Hv) | idtac ] |]);
      try contradiction.
    pose proof (matched_space_then_quote _ _ H) as N.
    apply space_then_quote_length in N.
    pose proof (redact_length2 env _ N) as R.
    rewrite Hv in R. simpl in R. lia.
  - intros n Hin. unfold plain_groups in Hin. cbn [In] in Hin.
    repeat (destruct Hin as [<-|Hin]; [reflexivity |]).
    contradiction.
  - change (lookup "_time" (success_record env (normalize line) m))
      with (Some (JStr (iso_time_of (group m "time")))).
    rewrite <- iso_time_of_sentinel.
    split; [intros E; injection E as E; exact E | intros ->; reflexivity].
Qed.

Lemma C2_witness :
  re_match pattern (normalize sample_line) = Some (match_of sample_line) /\
  exists r,
    parse_elb_log sample_env sample_line = Ok r /\
    (forall k v, In (k, v) r -> k <> "_time" -> v <> JStr (str "-")) /\
    (forall n, In n ("type" :: plain_groups) ->
               lookup n r
               = Some (JStr (if text_eqb (group (match_of sample_line) n)
                                         (str "-")
                             then []
                             else group (match_of sample_line) n))) /\
    (lookup "_time" r = Some (JStr (str "-")) <->
     group (match_of sample_line) "time" = str "-").
Proof.
  split; [vm_compute; reflexivity |].
  apply (C2_no_sentinel_outside_time
           sample_env sample_line (match_of sample_line)).
  vm_compute; reflexivity.
Defined.

(** C2, as the spec has it, fails on a matched line whose time token is
    the sentinel: the token is no time, so it is passed through, and
    [_time] is the sentinel. *)
Lemma C2_counterexample :
  re_match pattern (normalize (line_at "-")) = Some (match_of (line_at "-"))
  /\ group (match_of (line_at "-")) "time" = str "-"
  /\ field_of "_time" (parse_elb_log sample_env (line_at "-"))
     = Some (JStr (str "-")).
Proof. vm_compute. repeat split; reflexivity. Qed.

(** C3, as the code has it.  The record of a matched line is a flat JSON
    object: [_time] comes first, every field holds a string, and no key
    occurs twice.  The record of a line that does not match is not flat:
    next to [_time] it holds an object, under [data], with the error
    marker inside. *)
Theorem C3_matched_record_is_flat
        (env : environ) (line : text) (m : match_object) :
  re_match pattern (normalize line) = Some m ->
  (exists r,
      parse_elb_log env line = Ok r /\
      flat r /\
      (exists t, hd_error r = Some ("_time", JStr t)) /\
      NoDup (keys r)) /\
  (forall other,
      re_match pattern (normalize other) = None ->
      parse_elb_log env other = Ok failure_record) /\
  lookup "data" failure_record =
  Some (JObj [("error", JStr (str "Failed to parse log line"))]) /\
  ~ flat failure_record.
Proof.
  intros H. split.
  { exists (success_record env (normalize line) m).
    split; [apply parse_matched; assumption |].
    split; [apply success_record_flat |].
    split; [eexists; reflexivity |].
    rewrite success_record_keys. unfold plain_groups. cbn [app].
    repeat (constructor; [cbn [In]; intuition discriminate |]).
    constructor. }
  split; [intros other; apply parse_unmatched |].
  split; [reflexivity |].
  intros F. destruct (F "data" _ (or_intror (or_introl eq_refl))) as [s Hs].
  discriminate.
Qed.

Lemma C3_witness :
  re_match pattern (normalize sample_line) = Some (match_of sample_line) /\
  (exists r,
      parse_elb_log sample_env sample_line = Ok r /\
      flat r /\
      (exists t, hd_error r = Some ("_time", JStr t)) /\
      NoDup (keys r)) /\
  (forall other,
      re_match pattern (normalize other) = None ->
      parse_elb_log sample_env other = Ok failure_record) /\
  lookup "data" failure_record =
  Some (JObj [("error", JStr (str "Failed to parse log line"))]) /\
  ~ flat failure_record.
Proof.
  split; [vm_compute; reflexivity |].
  apply (C3_matched_record_is_flat sample_env sample_line
           (match_of sample_line)).
  vm_compute; reflexivity.
Defined.

(** C3, as the spec has it, fails on the record of a line that does not
    match: its [data] field holds an object, not a string. *)
Lemma C3_counterexample :
  exists r,
    parse_elb_log sample_env garbage_line = Ok r /\
    lookup "data" r =
    Some (JObj [("error", JStr (str "Failed to parse log line"))]) /\
    ~ flat r.
Proof.
  exists failure_record. split; [vm_compute; reflexivity |].
  split; [reflexivity |].
  intros F. destruct (F "data" _ (or_intror (or_introl eq_refl))) as [s Hs].
  discriminate.
Qed.

(** C4.  With batches of 50 and a sink that answers every call with some
    status code, whatever the codes: the loop over 120 records makes
    three calls, which carry the records 0-49, 50-99 and 100-119 in
    order; and a run of the handler over 120 lines sends its 120 records
    so and returns the count 120. *)
Theorem C4_three_batches_whatever_the_status
        (env : environ) (lines : list text) (post : sink) :
  length lines = 120 ->
  env "DATASET_NAME" <> None -> env "AXIOM_API_TOKEN" <> None ->
  (forall earlier rq, exists status, post earlier rq = Ok status) ->
  let records := map (record_of env) lines in
  (forall (json_logs : list record) to hdrs w0,
      length json_logs = 120 ->
      exists w,
        send_batches post to hdrs json_logs batch_size
          (range_step (length json_logs) batch_size) w0 = (w, Ok tt) /\
        map payload (posts w) =
        map payload (posts w0)
        ++ [ firstn 50 json_logs; firstn 50 (skipn 50 json_logs);
             skipn 100 json_logs ]) /\
  exists w,
    lambda_handler env lines post =
    (w, Ok {| statusCode := 200;
              message := str "Processed 120 logs" |}) /\
    parse_lines env lines = Ok records /\
    map payload (posts w) =
    [ firstn 50 records; firstn 50 (skipn 50 records); skipn 100 records ] /\
    map (fun rq => length (payload rq)) (posts w) = [50; 50; 20] /\
    concat (map payload (posts w)) = records.
Proof.
  intros L Hd Ht Hpost records. split.
  { intros json_logs to hdrs w0 Lj.
    destruct (send_batches_responding post to hdrs json_logs batch_size
                Hpost (range_step (length json_logs) batch_size) w0)
      as (w & Hw & Hp).
    exists w. split; [exact Hw |].
    rewrite Hp, map_app, map_map. cbn [payload].
    rewrite (three_slices _ json_logs Lj). reflexivity. }
  destruct (lambda_handler_responding env lines post Hd Ht Hpost)
    as (w & Hw & Hp).
  assert (Lr : length records = 120)
    by (unfold records; rewrite length_map; assumption).
  assert (P : map payload (posts w) =
              [ firstn 50 records; firstn 50 (skipn 50 records);
                skipn 100 records ]).
  { rewrite Hp. fold records. rewrite <- (three_slices _ records Lr).
    rewrite Lr, L. reflexivity. }
  exists w. rewrite Hw, L.
  split; [reflexivity |].
  split; [apply parse_lines_total |].
  split; [exact P |].
  split.
  - rewrite <- (map_map payload (@length record)), P. cbn [map].
    rewrite !length_firstn, !length_skipn, Lr. reflexivity.
  - rewrite P. cbn [concat]. rewrite app_nil_r.
    change (skipn 100 records) with (skipn (50 + 50) records).
    rewrite <- skipn_skipn, !firstn_skipn. reflexivity.
Qed.

Lemma C4_witness :
  length sample_lines = 120 /\
  let records := map (record_of sample_env) sample_lines in
  (forall (json_logs : list record) to hdrs w0,
      length json_logs = 120 ->
      exists w,
        send_batches second_call_fails to hdrs json_logs batch_size
          (range_step (length json_logs) batch_size) w0 = (w, Ok tt) /\
        map payload (posts w) =
        map payload (posts w0)
        ++ [ firstn 50 json_logs; firstn 50 (skipn 50 json_logs);
             skipn 100 json_logs ]) /\
  exists w,
    lambda_handler sample_env sample_lines second_call_fails =
    (w, Ok {| statusCode := 200;
              message := str "Processed 120 logs" |}) /\
    parse_lines sample_env sample_lines = Ok records /\
    map payload (posts w) =
    [ firstn 50 records; firstn 50 (skipn 50 records); skipn 100 records ] /\
    map (fun rq => length (payload rq)) (posts w) = [50; 50; 20] /\
    concat (map payload (posts w)) = records.
Proof.
  split; [reflexivity |].
  apply (C4_three_batches_whatever_the_status sample_env sample_lines
           second_call_fails).
  - reflexivity.
  - discriminate.
  - discriminate.
  - intros earlier rq. eexists. reflexivity.
Defined.

(** The second call of that run is answered with 500: the failure is
    logged, and the third call is made all the same. *)
Example second_batch_fails_third_is_sent :
  let w := fst (lambda_handler sample_env sample_lines second_call_fails) in
  log w = [Info (str "Batch 2 failed: 500")] /\
  map (fun rq => length (payload rq)) (posts w) = [50; 50; 20].
Proof. vm_compute. split; reflexivity. Qed.

(** A sink that raises ends the run: the later batches are not sent. *)
Example raising_sink_ends_the_run :
  let run := lambda_handler sample_env sample_lines
               (fun earlier _ => match earlier with
                                 | [] => Ok 200%N
                                 | _ => Raise ConnectionError
                                 end) in
  snd run = Raise ConnectionError /\
  map (fun rq => length (payload rq)) (posts (fst run)) = [50; 50] /\
  log (fst run) = [Error ConnectionError].
Proof. vm_compute. repeat split; reflexivity. Qed.

(** C5.  A line whose canonical form does not match the grammar yields
    the failure record: [_time] is the empty string, the error marker
    stands where the data would, and no group of the grammar is
    extracted.  In a run of the handler whose sink answers, the record is
    sent at the place of its line among the records. *)
Theorem C5_failure_record_is_forwarded
        (env : environ) (before after : list text) (line : text)
        (post : sink) :
  re_match pattern (normalize line) = None ->
  env "DATASET_NAME" <> None -> env "AXIOM_API_TOKEN" <> None ->
  (forall earlier rq, exists status, post earlier rq = Ok status) ->
  parse_elb_log env line = Ok failure_record /\
  lookup "_time" failure_record = Some (JStr []) /\
  lookup "data" failure_record =
  Some (JObj [("error", JStr (str "Failed to parse log line"))]) /\
  keys failure_record = ["_time"; "data"] /\
  nth_error
    (concat (map payload
               (posts (fst (lambda_handler env (before ++ line :: after)
                              post)))))
    (length before) = Some failure_record.
Proof.
  intros H Hd Ht Hpost.
  split; [apply parse_unmatched; assumption |].
  repeat (split; [reflexivity |]).
  destruct (lambda_handler_responding env (before ++ line :: after)
              post Hd Ht Hpost) as (w & -> & Hw).
  simpl fst. rewrite Hw.
  rewrite <- (length_map (record_of env) (before ++ line :: after)).
  rewrite batches_concat by (unfold batch_size; lia).
  rewrite map_app. simpl map.
  rewrite nth_error_app2; rewrite length_map; [|lia].
  rewrite Nat.sub_diag. simpl. unfold record_of. rewrite H. reflexivity.
Qed.

Lemma C5_witness :
  re_match pattern (normalize garbage_line) = None /\
  parse_elb_log sample_env garbage_line = Ok failure_record /\
  lookup "_time" failure_record = Some (JStr []) /\
  lookup "data" failure_record =
  Some (JObj [("error", JStr (str "Failed to parse log line"))]) /\
  keys failure_record = ["_time"; "data"] /\
  nth_error
    (concat (map payload
               (posts (fst (lambda_handler sample_env
                              ([sample_line] ++ garbage_line :: [sample_line])
                              second_call_fails)))))
    (length [sample_line]) = Some failure_record.
Proof.
  split; [vm_compute; reflexivity |].
  apply (C5_failure_record_is_forwarded sample_env [sample_line]
           [sample_line] garbage_line second_call_fails).
  - vm_compute; reflexivity.
  - discriminate.
  - discriminate.
  - intros earlier rq. eexists. reflexivity.
Defined.

(** C6.  The time token of a matched line is the second token of the
    canonical line.  When it is in the source format (a year of four
    digits; a month, a day, an hour, a minute and a second of one or two
    digits; a fraction of one to six digits; the letters T and Z in
    either case; a date and a time of day that exist), [_time] is its
    ISO 8601 form: every field at its full width, the fraction with six
    digits, or left out when it is zero, and the marker Z.  When it is
    not in that format, whatever parts one tries, [_time] is the token
    itself.  Either way the record is built. *)
Theorem C6_time_reformatted_or_passed_through
        (env : environ) (line : text) (m : match_object) :
  re_match pattern (normalize line) = Some m ->
  let token := group m "time" in
  let time_field := field_of "_time" (parse_elb_log env line) in
  (exists type_token,
      starts_with_tokens [type_token; token] (normalize line)) /\
  (forall p, in_source_format token p ->
             time_field = Some (JStr (iso_8601 p))) /\
  ((forall p, ~ in_source_format token p) ->
   time_field = Some (JStr token)) /\
  parse_elb_log env line <> Ok failure_record.
Proof.
  intros H token time_field.
  assert (F : time_field = Some (JStr (iso_time_of token))).
  { unfold time_field.
    rewrite (field_of_matched env line m "_time" H). reflexivity. }
  destruct (leading_tokens _ _ H) as (elb & T).
  cbn [starts_with_tokens] in T.
  destruct T as (H1 & H2 & w1 & r1 & Hw1 & E1 & H3 & H4 & w2 & r2 & Hw2
                 & E2 & _).
  fold token in H3, H4, E2.
  split; [|split; [|split]].
  - exists (group m "type"). cbn [starts_with_tokens].
    repeat (split; [assumption |]).
    exists w1, r1. repeat (split; [assumption |]).
    exists w2, r2. auto.
  - intros p Hp. rewrite F. unfold iso_time_of.
    rewrite (strptime_in_source_format _ _ Hp).
    destruct Hp as (_ & DY & Dm & Dd & DH & DM & DS & Df & _).
    rewrite isoformat_datetime_of by assumption. reflexivity.
  - intros Hno. rewrite F. unfold iso_time_of.
    destruct (strptime token) as [t|] eqn:S; [|reflexivity].
    destruct (strptime_only_source_format _ _ H3 S) as (p & Hp & _).
    destruct (Hno p Hp).
  - exact (matched_not_failure env line m H).
Qed.

(** A token that does not begin with a digit is not in the source
    format. *)
Lemma no_leading_digit_not_in_source_format
      (c : ascii) (s : text) (p : time_parts) :
  is_digit c = false -> ~ in_source_format (c :: s) p.
Proof.
  intros Hc ((T & Z & _ & _ & E) & [DY LY] & _).
  destruct (p_year p) as [|a Y]; [simpl in LY; lia|].
  simpl in E. inversion E; subst. simpl in DY. rewrite Hc in DY.
  discriminate.
Qed.

Lemma C6_witness :
  (group (match_of sample_line) "time" = str "2023-01-15T10:30:00.123456Z" /\
   field_of "_time" (parse_elb_log sample_env sample_line) =
   Some (JStr (str "2023-01-15T10:30:00.123456Z"))) /\
  (group (match_of (line_at "2023-1-5t1:2:3.5z")) "time"
   = str "2023-1-5t1:2:3.5z" /\
   field_of "_time" (parse_elb_log sample_env (line_at "2023-1-5t1:2:3.5z")) =
   Some (JStr (str "2023-01-05T01:02:03.500000Z"))) /\
  (group (match_of (line_at "2024-02-29T23:59:59.000000Z")) "time"
   = str "2024-02-29T23:59:59.000000Z" /\
   field_of "_time"
     (parse_elb_log sample_env (line_at "2024-02-29T23:59:59.000000Z")) =
   Some (JStr (str "2024-02-29T23:59:59Z"))) /\
  (group (match_of (line_at "not-a-time")) "time" = str "not-a-time" /\
   field_of "_time" (parse_elb_log sample_env (line_at "not-a-time")) =
   Some (JStr (str "not-a-time"))).
Proof.
  split; [|split; [|split]].
  - assert (G : group (match_of sample_line) "time"
                = str "2023-01-15T10:30:00.123456Z")
      by (vm_compute; reflexivity).
    split; [exact G |].
    pose proof (C6_time_reformatted_or_passed_through
                  sample_env sample_line (match_of sample_line)
                  ltac:(vm_compute; reflexivity)) as C.
    cbv zeta in C. destruct C as (_ & R & _). rewrite G in R.
    rewrite (R {| p_year := str "2023"; p_month := str "01";
                  p_day := str "15"; p_hour := str "10";
                  p_minute := str "30"; p_second := str "00";
                  p_fraction := str "123456" |}).
    + vm_compute; reflexivity.
    + split; [exists "T"%char, "Z"%char; auto |].
      repeat split;
        first [reflexivity | simpl; lia
              | apply N.leb_le; vm_compute; reflexivity].
  - assert (G : group (match_of (line_at "2023-1-5t1:2:3.5z")) "time"
                = str "2023-1-5t1:2:3.5z")
      by (vm_compute; reflexivity).
    split; [exact G |].
    pose proof (C6_time_reformatted_or_passed_through
                  sample_env (line_at "2023-1-5t1:2:3.5z")
                  (match_of (line_at "2023-1-5t1:2:3.5z"))
                  ltac:(vm_compute; reflexivity)) as C.
    cbv zeta in C. destruct C as (_ & R & _). rewrite G in R.
    rewrite (R {| p_year := str "2023"; p_month := str "1";
                  p_day := str "5"; p_hour := str "1";
                  p_minute := str "2"; p_second := str "3";
                  p_fraction := str "5" |}).
    + vm_compute; reflexivity.
    + split; [exists "t"%char, "z"%char; auto |].
      repeat split;
        first [reflexivity | simpl; lia
              | apply N.leb_le; vm_compute; reflexivity].
  - assert (G : group (match_of (line_at "2024-02-29T23:59:59.000000Z"))
                  "time"
                = str "2024-02-29T23:59:59.000000Z")
      by (vm_compute; reflexivity).
    split; [exact G |].
    pose proof (C6_time_reformatted_or_passed_through
                  sample_env (line_at "2024-02-29T23:59:59.000000Z")
                  (match_of (line_at "2024-02-29T23:59:59.000000Z"))
                  ltac:(vm_compute; reflexivity)) as C.
    cbv zeta in C. destruct C as (_ & R & _). rewrite G in R.
    rewrite (R {| p_year := str "2024"; p_month := str "02";
                  p_day := str "29"; p_hour := str "23";
                  p_minute := str "59"; p_second := str "59";
                  p_fraction := str "000000" |}).
    + vm_compute; reflexivity.
    + split; [exists "T"%char, "Z"%char; auto |].
      repeat split;
        first [reflexivity | simpl; lia
              | apply N.leb_le; vm_compute; reflexivity].
  - assert (G : group (match_of (line_at "not-a-time")) "time"
                = str "not-a-time")
      by (vm_compute; reflexivity).
    split; [exact G |].
    pose proof (C6_time_reformatted_or_passed_through
                  sample_env (line_at "not-a-time")
                  (match_of (line_at "not-a-time"))
                  ltac:(vm_compute; reflexivity)) as C.
    cbv zeta in C. destruct C as (_ & _ & P & _). rewrite G in P.
    apply P. intros p.
    apply (no_leading_digit_not_in_source_format "n"%char
             (str "ot-a-time") p).
    reflexivity.
Defined.

(** Tokens with the shape of the source format that name no date or no
    time of day are not in the format, and are passed through. *)
Example impossible_times_are_passed_through :
  iso_time_of (str "2023-02-29T10:30:00.000000Z")
  = str "2023-02-29T10:30:00.000000Z" /\
  iso_time_of (str "2023-01-15T24:00:00.000000Z")
  = str "2023-01-15T24:00:00.000000Z" /\
  iso_time_of (str "2023-01-15T10:30:60.000000Z")
  = str "2023-01-15T10:30:60.000000Z" /\
  iso_time_of (str "0000-01-15T10:30:00.000000Z")
  = str "0000-01-15T10:30:00.000000Z".
Proof. vm_compute. repeat split; reflexivity. Qed.

(** What [strptime] and [isoformat] make of some time tokens. *)
Example time_tokens :
  iso_time_of (str "2023-01-15T10:30:00.123456Z")
  = str "2023-01-15T10:30:00.123456Z" /\
  iso_time_of (str "2023-1-5t1:2:3.5z") = str "2023-01-05T01:02:03.500000Z" /\
  iso_time_of (str "2023-01-15T10:30:00.000000Z")
  = str "2023-01-15T10:30:00Z" /\
  strptime (str "not-a-time") = None /\
  strptime (str "2023-02-29T10:30:00.000000Z") = None /\
  strptime (str "2023-01-15T10:30:60.000000Z") = None /\
  strptime (str "2023-01-15T10:30:00.1234567Z") = None /\
  strptime (str "2023-01-15T10:30:00.123456Z trailing") = None /\
  strptime (str "-") = None.
Proof. vm_compute. repeat split; reflexivity. Qed.

(** C7.  The fourth and fifth tokens of the canonical line are the
    combined client and target fields.  Each is cut at its last colon
    into address and port; without a colon the port is empty and the
    address is the whole field; and a part that is the sentinel becomes
    the empty string, so that the target [-] gives an empty [target] and
    an empty [target_port]. *)
Theorem C7_addresses_split_at_last_colon
        (env : environ) (line : text) (m : match_object) :
  re_match pattern (normalize line) = Some m ->
  let client := group m "client_port" in
  let target := group m "target_port" in
  let field k := field_of k (parse_elb_log env line) in
  (exists t1 t2 t3,
      starts_with_tokens [t1; t2; t3; client; target] (normalize line)) /\
  (exists address port,
      split_at_last_colon client address port /\
      field "client" = Some (JStr (empty_if_dash address)) /\
      field "client_port" = Some (JStr (empty_if_dash port))) /\
  (exists address port,
      split_at_last_colon target address port /\
      field "target" = Some (JStr (empty_if_dash address)) /\
      field "target_port" = Some (JStr (empty_if_dash port))) /\
  (target = str "-" ->
   field "target" = Some (JStr []) /\ field "target_port" = Some (JStr [])).
Proof.
  intros H client target field.
  assert (F : forall k, field k =
                        lookup k (success_record env (normalize line) m))
    by (intros k; apply field_of_matched; assumption).
  split.
  { destruct (leading_tokens _ _ H) as (elb & T).
    exists (group m "type"), (group m "time"), elb. exact T. }
  split.
  { exists (address_part client), (port_part client).
    split; [apply split_parts |]. rewrite !F. split; reflexivity. }
  split.
  { exists (address_part target), (port_part target).
    split; [apply split_parts |]. rewrite !F. split; reflexivity. }
  intros E. rewrite !F.
  change (lookup "target" (success_record env (normalize line) m))
    with (Some (JStr (empty_if_dash (address_part target)))).
  change (lookup "target_port" (success_record env (normalize line) m))
    with (Some (JStr (empty_if_dash (port_part target)))).
  rewrite E. split; reflexivity.
Qed.

Lemma C7_witness :
  re_match pattern (normalize sample_line) = Some (match_of sample_line) /\
  group (match_of sample_line) "client_port" = str "10.0.0.1:443" /\
  group (match_of sample_line) "target_port" = str "-" /\
  field_of "client" (parse_elb_log sample_env sample_line)
  = Some (JStr (str "10.0.0.1")) /\
  field_of "client_port" (parse_elb_log sample_env sample_line)
  = Some (JStr (str "443")) /\
  field_of "target" (parse_elb_log sample_env sample_line)
  = Some (JStr []) /\
  field_of "target_port" (parse_elb_log sample_env sample_line)
  = Some (JStr []).
Proof.
  split; [vm_compute; reflexivity |].
  split; [vm_compute; reflexivity |].
  split; [vm_compute; reflexivity |].
  destruct (C7_addresses_split_at_last_colon
              sample_env sample_line (match_of sample_line)
              ltac:(vm_compute; reflexivity))
    as (_ & (a & p & _ & _ & _) & _ & T).
  split; [vm_compute; reflexivity |].
  split; [vm_compute; reflexivity |].
  apply T. vm_compute; reflexivity.
Defined.

(** C8, as the code has it.  For non-empty secrets that share no
    character with the two placeholder tokens, the [raw_log] of a matched
    line holds no occurrence of either secret.  When moreover the
    canonical line holds neither token, [raw_log] holds as many CERT_ARN
    tokens as the canonical line has occurrences of the certificate
    secret, and as many ACCOUNT_ID tokens as the line has occurrences of
    the account secret once the certificate secret is replaced;
    occurrences are counted from the left, without overlap. *)
Theorem C8_redacted_secrets_are_gone_and_counted
        (env : environ) (line : text) (m : match_object) :
  let cert := environ_get env "CERT_ARN" [] in
  let account := environ_get env "ACCOUNT_ID" [] in
  let tokens := str "CERT_ARN" ++ str "ACCOUNT_ID" in
  re_match pattern (normalize line) = Some m ->
  cert <> [] -> account <> [] ->
  shares_no_char cert tokens = true ->
  shares_no_char account tokens = true ->
  exists raw,
    field_of "raw_log" (parse_elb_log env line) = Some (JStr raw) /\
    contains cert raw = false /\
    contains account raw = false /\
    (contains (str "CERT_ARN") (normalize line) = false ->
     contains (str "ACCOUNT_ID") (normalize line) = false ->
     count (str "CERT_ARN") raw = count cert (normalize line) /\
     count (str "ACCOUNT_ID") raw
     = count account (replace (normalize line) cert (str "CERT_ARN"))).
Proof.
  intros cert account tokens H Hc Ha Sc Sa.
  apply shares_no_char_app in Sc, Sa.
  destruct Sc as [Scc Sca], Sa as [Sac Saa].
  assert (Ncc : str "CERT_ARN" <> []) by discriminate.
  assert (Naa : str "ACCOUNT_ID" <> []) by discriminate.
  pose proof (disjoint_untouched _ _ Hc Ncc Scc) as Ucc.
  pose proof (disjoint_untouched _ _ Hc Naa Sca) as Uca.
  pose proof (disjoint_untouched _ _ Ha Naa Saa) as Uaa.
  exists (redact env (normalize line)).
  split; [rewrite (field_of_matched env line m "raw_log" H); reflexivity |].
  unfold redact. fold cert account.
  set (canonical := normalize line).
  set (after_cert := replace canonical cert (str "CERT_ARN")).
  assert (Z : contains cert after_cert = false)
    by (apply replace_leaves_no_occurrence; assumption).
  split.
  { apply (contains_false_of_not_true cert _ after_cert); [|exact Z].
    apply replace_brings_no_occurrence; assumption. }
  split; [apply replace_leaves_no_occurrence; assumption |].
  intros Pc Pa. split.
  - rewrite count_preserved; auto.
    + apply count_replaced; auto. apply cert_token_clear_of_itself.
    + apply disjoint_untouched; auto. apply shares_no_char_sym; assumption.
    + apply cert_token_untouched_by_account_token.
  - apply count_replaced; auto.
    + apply account_token_clear_of_itself.
    + apply (contains_false_of_not_true _ _ canonical); [|exact Pa].
      apply replace_brings_no_occurrence; auto.
      apply account_token_untouched_by_cert_token.
Qed.

Lemma C8_witness :
  re_match pattern (normalize sample_line) = Some (match_of sample_line) /\
  exists raw,
    field_of "raw_log" (parse_elb_log sample_env sample_line)
    = Some (JStr raw) /\
    contains sample_cert raw = false /\
    contains sample_account raw = false /\
    (contains (str "CERT_ARN") (normalize sample_line) = false ->
     contains (str "ACCOUNT_ID") (normalize sample_line) = false ->
     count (str "CERT_ARN") raw = count sample_cert (normalize sample_line) /\
     count (str "ACCOUNT_ID") raw
     = count sample_account
         (replace (normalize sample_line) sample_cert (str "CERT_ARN"))).
Proof.
  split; [vm_compute; reflexivity |].
  apply (C8_redacted_secrets_are_gone_and_counted
           sample_env sample_line (match_of sample_line)).
  - vm_compute; reflexivity.
  - discriminate.
  - discriminate.
  - vm_compute; reflexivity.
  - vm_compute; reflexivity.
Defined.

(** C8, as the spec has it, fails twice.  With the sample secrets, the
    account identifier stands inside the certificate identifier: the line
    has three occurrences of the secrets, and [raw_log] two placeholder
    tokens.  And a secret that is part of its own placeholder token, here
    the account secret ID, is still there after the substitution. *)
Lemma C8_counterexample :
  (exists raw,
      field_of "raw_log" (parse_elb_log sample_env sample_line)
      = Some (JStr raw) /\
      count sample_cert sample_line = 1 /\
      count sample_account sample_line = 2 /\
      count (str "CERT_ARN") raw = 1 /\
      count (str "ACCOUNT_ID") raw = 1)
  /\
  (exists raw,
      field_of "raw_log"
        (parse_elb_log (env_of sample_cert (str "ID")) sample_line)
      = Some (JStr raw) /\
      contains (str "ID") sample_line = true /\
      contains (str "ID") raw = true).
Proof.
  split; eexists; (split; [vm_compute; reflexivity |]);
    vm_compute; repeat split; reflexivity.
Qed.



(** Where redaction takes the trailing text away, as it does when a
    secret covers it, the two records are the same in [raw_log] too. *)
Example trailing_text_hidden_by_redaction :
  let prefix := line_with "2023-01-15T10:30:00.123456Z" "ACCOUNT_ID" in
  let env := env_of sample_cert (str "ACCOUNT_ID" ++ trailing) in
  m_rest (match_of prefix) = []
  /\ m_rest (match_of (prefix ++ trailing)) = trailing
  /\ parse_elb_log env (prefix ++ trailing) = parse_elb_log env prefix.
Proof.
  cbv zeta.
  split; [vm_compute; reflexivity |].
  split; vm_compute; reflexivity.
Qed.

(** C10.  When CERT_ARN or ACCOUNT_ID is unset or empty, the [raw_log] of
    a matched line is neither the line nor its canonical form: replacing
    the empty string puts the placeholder token at the start of the text
    and behind every character of it. *)
Theorem C10_empty_secret_corrupts_raw_log
        (env : environ) (line : text) (m : match_object) :
  re_match pattern (normalize line) = Some m ->
  environ_get env "CERT_ARN" [] = [] \/ environ_get env "ACCOUNT_ID" [] = [] ->
  let cert := environ_get env "CERT_ARN" [] in
  let account := environ_get env "ACCOUNT_ID" [] in
  exists raw,
    field_of "raw_log" (parse_elb_log env line) = Some (JStr raw) /\
    raw <> line /\ raw <> normalize line /\
    (cert = [] ->
     raw = replace (str "CERT_ARN"
                    ++ concat (map (fun c => c :: str "CERT_ARN")
                                   (normalize line)))
                   account (str "ACCOUNT_ID")) /\
    (account = [] ->
     raw = str "ACCOUNT_ID"
           ++ concat (map (fun c => c :: str "ACCOUNT_ID")
                          (replace (normalize line) cert (str "CERT_ARN")))).
Proof.
  intros H Hempty cert account. exists (redact env (normalize line)).
  split; [rewrite (field_of_matched env line m "raw_log" H); reflexivity |].
  pose proof (redact_space_then_quote env (normalize line) Hempty) as R.
  pose proof (matched_space_then_quote _ _ H) as N.
  pose proof (normalize_space_then_quote line N) as L.
  split; [intros E; rewrite E in R; congruence |].
  split; [intros E; rewrite E in R; congruence |].
  unfold redact. fold cert account. split; intros E; rewrite E.
  - simpl replace at 2. rewrite interleave_concat. reflexivity.
  - simpl replace at 1. rewrite interleave_concat. reflexivity.
Qed.

Lemma C10_witness :
  re_match pattern (normalize sample_line) = Some (match_of sample_line) /\
  let env : environ := fun _ => None in
  let cert := environ_get env "CERT_ARN" [] in
  let account := environ_get env "ACCOUNT_ID" [] in
  exists raw,
    field_of "raw_log" (parse_elb_log env sample_line) = Some (JStr raw) /\
    raw <> sample_line /\ raw <> normalize sample_line /\
    (cert = [] ->
     raw = replace (str "CERT_ARN"
                    ++ concat (map (fun c => c :: str "CERT_ARN")
                                   (normalize sample_line)))
                   account (str "ACCOUNT_ID")) /\
    (account = [] ->
     raw = str "ACCOUNT_ID"
           ++ concat (map (fun c => c :: str "ACCOUNT_ID")
                          (replace (normalize sample_line) cert
                                   (str "CERT_ARN")))).
Proof.
  split; [vm_compute; reflexivity |].
  apply (C10_empty_secret_corrupts_raw_log
           (fun _ => None) sample_line (match_of sample_line)).
  - vm_compute; reflexivity.
  - left; reflexivity.
Defined.

(** With CERT_ARN unset, the placeholder stands before each character. *)
Example raw_log_with_unset_secret :
  firstn 30 (redact (env_of [] sample_account) (str "abc"))
  = str "CERT_ARNaCERT_ARNbCERT_ARNcCER".
Proof. reflexivity. Qed.

(* ------------------------------------------------------------------ *)
(** ** Further properties of [parse_elb_log] *)

Lemma last_cons_nonempty (A : Type) (x : A) (l : list A) (d : A) :
  l <> [] -> last (x :: l) d = last l d.
Proof. destruct l; [contradiction | reflexivity]. Qed.

Lemma split_not_nil (sep : ascii) (s : text) : split sep s <> [].
Proof.
  induction s as [|a s IH]; simpl; [discriminate|].
  destruct (Ascii.eqb a sep); [discriminate|].
  destruct (split sep s); [contradiction | discriminate].
Qed.

Lemma split_without (sep : ascii) (s : text) :
  existsb (is_char sep) s = false -> split sep s = [s].
Proof.
  induction s as [|a s IH]; simpl; [reflexivity|].
  intros H. apply orb_false_iff in H. destruct H as [Ha Hs].
  unfold is_char in Ha. rewrite Ha, (IH Hs). reflexivity.
Qed.

Lemma last_split (sep : ascii) (seg : text) :
  existsb (is_char sep) seg = false ->
  forall a,
    2 <= length (split sep (a ++ sep :: seg)) /\
    last (split sep (a ++ sep :: seg)) [] = seg.
Proof.
  intros Hseg. induction a as [|x a [IHl IH]]; simpl.
  - rewrite Ascii.eqb_refl, (split_without sep seg Hseg). simpl. auto.
  - destruct (Ascii.eqb x sep).
    + split; [simpl; lia|].
      rewrite last_cons_nonempty by apply split_not_nil. exact IH.
    + destruct (split sep (a ++ sep :: seg)) as [|h [|h' t]];
        simpl in IHl; try lia.
      split; [simpl; lia | exact IH].
Qed.

Lemma service_of_after_last (arn : text) :
  exists seg,
    after_last "/" arn seg /\
    empty_if_dash (service_of arn) = empty_if_dash seg.
Proof.
  pose proof (rsplit1_spec "/" arn) as R.
  destruct (existsb (is_char "/") arn) eqn:E.
  - destruct R as (a & seg & _ & -> & Hseg).
    exists seg. split; [split; eauto|].
    unfold service_of.
    destruct (text_eqb (a ++ "/"%char :: seg) (str "-")) eqn:T.
    + apply text_eqb_eq in T. destruct a as [|? [|? ?]]; discriminate.
    + rewrite (proj2 (last_split "/" seg Hseg a)). reflexivity.
  - exists arn. split; [split; auto|].
    unfold service_of. rewrite (split_without "/" arn E).
    destruct (text_eqb arn (str "-")) eqn:T; [|reflexivity].
    apply text_eqb_eq in T. subst. reflexivity.
Qed.

(** X1.  The service name is what stands after the last slash of the target
    group identifier, or the whole identifier when it has no slash; if
    that is the sentinel the field is empty.  The identifier itself and
    the time token are no fields of the record. *)
Theorem service_is_last_segment
        (env : environ) (line : text) (m : match_object) :
  re_match pattern (normalize line) = Some m ->
  (exists seg,
      after_last "/" (group m "target_group_arn") seg /\
      field_of "service" (parse_elb_log env line)
      = Some (JStr (if text_eqb seg (str "-") then [] else seg))) /\
  field_of "target_group_arn" (parse_elb_log env line) = None /\
  field_of "time" (parse_elb_log env line) = None.
Proof.
  intros H. rewrite !(field_of_matched env line m _ H).
  split; [|split; reflexivity].
  destruct (service_of_after_last (group m "target_group_arn"))
    as (seg & Hseg & E).
  exists seg. split; [assumption|].
  change (lookup "service" (success_record env (normalize line) m))
    with (Some (JStr (empty_if_dash
                        (service_of (group m "target_group_arn"))))).
  rewrite E. reflexivity.
Qed.

Lemma service_is_last_segment_witness :
  re_match pattern (normalize sample_line) = Some (match_of sample_line) /\
  group (match_of sample_line) "target_group_arn"
  = str "arn:aws:elasticloadbalancing:us-east-1:123456789012:targetgroup/my-service/73e2d6bc24d8a067"
  /\ field_of "service" (parse_elb_log sample_env sample_line)
     = Some (JStr (str "73e2d6bc24d8a067"))
  /\ field_of "target_group_arn" (parse_elb_log sample_env sample_line) = None.
Proof.
  split; [vm_compute; reflexivity |].
  split; [vm_compute; reflexivity |].
  destruct (service_is_last_segment sample_env sample_line
              (match_of sample_line) ltac:(vm_compute; reflexivity))
    as (_ & T & _).
  split; [vm_compute; reflexivity | exact T].
Defined.

(** X2.  The record of a matched line has the same 34 keys whatever the line,
    in the same order. *)
Theorem record_schema (env : environ) (line : text) (m : match_object) :
  re_match pattern (normalize line) = Some m ->
  exists r,
    parse_elb_log env line = Ok r /\
    keys r = record_keys /\ length r = 34 /\
    forall k, In k record_keys -> exists v, lookup k r = Some (JStr v).
Proof.
  intros H. exists (success_record env (normalize line) m).
  split; [apply parse_matched; assumption |].
  split; [reflexivity |]. split; [reflexivity |].
  intros k Hk. unfold record_keys, plain_groups in Hk. cbn [app In] in Hk.
  repeat (destruct Hk as [<-|Hk]; [eexists; reflexivity |]).
  contradiction.
Qed.

Lemma record_schema_witness :
  re_match pattern (normalize sample_line) = Some (match_of sample_line) /\
  exists r,
    parse_elb_log sample_env sample_line = Ok r /\
    keys r = record_keys /\ length r = 34 /\
    forall k, In k record_keys -> exists v, lookup k r = Some (JStr v).
Proof.
  split; [vm_compute; reflexivity |].
  apply (record_schema sample_env sample_line (match_of sample_line)).
  vm_compute; reflexivity.
Defined.

Lemma nth_error_cut (A : Type) (l : list A) (i : nat) (x : A) :
  nth_error l i = Some x -> l = firstn i l ++ x :: skipn (S i) l.
Proof.
  revert i. induction l as [|a l IH]; intros [|i] H; simpl in *;
    try discriminate.
  - inversion H. reflexivity.
  - f_equal. apply IH. assumption.
Qed.

(** What the group at place [i] of the grammar captured is matched by the
    pattern of that group; groups opened inside it keep their captures. *)
Lemma pattern_group_at (i : nat) (n : string) (r : regex)
      (s : text) (m : match_object) :
  nth_error pattern_items i = Some (Grp n r) ->
  (forall k, In k (n :: group_names r) ->
             ~ In k (group_names (seqs (skipn (S i) pattern_items)))) ->
  re_match pattern s = Some m ->
  exists c0 c1,
    Matches r (group m n) c0 c1 /\
    forall k, In k (group_names r) -> k <> n ->
              capture k (m_caps m) = capture k c1.
Proof.
  intros Hi Hlater H.
  destruct (re_match_sound _ _ _ H) as (s1 & _ & M). clear H.
  unfold pattern in M. rewrite (nth_error_cut _ _ _ _ Hi) in M.
  apply Matches_seqs_app in M. destruct M as (t1 & t2 & c0 & _ & _ & M).
  simpl in M.
  inversion M as [| |r1 r2 u1 u2 ca cb cc Ma Mb| | | |]; subst; clear M.
  inversion Ma as [| | | | | |n' r' u ca' cb' Mr]; subst; clear Ma.
  exists c0, cb'. split.
  - unfold group.
    rewrite (Matches_keeps n _ _ _ _ Mb (Hlater n (or_introl eq_refl))).
    simpl. rewrite String.eqb_refl. exact Mr.
  - intros k Hk Hkn.
    rewrite (Matches_keeps k _ _ _ _ Mb (Hlater k (or_intror Hk))).
    simpl. destruct (String.eqb k n) eqn:E; [|reflexivity].
    apply String.eqb_eq in E. contradiction.
Qed.

Ltac not_later :=
  let k := fresh "k" in let Hk := fresh "Hk" in
  intros k Hk; cbn [In group_names app] in Hk;
  repeat (destruct Hk as [<-|Hk]; [cbv; intuition discriminate |]);
  contradiction.

Lemma number_not_sentinel (t : text) : is_number t -> empty_if_dash t = t.
Proof.
  intros [H _]. unfold empty_if_dash.
  destruct (text_eqb t (str "-")) eqn:E; [|reflexivity].
  apply text_eqb_eq in E. subst. discriminate.
Qed.

Lemma signed_number_not_sentinel (t : text) :
  is_signed_number t -> empty_if_dash t = t.
Proof.
  intros [H|(d & -> & _ & Hd)]; [apply number_not_sentinel; assumption|].
  unfold empty_if_dash.
  destruct (text_eqb ("-"%char :: d) (str "-")) eqn:E; [|reflexivity].
  apply text_eqb_eq in E. inversion E. contradiction.
Qed.

Lemma Matches_number (t : text) (c c' : captures) :
  Matches (Plus is_digit) t c c' -> is_number t.
Proof.
  intros M. inv_matches. split; [assumption|].
  apply not_nil_of_length. assumption.
Qed.

Lemma Matches_digits_or_dash (t : text) (c c' : captures) :
  Matches digits_or_dash t c c' -> t = str "-" \/ is_number t.
Proof.
  unfold digits_or_dash. intros M.
  inversion M as [| | |r1 r2 u ca cb M1|r1 r2 u ca cb M2| |]; subst; clear M.
  - right. eapply Matches_number; eassumption.
  - left. inv_matches.
    match goal with H : is_char _ _ = true |- _ =>
      apply Ascii.eqb_eq in H; subst end.
    reflexivity.
Qed.

Lemma Matches_signed_or_dash (t : text) (c c' : captures) :
  Matches signed_or_dash t c c' -> t = str "-" \/ is_signed_number t.
Proof.
  unfold signed_or_dash. intros M.
  inversion M as [| | |r1 r2 u ca cb M1|r1 r2 u ca cb M2| |]; subst; clear M.
  - right.
    inversion M1 as [| |r1 r2 u1 u2 ca' cb' cc' Ma Mb| | | |]; subst; clear M1.
    apply Matches_number in Mb. unfold Opt in Ma.
    inversion Ma as [| | |r1 r2 u ca2 cb2 Mc|r1 r2 u ca2 cb2 Mc| |];
      subst; clear Ma; inv_matches.
    + right.
      match goal with H : is_char _ _ = true |- _ =>
        apply Ascii.eqb_eq in H; subst end.
      eexists. split; [reflexivity | assumption].
    + left. assumption.
  - left. inv_matches.
    match goal with H : is_char _ _ = true |- _ =>
      apply Ascii.eqb_eq in H; subst end.
    reflexivity.
Qed.

Lemma plain_field (env : environ) (line : text) (m : match_object)
      (k : string) :
  In k ("type" :: plain_groups) ->
  lookup k (success_record env line m)
  = Some (JStr (empty_if_dash (group m k))).
Proof.
  intros Hk. unfold plain_groups in Hk. cbn [In] in Hk.
  repeat (destruct Hk as [<-|Hk]; [reflexivity |]).
  contradiction.
Qed.

Ltac is_plain := unfold plain_groups; cbn [In]; tauto.

Ltac numeric_case index name rx conv keep H F :=
  let M := fresh "M" in
  destruct (pattern_group_at index name rx _ _ eq_refl ltac:(not_later) H)
    as (? & ? & M & _);
  apply conv in M; rewrite F, plain_field by is_plain;
  destruct M as [M|M];
  [ exists []; split; [rewrite M; reflexivity | left; auto]
  | eexists; split; [rewrite (keep _ M); reflexivity | right; auto] ].

(** X3.  The numeric fields of the record of a matched line are numeric:
    [sent_bytes] is a decimal number; [elb_status_code] and
    [received_bytes] are decimal numbers or, for the sentinel, empty; the
    three processing times are decimal numbers with an optional minus
    sign or, for the sentinel, empty. *)
Theorem numeric_fields (env : environ) (line : text) (m : match_object) :
  re_match pattern (normalize line) = Some m ->
  let field k := field_of k (parse_elb_log env line) in
  (exists v, field "sent_bytes" = Some (JStr v) /\ is_number v) /\
  (forall k, In k ["elb_status_code"; "received_bytes"] ->
             exists v, field k = Some (JStr v) /\
                       (v = [] /\ group m k = str "-" \/
                        v = group m k /\ is_number v)) /\
  (forall k, In k [ "request_processing_time"; "target_processing_time";
                    "response_processing_time" ] ->
             exists v, field k = Some (JStr v) /\
                       (v = [] /\ group m k = str "-" \/
                        v = group m k /\ is_signed_number v)).
Proof.
  intros H field.
  assert (F : forall k, field k =
                        lookup k (success_record env (normalize line) m))
    by (intros k; apply field_of_matched; assumption).
  split; [|split].
  - destruct (pattern_group_at 22 "sent_bytes" (Plus is_digit) _ m
                eq_refl ltac:(not_later) H) as (c0 & c1 & M & _).
    apply Matches_number in M.
    exists (group m "sent_bytes"). split; [|assumption].
    rewrite F, plain_field by is_plain.
    rewrite (number_not_sentinel _ M). reflexivity.
  - intros k Hk. cbn [In] in Hk.
    destruct Hk as [<-|[<-|[]]].
    + numeric_case 16 "elb_status_code" digits_or_dash
        Matches_digits_or_dash number_not_sentinel H F.
    + numeric_case 20 "received_bytes" digits_or_dash
        Matches_digits_or_dash number_not_sentinel H F.
  - intros k Hk. cbn [In] in Hk.
    destruct Hk as [<-|[<-|[<-|[]]]].
    + numeric_case 10 "request_processing_time" signed_or_dash
        Matches_signed_or_dash signed_number_not_sentinel H F.
    + numeric_case 12 "target_processing_time" signed_or_dash
        Matches_signed_or_dash signed_number_not_sentinel H F.
    + numeric_case 14 "response_processing_time" signed_or_dash
        Matches_signed_or_dash signed_number_not_sentinel H F.
Qed.

Lemma numeric_fields_witness :
  re_match pattern (normalize sample_line) = Some (match_of sample_line) /\
  let m := match_of sample_line in
  let field k := field_of k (parse_elb_log sample_env sample_line) in
  (exists v, field "sent_bytes" = Some (JStr v) /\ is_number v) /\
  (forall k, In k ["elb_status_code"; "received_bytes"] ->
             exists v, field k = Some (JStr v) /\
                       (v = [] /\ group m k = str "-" \/
                        v = group m k /\ is_number v)) /\
  (forall k, In k [ "request_processing_time"; "target_processing_time";
                    "response_processing_time" ] ->
             exists v, field k = Some (JStr v) /\
                       (v = [] /\ group m k = str "-" \/
                        v = group m k /\ is_signed_number v)).
Proof.
  split; [vm_compute; reflexivity |].
  apply (numeric_fields sample_env sample_line (match_of sample_line)).
  vm_compute; reflexivity.
Defined.

Lemma Matches_quoted (t : text) (c c' : captures) :
  Matches (Star non_quote) t c c' -> forallb non_quote t = true.
Proof. intros M. inv_matches. assumption. Qed.

Lemma empty_if_dash_class (p : ascii -> bool) (t : text) :
  forallb p t = true -> forallb p (empty_if_dash t) = true.
Proof. unfold empty_if_dash. destruct (text_eqb t (str "-")); auto. Qed.

Ltac quoted_case index name H F :=
  let M := fresh "M" in
  destruct (pattern_group_at index name (Star non_quote) _ _ eq_refl
              ltac:(not_later) H) as (? & ? & M & _);
  apply Matches_quoted in M; rewrite F, plain_field by is_plain;
  eexists; split; [reflexivity | apply empty_if_dash_class; exact M].

(** X4.  No double-quoted field of the record of a matched line holds a double
    quote: each ends at the first quote after its opening one. *)
Theorem quoted_fields_hold_no_quote
        (env : environ) (line : text) (m : match_object) :
  re_match pattern (normalize line) = Some m ->
  forall k, In k quoted_groups ->
            exists v, field_of k (parse_elb_log env line) = Some (JStr v) /\
                      forallb non_quote v = true.
Proof.
  intros H.
  assert (F : forall k, field_of k (parse_elb_log env line) =
                        lookup k (success_record env (normalize line) m))
    by (intros k; apply field_of_matched; assumption).
  intros k Hk. unfold quoted_groups in Hk. cbn [In] in Hk.
  destruct Hk as [<-|[<-|[<-|[<-|[<-|[<-|[<-|[<-|[<-|[<-|[]]]]]]]]]]].
  - quoted_case 29 "user_agent" H F.
  - quoted_case 39 "trace_id" H F.
  - quoted_case 43 "domain_name" H F.
  - quoted_case 53 "actions_executed" H F.
  - quoted_case 57 "redirect_url" H F.
  - quoted_case 61 "error_reason" H F.
  - quoted_case 65 "target_port_list" H F.
  - quoted_case 69 "target_status_code_list" H F.
  - quoted_case 73 "classification" H F.
  - quoted_case 77 "classification_reason" H F.
Qed.

Lemma quoted_fields_hold_no_quote_witness :
  re_match pattern (normalize sample_line) = Some (match_of sample_line) /\
  forall k, In k quoted_groups ->
            exists v,
              field_of k (parse_elb_log sample_env sample_line)
              = Some (JStr v) /\
              forallb non_quote v = true.
Proof.
  split; [vm_compute; reflexivity |].
  apply (quoted_fields_hold_no_quote sample_env sample_line
           (match_of sample_line)).
  vm_compute; reflexivity.
Defined.

Lemma token_not_sentinel (t rest : text) (w : ascii) :
  t <> [] -> empty_if_dash (t ++ w :: rest) = t ++ w :: rest.
Proof.
  intros Ht. unfold empty_if_dash.
  destruct (text_eqb (t ++ w :: rest) (str "-")) eqn:E; [|reflexivity].
  apply text_eqb_eq in E. apply (f_equal (@length ascii)) in E.
  rewrite length_app in E. destruct t; [contradiction|]. simpl in E. lia.
Qed.

(** X5.  The request field of a matched line is its method, its URL and its
    protocol with one whitespace character between them; the three are
    not empty and hold no whitespace.  The record holds the request as
    it is, and each part as it is unless it is the sentinel. *)
Theorem request_is_method_url_protocol
        (env : environ) (line : text) (m : match_object) :
  re_match pattern (normalize line) = Some m ->
  let field k := field_of k (parse_elb_log env line) in
  exists w1 w2,
    is_space w1 = true /\ is_space w2 = true /\
    group m "request"
    = group m "method" ++ w1 :: group m "url" ++ w2 :: group m "protocol" /\
    Forall (fun t => forallb non_space t = true /\ t <> [])
           [group m "method"; group m "url"; group m "protocol"] /\
    field "request" = Some (JStr (group m "request")) /\
    Forall (fun k => field k = Some (JStr (empty_if_dash (group m k))))
           ["method"; "url"; "protocol"].
Proof.
  intros H field.
  assert (F : forall k, field k =
                        lookup k (success_record env (normalize line) m))
    by (intros k; apply field_of_matched; assumption).
  destruct (pattern_group_at 25 "request"
              (seqs [ Grp "method" (Plus non_space); sp;
                      Grp "url" (Plus non_space); sp;
                      Grp "protocol" (Plus non_space) ])
              _ m eq_refl ltac:(not_later) H) as (c0 & c1 & M & K).
  assert (G : forall k, In k ["method"; "url"; "protocol"] ->
                        group m k =
                        match capture k c1 with Some v => v | None => [] end).
  { intros k Hk. unfold group. rewrite K; [reflexivity | |].
    - cbn [In] in Hk. cbn. tauto.
    - cbn [In] in Hk. intuition (subst; discriminate). }
  cbn in M. inv_matches.
  match goal with H : _ = group m "request" |- _ => rename H into R end.
  match goal with
  | Ha : is_space ?a = true, Hb : is_space ?b = true
    |- context [_ ++ [?a] ++ _ ++ [?b] ++ _] => exists a, b
  end.
  rewrite !G by (cbn [In]; tauto).
  cbn [capture String.eqb Ascii.eqb Bool.eqb].
  repeat rewrite <- app_assoc. cbn [app]. rewrite app_nil_r.
  split; [assumption|]. split; [assumption|].
  split; [reflexivity|].
  split; [repeat (constructor; auto using not_nil_of_length)|].
  split.
  - rewrite F, plain_field by is_plain. rewrite <- R.
    repeat rewrite <- app_assoc. cbn [app]. rewrite app_nil_r.
    rewrite token_not_sentinel by (apply not_nil_of_length; assumption).
    reflexivity.
  - repeat (constructor;
            [rewrite F, plain_field by is_plain; reflexivity |]).
    constructor.
Qed.

Lemma request_is_method_url_protocol_witness :
  re_match pattern (normalize sample_line) = Some (match_of sample_line) /\
  let m := match_of sample_line in
  let field k := field_of k (parse_elb_log sample_env sample_line) in
  exists w1 w2,
    is_space w1 = true /\ is_space w2 = true /\
    group m "request"
    = group m "method" ++ w1 :: group m "url" ++ w2 :: group m "protocol" /\
    Forall (fun t => forallb non_space t = true /\ t <> [])
           [group m "method"; group m "url"; group m "protocol"] /\
    field "request" = Some (JStr (group m "request")) /\
    Forall (fun k => field k = Some (JStr (empty_if_dash (group m k))))
           ["method"; "url"; "protocol"].
Proof.
  split; [vm_compute; reflexivity |].
  apply (request_is_method_url_protocol sample_env sample_line
           (match_of sample_line)).
  vm_compute; reflexivity.
Defined.

Lemma success_record_other_environment
      (env env' : environ) (line : text) (m : match_object) :
  success_record env line m =
  setitem "raw_log" (JStr (redact env line)) (success_record env' line m).
Proof. reflexivity. Qed.

(** X6.  The secrets reach [raw_log] only: every other field of the record of
    a line is the same under any two environments, so that a secret that
    stands in a captured field is stored there as it is. *)
Theorem only_raw_log_depends_on_environment
        (env env' : environ) (line : text) (k : string) :
  k <> "raw_log" ->
  field_of k (parse_elb_log env line) = field_of k (parse_elb_log env' line).
Proof.
  intros Hk. rewrite !parse_elb_log_total. unfold record_of.
  destruct (re_match pattern (normalize line)) as [m|]; [|reflexivity].
  cbn [field_of].
  rewrite (success_record_other_environment env env').
  apply lookup_setitem_other. assumption.
Qed.

Lemma only_raw_log_depends_on_environment_witness :
  "user_agent" <> "raw_log" /\
  field_of "user_agent"
    (parse_elb_log (env_of (str "curl") sample_account) sample_line)
  = field_of "user_agent" (parse_elb_log (fun _ => None) sample_line).
Proof.
  split; [discriminate |].
  apply (only_raw_log_depends_on_environment
           (env_of (str "curl") sample_account) (fun _ => None)
           sample_line "user_agent").
  discriminate.
Defined.

(** The secret [curl] is redacted in [raw_log] and kept in [user_agent]. *)
Example secret_kept_outside_raw_log :
  let r := parse_elb_log (env_of (str "curl") sample_account) sample_line in
  field_of "user_agent" r = Some (JStr (str "curl/7.46.0")) /\
  (exists raw, field_of "raw_log" r = Some (JStr raw) /\
               contains (str "curl") raw = false).
Proof.
  split; [vm_compute; reflexivity |].
  eexists. split; vm_compute; reflexivity.
Qed.

(** ** Further properties of the pre-normalization and the redaction *)

Lemma match_length_bound (r : regex) (s : text) (n : nat) :
  match_length r s = Some n -> n <= length s.
Proof.
  unfold match_length. destruct (re_match r s); [|discriminate].
  intros H. inversion H. lia.
Qed.

Lemma ingress_match_begins_with_prefix (s : text) (n : nat) :
  match_length ingress_path s = Some n -> startswith ingress_prefix s = true.
Proof.
  unfold match_length. destruct (re_match ingress_path s) as [m|] eqn:E;
    [|discriminate].
  intros _. destruct (re_match_sound _ _ _ E) as (s1 & -> & M).
  unfold ingress_path in M.
  change (seqs [word "app/k8s-default-ingressn-"; Plus is_lower_alnum;
                Lit "/"; Plus is_lower_alnum])
    with (seqs ([word "app/k8s-default-ingressn-"]
                ++ [Plus is_lower_alnum; Lit "/"; Plus is_lower_alnum])) in M.
  apply Matches_seqs_app in M. destruct M as (t1 & t2 & c1 & -> & M & _).
  unfold word in M. cbn in M. inv_matches.
  repeat match goal with H : is_char _ _ = true |- _ =>
    apply Ascii.eqb_eq in H; subst end.
  reflexivity.
Qed.

Lemma scan_without_match (find : text -> option nat) (repl : text) :
  forall s,
    (forall a b, s = a ++ b -> find b = None) ->
    scan find repl 0 s = s.
Proof.
  induction s as [|c s IH]; intros H; [reflexivity|].
  simpl. rewrite (H [] (c :: s) eq_refl). f_equal.
  apply IH. intros a b ->. apply (H (c :: a) b). reflexivity.
Qed.

Lemma not_contained_suffix (x a b : text) :
  contains x (a ++ b) = false -> startswith x b = false.
Proof.
  intros H. destruct (startswith x b) eqn:E; [|reflexivity].
  rewrite (contains_suffix x a b E) in H. discriminate.
Qed.

(** The pre-normalization leaves alone a line that does not hold the
    text [app/k8s-default-ingressn-]. *)
Lemma normalize_without_prefix (line : text) :
  contains ingress_prefix line = false -> normalize line = line.
Proof.
  intros H. unfold normalize, re_sub. apply scan_without_match.
  intros a b ->. apply not_contained_suffix in H.
  destruct (match_length ingress_path b) as [n|] eqn:E; [|reflexivity].
  apply ingress_match_begins_with_prefix in E. congruence.
Qed.

(** X7.  For a matched line without the text [app/k8s-default-ingressn-],
    [raw_log] is the line itself with the secrets replaced. *)
Theorem raw_log_of_line_without_path
        (env : environ) (line : text) (m : match_object) :
  contains ingress_prefix line = false ->
  re_match pattern line = Some m ->
  normalize line = line /\
  field_of "raw_log" (parse_elb_log env line)
  = Some (JStr (replace
                  (replace line (environ_get env "CERT_ARN" [])
                           (str "CERT_ARN"))
                  (environ_get env "ACCOUNT_ID" []) (str "ACCOUNT_ID"))).
Proof.
  intros Hp H. pose proof (normalize_without_prefix line Hp) as N.
  split; [exact N|]. rewrite <- N in H.
  rewrite (field_of_matched env line m "raw_log" H).
  change (lookup "raw_log" (success_record env (normalize line) m))
    with (Some (JStr (redact env (normalize line)))).
  rewrite N. reflexivity.
Qed.

Lemma raw_log_of_line_without_path_witness :
  let line := line_at "2023-01-15T10:30:00.123456Z" in
  contains ingress_prefix line = false /\
  re_match pattern line = Some (match_of line) /\
  normalize line = line /\
  field_of "raw_log" (parse_elb_log sample_env line)
  = Some (JStr (replace
                  (replace line (environ_get sample_env "CERT_ARN" [])
                           (str "CERT_ARN"))
                  (environ_get sample_env "ACCOUNT_ID" [])
                  (str "ACCOUNT_ID"))).
Proof.
  cbv zeta.
  split; [vm_compute; reflexivity |].
  split; [vm_compute; reflexivity |].
  apply (raw_log_of_line_without_path sample_env
           (line_at "2023-01-15T10:30:00.123456Z")
           (match_of (line_at "2023-01-15T10:30:00.123456Z"))).
  - vm_compute; reflexivity.
  - vm_compute; reflexivity.
Defined.

Lemma scan_length (find : text -> option nat) (repl : text) :
  (forall s n, find s = Some n -> length repl <= n /\ n <= length s) ->
  forall s k, length (scan find repl k s) + Nat.min k (length s) <= length s.
Proof.
  intros Hfind. induction s as [|c s IH]; intros k; simpl; [lia|].
  destruct k as [|k].
  - destruct (find (c :: s)) as [n|] eqn:E.
    + destruct (Hfind _ _ E) as [Hr Hn]. simpl in Hn.
      rewrite length_app. specialize (IH (pred n)). lia.
    + simpl. specialize (IH 0). lia.
  - specialize (IH k). lia.
Qed.

(** X8.  The pre-normalization never makes a line longer. *)
Theorem normalize_never_longer (line : text) :
  length (normalize line) <= length line.
Proof.
  unfold normalize, re_sub.
  pose proof (scan_length (match_length ingress_path)
                (str "app/k8s-default-ingress")) as L.
  assert (B : forall s n, match_length ingress_path s = Some n ->
                          length (str "app/k8s-default-ingress") <= n /\
                          n <= length s).
  { intros s n E. split; [|eapply match_length_bound; eassumption].
    apply ingress_path_match_not_empty in E. simpl. lia. }
  specialize (L B line 0). rewrite Nat.min_0_l in L. lia.
Qed.

Lemma replace_absent (s old new : text) :
  old <> [] -> contains old s = false -> replace s old new = s.
Proof.
  intros Hold Hc. destruct old as [|o old]; [contradiction|].
  unfold replace. apply scan_without_match.
  intros a b ->. apply not_contained_suffix in Hc.
  unfold find_prefix. rewrite Hc. reflexivity.
Qed.

(** X9.  When both secrets are set and neither occurs in the canonical line,
    [raw_log] is the canonical line, character for character. *)
Theorem raw_log_without_secrets
        (env : environ) (line : text) (m : match_object) :
  re_match pattern (normalize line) = Some m ->
  environ_get env "CERT_ARN" [] <> [] ->
  environ_get env "ACCOUNT_ID" [] <> [] ->
  contains (environ_get env "CERT_ARN" []) (normalize line) = false ->
  contains (environ_get env "ACCOUNT_ID" []) (normalize line) = false ->
  field_of "raw_log" (parse_elb_log env line) = Some (JStr (normalize line)).
Proof.
  intros H Hc Ha Nc Na.
  rewrite (field_of_matched env line m "raw_log" H).
  change (lookup "raw_log" (success_record env (normalize line) m))
    with (Some (JStr (redact env (normalize line)))).
  unfold redact. rewrite (replace_absent _ _ _ Hc Nc).
  rewrite (replace_absent _ _ _ Ha Na). reflexivity.
Qed.

Lemma raw_log_without_secrets_witness :
  let env := env_of (str "arn:aws:acm:cert/none") (str "000000000000") in
  re_match pattern (normalize sample_line) = Some (match_of sample_line) /\
  field_of "raw_log" (parse_elb_log env sample_line)
  = Some (JStr (normalize sample_line)).
Proof.
  cbv zeta. split; [vm_compute; reflexivity |].
  apply (raw_log_without_secrets
           (env_of (str "arn:aws:acm:cert/none") (str "000000000000"))
           sample_line (match_of sample_line)).
  - vm_compute; reflexivity.
  - discriminate.
  - discriminate.
  - vm_compute; reflexivity.
  - vm_compute; reflexivity.
Defined.

(** X10.  A line in which no whitespace character stands right before a double
    quote gives the failure record: so the empty line, and any line
    without quoted fields. *)
Theorem line_without_quoted_field_fails (env : environ) (line : text) :
  space_then_quote line = false ->
  parse_elb_log env line = Ok failure_record.
Proof.
  intros H. apply parse_unmatched.
  destruct (re_match pattern (normalize line)) as [m|] eqn:E; [|reflexivity].
  apply matched_space_then_quote in E.
  apply normalize_space_then_quote in E. congruence.
Qed.

Lemma line_without_quoted_field_fails_witness :
  space_then_quote [] = false /\
  parse_elb_log sample_env [] = Ok failure_record.
Proof.
  split; [reflexivity |].
  apply (line_without_quoted_field_fails sample_env []). reflexivity.
Defined.

(** ** A character outside the pattern ends the text for the matcher *)

Lemma rep_ext (A : Type) (p : ascii -> bool) (k1 k2 : text -> option A) :
  (forall s, k1 s = k2 s) ->
  forall s lo hi, rep p lo hi s k1 = rep p lo hi s k2.
Proof.
  intros E. induction s as [|a s IH]; intros lo hi; simpl.
  - destruct lo; [apply E | reflexivity].
  - rewrite IH. rewrite E. reflexivity.
Qed.

Lemma rmatch_ext (A : Type) :
  forall r s c (k1 k2 : text -> captures -> option A),
    (forall s' c', k1 s' c' = k2 s' c') ->
    rmatch r s c k1 = rmatch r s c k2.
Proof.
  induction r as [|p|r1 IH1 r2 IH2|r1 IH1 r2 IH2|p lo hi|n r IH];
    intros s c k1 k2 E; simpl.
  - apply E.
  - destruct s as [|a s]; [reflexivity|]. rewrite E. reflexivity.
  - apply IH1. intros s' c'. apply IH2. exact E.
  - rewrite (IH1 s c k1 k2 E), (IH2 s c k1 k2 E). reflexivity.
  - apply rep_ext. intros s'. apply E.
  - apply IH. intros s' c'. apply E.
Qed.

Lemma rep_map (A B : Type) (g : A -> B) (p : ascii -> bool)
      (k : text -> option A) :
  forall s lo hi,
    option_map g (rep p lo hi s k)
    = rep p lo hi s (fun s' => option_map g (k s')).
Proof.
  induction s as [|a s IH]; intros lo hi; simpl.
  - destruct lo; reflexivity.
  - destruct (p a && may_repeat hi)%bool.
    + rewrite <- IH.
      destruct (rep p (pred lo) (option_map pred hi) s k); simpl;
        [reflexivity | destruct lo; reflexivity].
    + destruct lo; reflexivity.
Qed.

Lemma rmatch_map (A B : Type) (g : A -> B) :
  forall r s c (k : text -> captures -> option A),
    option_map g (rmatch r s c k)
    = rmatch r s c (fun s' c' => option_map g (k s' c')).
Proof.
  induction r as [|p|r1 IH1 r2 IH2|r1 IH1 r2 IH2|p lo hi|n r IH];
    intros s c k; simpl.
  - reflexivity.
  - destruct s as [|a s]; [reflexivity|]. destruct (p a); reflexivity.
  - rewrite IH1. apply rmatch_ext. intros s' c'. apply IH2.
  - rewrite <- IH1, <- IH2.
    destruct (rmatch r1 s c k); reflexivity.
  - apply rep_map.
  - rewrite IH. reflexivity.
Qed.

Lemma rep_end (A : Type) (p : ascii -> bool) (w : ascii) (t : text)
      (k : text -> option A) :
  p w = false ->
  forall u lo hi,
    rep p lo hi (u ++ w :: t) k
    = rep p lo hi u (fun u' => k (u' ++ w :: t)).
Proof.
  intros Hw. induction u as [|a u IH]; intros lo hi.
  - simpl. rewrite Hw. reflexivity.
  - simpl. rewrite IH. reflexivity.
Qed.

Lemma firstn_before (u x : text) (n : nat) :
  firstn (length u - n) (u ++ x) = firstn (length u - n) u.
Proof.
  rewrite firstn_app.
  replace (length u - n - length u) with 0 by lia.
  simpl. apply app_nil_r.
Qed.

Lemma rmatch_end (A : Type) (w : ascii) (t : text) :
  forall r u c (k : text -> captures -> option A),
    rejects r w = true ->
    rmatch r (u ++ w :: t) c k
    = rmatch r u c (fun u' c' => k (u' ++ w :: t) c').
Proof.
  induction r as [|p|r1 IH1 r2 IH2|r1 IH1 r2 IH2|p lo hi|n r IH];
    intros u c k R; simpl in R.
  - reflexivity.
  - apply negb_true_iff in R. destruct u as [|a u]; simpl.
    + rewrite R. reflexivity.
    + reflexivity.
  - apply andb_true_iff in R. destruct R as [R1 R2]. simpl.
    rewrite (IH1 _ _ _ R1). apply rmatch_ext. intros s' c'.
    apply IH2. exact R2.
  - apply andb_true_iff in R. destruct R as [R1 R2]. simpl.
    rewrite (IH1 _ _ _ R1), (IH2 _ _ _ R2). reflexivity.
  - apply negb_true_iff in R. simpl. apply rep_end. exact R.
  - simpl. rewrite (IH _ _ _ R). apply rmatch_ext. intros s' c'.
    f_equal. f_equal. f_equal.
    rewrite !length_app. simpl.
    replace (length u + S (length t) - (length s' + S (length t)))
      with (length u - length s') by lia.
    apply firstn_before.
Qed.

Lemma match_length_alt (r : regex) (s : text) :
  match_length r s
  = rmatch r s [] (fun s' _ => Some (length s - length s')).
Proof.
  unfold match_length, re_match.
  change (match rmatch r s [] (fun s' c => Some {| m_rest := s'; m_caps := c |}) with
          | Some m => Some (length s - length (m_rest m))
          | None => None
          end)
    with (option_map (fun m => length s - length (m_rest m))
            (rmatch r s []
               (fun s' c => Some {| m_rest := s'; m_caps := c |}))).
  rewrite rmatch_map. reflexivity.
Qed.

(** What follows a character that the pattern cannot hold has no
    influence on the match. *)
Lemma match_length_end (r : regex) (u t : text) (w : ascii) :
  rejects r w = true ->
  match_length r (u ++ w :: t) = match_length r u.
Proof.
  intros R. rewrite !match_length_alt. rewrite (rmatch_end _ w t r u [] _ R).
  apply rmatch_ext. intros s' c'. f_equal.
  rewrite !length_app. simpl. lia.
Qed.

Lemma scan_around (find : text -> option nat) (repl : text) (w : ascii) :
  (forall u t, find (u ++ w :: t) = find u) ->
  (forall s n, find s = Some n -> 1 <= n /\ n <= length s) ->
  forall u t k,
    k <= length u ->
    scan find repl k (u ++ w :: t)
    = scan find repl k u ++ w :: scan find repl 0 t.
Proof.
  intros Hend Hfind. induction u as [|a u IH]; intros t k Hk.
  - simpl in Hk. replace k with 0 by lia. simpl.
    pose proof (Hend [] t) as E0. simpl in E0. rewrite E0.
    destruct (find []) as [n|] eqn:E; [|reflexivity].
    apply Hfind in E. simpl in E. lia.
  - simpl in Hk. destruct k as [|k].
    + change (scan find repl 0 ((a :: u) ++ w :: t))
        with (match find ((a :: u) ++ w :: t) with
              | Some n => repl ++ scan find repl (pred n) (u ++ w :: t)
              | None => a :: scan find repl 0 (u ++ w :: t)
              end).
      rewrite (Hend (a :: u) t). simpl.
      destruct (find (a :: u)) as [n|] eqn:E.
      * apply Hfind in E. simpl in E.
        rewrite IH by lia. rewrite app_assoc. reflexivity.
      * rewrite IH by lia. reflexivity.
    + simpl. apply IH. lia.
Qed.

Lemma ingress_path_rejects (w : ascii) :
  is_lower_alnum w = false -> w <> "/"%char -> w <> "-"%char ->
  rejects ingress_path w = true.
Proof.
  destruct w as [[] [] [] [] [] [] [] []]; intros H1 H2 H3;
    first [ reflexivity
          | discriminate H1
          | exfalso; apply H2; reflexivity
          | exfalso; apply H3; reflexivity ].
Qed.

Lemma normalize_around (a b : text) (w : ascii) :
  rejects ingress_path w = true ->
  normalize (a ++ w :: b) = normalize a ++ w :: normalize b.
Proof.
  intros R. unfold normalize, re_sub. apply scan_around.
  - intros u t. apply match_length_end. exact R.
  - intros s n E. split; [|eapply match_length_bound; eassumption].
    apply ingress_path_match_not_empty in E. lia.
  - lia.
Qed.

(** X11.  The pre-normalization works piece by piece: around a character that
    is neither a lower-case letter, a digit, a slash nor a hyphen, so
    around every space and every double quote, the canonical line is made
    of the canonical forms of the two sides. *)
Theorem normalize_piece_by_piece (a b : text) (w : ascii) :
  is_lower_alnum w = false -> w <> "/"%char -> w <> "-"%char ->
  normalize (a ++ w :: b) = normalize a ++ w :: normalize b.
Proof.
  intros H1 H2 H3. apply normalize_around.
  apply ingress_path_rejects; assumption.
Qed.

Lemma normalize_piece_by_piece_witness :
  let a := str "h2 app/k8s-default-ingressn-1a2b3c/4d5e6f" in
  let b := str "arn:tg/app/k8s-default-ingressn-77/88 x" in
  normalize a = str "h2 app/k8s-default-ingress" /\
  normalize (a ++ " "%char :: b)
  = normalize a ++ " "%char :: normalize b.
Proof.
  cbv zeta. split; [vm_compute; reflexivity |].
  apply (normalize_piece_by_piece
           (str "h2 app/k8s-default-ingressn-1a2b3c/4d5e6f")
           (str "arn:tg/app/k8s-default-ingressn-77/88 x") " "%char).
  - reflexivity.
  - discriminate.
  - discriminate.
Defined.

(** X12.  Text behind a parsed line does not make it a failure: when a line is
    parsed, so is the line followed by a character that is neither a
    lower-case letter, a digit, a slash nor a hyphen and then by any
    text. *)
Theorem text_behind_a_parsed_line
        (env : environ) (line t : text) (w : ascii) :
  is_lower_alnum w = false -> w <> "/"%char -> w <> "-"%char ->
  parse_elb_log env line <> Ok failure_record ->
  parse_elb_log env (line ++ w :: t) <> Ok failure_record.
Proof.
  intros H1 H2 H3 Hp.
  assert (M : re_match pattern (normalize line) <> None).
  { intros E. apply Hp. apply parse_unmatched. exact E. }
  apply re_match_iff in M. destruct M as (s1 & s2 & c' & E & M).
  assert (M' : re_match pattern (normalize (line ++ w :: t)) <> None).
  { apply re_match_iff.
    exists s1, (s2 ++ w :: normalize t), c'. split; [|exact M].
    rewrite normalize_around by (apply ingress_path_rejects; assumption).
    rewrite E. rewrite <- app_assoc. reflexivity. }
  destruct (re_match pattern (normalize (line ++ w :: t))) as [m|] eqn:R;
    [|contradiction].
  apply (matched_not_failure env (line ++ w :: t) m R).
Qed.

Lemma text_behind_a_parsed_line_witness :
  parse_elb_log sample_env sample_line <> Ok failure_record /\
  parse_elb_log sample_env
    (sample_line ++ " "%char :: str "anything at all, 'quoted' or not")
  <> Ok failure_record.
Proof.
  assert (P : parse_elb_log sample_env sample_line <> Ok failure_record).
  { apply (matched_not_failure sample_env sample_line
             (match_of sample_line)).
    vm_compute; reflexivity. }
  split; [exact P |].
  apply (text_behind_a_parsed_line sample_env sample_line
           (str "anything at all, 'quoted' or not") " "%char).
  - reflexivity.
  - discriminate.
  - discriminate.
  - exact P.
Defined.

(** ** The reformatted time *)

Lemma decimal_digits (n : N) : forallb is_digit (decimal n) = true.
Proof.
  unfold decimal. generalize (N.to_uint n). intros d.
  induction d; simpl; try assumption; reflexivity.
Qed.

Lemma zero_padded_digits (w : nat) (n : N) :
  forallb is_digit (zero_padded w n) = true.
Proof.
  unfold zero_padded. rewrite forallb_app, decimal_digits.
  rewrite forallb_repeat by reflexivity. reflexivity.
Qed.

Lemma digit_no_point (c : ascii) : is_digit c = true -> no_point c = true.
Proof.
  destruct c as [[] [] [] [] [] [] [] []]; intros H;
    first [reflexivity | discriminate H].
Qed.

Lemma forallb_weaken (p q : ascii -> bool) (l : text) :
  (forall c, p c = true -> q c = true) ->
  forallb p l = true -> forallb q l = true.
Proof.
  intros W. induction l as [|a l IH]; simpl; [reflexivity|].
  intros H. apply andb_true_iff in H. destruct H as [H1 H2].
  rewrite (W _ H1), (IH H2). reflexivity.
Qed.

Lemma zero_padded_no_point (w : nat) (n : N) :
  forallb no_point (zero_padded w n) = true.
Proof.
  apply (forallb_weaken is_digit); [exact digit_no_point|].
  apply zero_padded_digits.
Qed.

Lemma no_point_existsb (l : text) :
  forallb no_point l = true -> existsb (is_char ".") l = false.
Proof.
  induction l as [|a l IH]; simpl; [reflexivity|].
  intros H. apply andb_true_iff in H. destruct H as [H1 H2].
  unfold no_point in H1. apply negb_true_iff in H1.
  rewrite H1, (IH H2). reflexivity.
Qed.

Lemma isoformat_whole_second (t : datetime) :
  microsecond t = 0%N ->
  existsb (is_char ".") (isoformat t ++ str "Z") = false.
Proof.
  intros H. apply no_point_existsb. unfold isoformat. rewrite H.
  simpl N.eqb. cbv iota.
  rewrite !forallb_app, !zero_padded_no_point. reflexivity.
Qed.

Lemma strptime_needs_point (s : text) (t : datetime) :
  strptime s = Some t -> existsb (is_char ".") s = true.
Proof.
  unfold strptime. destruct (re_match strptime_regex s) as [m|] eqn:E;
    [|discriminate].
  intros _. destruct (re_match_sound _ _ _ E) as (s1 & -> & M).
  clear E. unfold strptime_regex in M.
  match type of M with
  | Matches (seqs ?L) _ _ _ =>
      change L with (firstn 11 L ++ skipn 11 L) in M
  end.
  apply Matches_seqs_app in M. destruct M as (t1 & t2 & c1 & -> & _ & M).
  cbn [skipn seqs fold_right] in M.
  inversion M as [| |r1 r2 u1 u2 c0 c2 c3 Ma Mb| | | |]; subst; clear M Mb.
  unfold Lit in Ma. inversion Ma as [|p a c Hp| | | | |]; subst; clear Ma.
  rewrite !existsb_app. simpl. rewrite Hp.
  rewrite orb_true_r. reflexivity.
Qed.

(** X13.  A time token that [strptime] accepts with no microseconds loses its
    fraction: [_time] holds no decimal point, while the token does, so
    that [_time] is not the token although the token is in the source
    format. *)
Theorem whole_second_loses_its_fraction
        (env : environ) (line : text) (m : match_object) (t : datetime) :
  re_match pattern (normalize line) = Some m ->
  strptime (group m "time") = Some t ->
  microsecond t = 0%N ->
  exists v,
    field_of "_time" (parse_elb_log env line) = Some (JStr v) /\
    existsb (is_char ".") v = false /\
    existsb (is_char ".") (group m "time") = true /\
    v <> group m "time".
Proof.
  intros H S Z. exists (isoformat t ++ str "Z").
  pose proof (isoformat_whole_second t Z) as A.
  pose proof (strptime_needs_point _ _ S) as B.
  split; [|split; [exact A | split; [exact B |]]].
  - rewrite (field_of_matched env line m "_time" H).
    change (lookup "_time" (success_record env (normalize line) m))
      with (Some (JStr (iso_time_of (group m "time")))).
    unfold iso_time_of. rewrite S. reflexivity.
  - intros X. rewrite X in A. rewrite A in B. discriminate.
Qed.

Lemma whole_second_loses_its_fraction_witness :
  let line := line_at "2023-01-15T10:30:00.000000Z" in
  group (match_of line) "time" = str "2023-01-15T10:30:00.000000Z" /\
  field_of "_time" (parse_elb_log sample_env line)
  = Some (JStr (str "2023-01-15T10:30:00Z")) /\
  exists v,
    field_of "_time" (parse_elb_log sample_env line) = Some (JStr v) /\
    existsb (is_char ".") v = false /\
    existsb (is_char ".") (group (match_of line) "time") = true /\
    v <> group (match_of line) "time".
Proof.
  cbv zeta. split; [vm_compute; reflexivity |].
  split; [vm_compute; reflexivity |].
  apply (whole_second_loses_its_fraction sample_env
           (line_at "2023-01-15T10:30:00.000000Z")
           (match_of (line_at "2023-01-15T10:30:00.000000Z"))
           {| year := 2023; month := 1; day := 15; hour := 10;
              minute := 30; second := 0; microsecond := 0 |}).
  - vm_compute; reflexivity.
  - vm_compute; reflexivity.
  - reflexivity.
Defined.

(** ** Further properties of [lambda_handler] *)

Lemma send_batches_prefix (post : sink) (to : text) (hdrs : dict text)
      (json_logs : list record) (n : nat) :
  forall indices w,
  exists k,
    posts (fst (send_batches post to hdrs json_logs n indices w))
    = posts w ++ map (fun i => {| url := to; headers := hdrs;
                                  payload := slice json_logs i n |})
                     (firstn k indices).
Proof.
  induction indices as [|i rest IH]; intros w; simpl.
  - exists 0. rewrite app_nil_r. reflexivity.
  - destruct (post (posts w) _) as [status|e].
    + match goal with |- context [send_batches _ _ _ _ _ _ ?w1] =>
        destruct (IH w1) as [k Hk] end.
      exists (S k). rewrite Hk. simpl. rewrite <- app_assoc. reflexivity.
    + exists 1. reflexivity.
Qed.

(** X14.  Whatever the sink does, the calls of a run are the first batches in
    order, each sent to the ingest address of the dataset with the token
    as bearer: no batch is skipped, repeated or sent elsewhere. *)
Theorem calls_are_the_first_batches
        (env : environ) (lines : list text) (post : sink)
        (dataset token : text) :
  env "DATASET_NAME" = Some dataset ->
  env "AXIOM_API_TOKEN" = Some token ->
  exists k,
    posts (fst (lambda_handler env lines post))
    = map (batch_request dataset token (map (record_of env) lines))
          (firstn k (range_step (length lines) batch_size)).
Proof.
  intros Hd Ht. unfold lambda_handler, environ_item.
  rewrite parse_lines_total, Hd, Ht, length_map.
  match goal with |- context [send_batches ?p ?t ?h ?l ?n ?i ?w0] =>
    destruct (send_batches_prefix p t h l n i w0) as [k Hk];
    destruct (send_batches p t h l n i w0) as [w o] end.
  simpl in Hk. exists k. destruct o as [u|e]; simpl; exact Hk.
Qed.

Lemma calls_are_the_first_batches_witness :
  exists k,
    posts (fst (lambda_handler sample_env sample_lines
                  (fun earlier _ => match earlier with
                                    | [] => Ok 200%N
                                    | _ => Raise ConnectionError
                                    end)))
    = map (batch_request (str "elb-logs") (str "xaat-token")
             (map (record_of sample_env) sample_lines))
          (firstn k (range_step (length sample_lines) batch_size)).
Proof.
  apply (calls_are_the_first_batches sample_env sample_lines _
           (str "elb-logs") (str "xaat-token")); reflexivity.
Defined.

Lemma nth_error_map_seq (A : Type) (g : nat -> A) (q j : nat) (x : A) :
  nth_error (map g (seq 0 q)) j = Some x -> j < q /\ x = g j.
Proof.
  intros H.
  assert (L : j < q).
  { assert (N : nth_error (map g (seq 0 q)) j <> None)
      by (rewrite H; discriminate).
    apply nth_error_Some in N. rewrite length_map, length_seq in N.
    exact N. }
  split; [exact L|].
  assert (E : nth_error (seq 0 q) j = Some j).
  { rewrite (nth_error_nth' _ 0) by (rewrite length_seq; exact L).
    rewrite seq_nth by exact L. reflexivity. }
  apply (map_nth_error g) in E. congruence.
Qed.

(** X15.  A run whose sink answers every call, whatever the status codes,
    sends every record once and in order, in batches of 50 of which
    only the last may be shorter and none is empty, and returns the
    count of the lines. *)
Theorem batches_of_a_run
        (env : environ) (lines : list text) (post : sink) :
  env "DATASET_NAME" <> None -> env "AXIOM_API_TOKEN" <> None ->
  (forall earlier rq, exists status, post earlier rq = Ok status) ->
  let records := map (record_of env) lines in
  exists w,
    lambda_handler env lines post =
    (w, Ok {| statusCode := 200;
              message := str "Processed "
                         ++ decimal (N.of_nat (length lines))
                         ++ str " logs" |}) /\
    length (posts w) = (length lines + 49) / 50 /\
    concat (map payload (posts w)) = records /\
    forall j rq,
      nth_error (posts w) j = Some rq ->
      payload rq = firstn 50 (skipn (j * 50) records) /\
      1 <= length (payload rq) <= 50 /\
      (j + 1 < length (posts w) -> length (payload rq) = 50).
Proof.
  intros Hd Ht Hpost records.
  destruct (lambda_handler_responding env lines post Hd Ht Hpost)
    as (w & Hw & Hp).
  fold records in Hp.
  assert (Lr : length records = length lines)
    by (unfold records; apply length_map).
  assert (Ln : length (posts w) = (length lines + 49) / 50).
  { rewrite <- (length_map payload), Hp, length_map.
    unfold range_step, batch_size. rewrite length_map, length_seq.
    replace (length lines + 50 - 1) with (length lines + 49) by lia.
    reflexivity. }
  exists w. split; [exact Hw|]. split; [exact Ln|]. split.
  - rewrite Hp, <- Lr. apply batches_concat. unfold batch_size. lia.
  - intros j rq Hj. apply (map_nth_error payload) in Hj.
    rewrite Hp in Hj. unfold range_step, batch_size in Hj.
    rewrite map_map in Hj. apply nth_error_map_seq in Hj.
    destruct Hj as [Hq E]. unfold slice in E.
    replace (length lines + 50 - 1) with (length lines + 49) in Hq by lia.
    split; [exact E|].
    rewrite E, length_firstn, length_skipn, Lr, Ln.
    pose proof (Nat.div_mod_eq (length lines + 49) 50) as D.
    pose proof (Nat.mod_upper_bound (length lines + 49) 50) as B.
    lia.
Qed.

Lemma batches_of_a_run_witness :
  let records := map (record_of sample_env) sample_lines in
  exists w,
    lambda_handler sample_env sample_lines second_call_fails =
    (w, Ok {| statusCode := 200;
              message := str "Processed "
                         ++ decimal (N.of_nat (length sample_lines))
                         ++ str " logs" |}) /\
    length (posts w) = (length sample_lines + 49) / 50 /\
    concat (map payload (posts w)) = records /\
    forall j rq,
      nth_error (posts w) j = Some rq ->
      payload rq = firstn 50 (skipn (j * 50) records) /\
      1 <= length (payload rq) <= 50 /\
      (j + 1 < length (posts w) -> length (payload rq) = 50).
Proof.
  apply (batches_of_a_run sample_env sample_lines second_call_fails).
  - discriminate.
  - discriminate.
  - intros earlier rq. eexists. reflexivity.
Defined.

(** X16.  Without [DATASET_NAME] or without [AXIOM_API_TOKEN] in the
    environment the run ends in a [KeyError], which is logged and
    raised again: every line has been parsed by then, and the sink is
    not called once. *)
Theorem missing_configuration_ends_the_run
        (env : environ) (lines : list text) (post : sink) :
  env "DATASET_NAME" = None \/ env "AXIOM_API_TOKEN" = None ->
  parse_lines env lines = Ok (map (record_of env) lines) /\
  lambda_handler env lines post
  = ({| posts := []; log := [Error KeyError] |}, Raise KeyError).
Proof.
  intros H. split; [apply parse_lines_total|].
  unfold lambda_handler, environ_item. rewrite parse_lines_total.
  destruct (env "DATASET_NAME") as [dataset|]; [|reflexivity].
  destruct H as [H|H]; [discriminate|]. rewrite H. reflexivity.
Qed.

Lemma missing_configuration_ends_the_run_witness :
  parse_lines (fun _ => None) sample_lines
  = Ok (map (record_of (fun _ => None)) sample_lines) /\
  lambda_handler (fun _ => None) sample_lines second_call_fails
  = ({| posts := []; log := [Error KeyError] |}, Raise KeyError).
Proof.
  apply (missing_configuration_ends_the_run (fun _ => None) sample_lines
           second_call_fails).
  left. reflexivity.
Defined.

Lemma send_batches_raising (post : sink) (to : text) (hdrs : dict text)
      (json_logs : list record) (n : nat) (e : exn) (j : nat) :
  (forall earlier rq, length earlier < j ->
                      exists status, post earlier rq = Ok status) ->
  (forall earlier rq, length earlier = j -> post earlier rq = Raise e) ->
  forall indices w,
    length (posts w) <= j -> j < length (posts w) + length indices ->
    exists w' infos,
      send_batches post to hdrs json_logs n indices w = (w', Raise e) /\
      posts w' = posts w
                 ++ map (fun i => {| url := to; headers := hdrs;
                                     payload := slice json_logs i n |})
                        (firstn (j + 1 - length (posts w)) indices) /\
      log w' = log w ++ infos /\ Forall is_info infos.
Proof.
  intros Hok Hraise. induction indices as [|i rest IH]; intros w Hl Hj.
  - simpl in Hj. lia.
  - simpl in Hj. simpl send_batches.
    destruct (Nat.eq_dec (length (posts w)) j) as [E|N].
    + rewrite (Hraise _ _ E). eexists. exists []. split; [reflexivity|].
      simpl posts. simpl log. rewrite app_nil_r.
      replace (j + 1 - length (posts w)) with 1 by lia.
      repeat split. constructor.
    + destruct (Hok (posts w)
                  {| url := to; headers := hdrs;
                     payload := slice json_logs i n |}) as [status ->];
        [lia|].
      match goal with |- context [send_batches _ _ _ _ _ _ ?w1] =>
        destruct (IH w1) as (w' & infos & Hs & Hp & Hg & Hi) end.
      * simpl. rewrite length_app. simpl. lia.
      * simpl. rewrite length_app. simpl. lia.
      * simpl in Hp, Hg. rewrite length_app in Hp. simpl in Hp.
        exists w'.
        exists ((if (status =? 200)%N then []
                 else [batch_failed i n status]) ++ infos).
        split; [exact Hs|]. split; [|split].
        -- rewrite Hp.
           replace (j + 1 - length (posts w))
             with (S (j + 1 - (length (posts w) + 1))) by lia.
           simpl. rewrite <- app_assoc. reflexivity.
        -- rewrite Hg. destruct (status =? 200)%N; simpl;
             [reflexivity | rewrite <- app_assoc; reflexivity].
        -- destruct (status =? 200)%N; simpl; [exact Hi|].
           constructor; [|exact Hi]. unfold batch_failed. eexists.
           reflexivity.
Qed.

(** X17.  When the sink answers the first [j] calls and raises at the next
    one, the run makes these [j + 1] calls and no other: the batches
    behind are not sent, the exception is logged last and raised
    again, and no count is returned. *)
Theorem sink_exception_ends_the_run
        (env : environ) (lines : list text) (post : sink) (e : exn)
        (j : nat) :
  env "DATASET_NAME" <> None -> env "AXIOM_API_TOKEN" <> None ->
  (forall earlier rq, length earlier < j ->
                      exists status, post earlier rq = Ok status) ->
  (forall earlier rq, length earlier = j -> post earlier rq = Raise e) ->
  j < (length lines + 49) / 50 ->
  exists w infos,
    lambda_handler env lines post = (w, Raise e) /\
    map payload (posts w)
    = map (fun i => slice (map (record_of env) lines) i batch_size)
          (firstn (j + 1) (range_step (length lines) batch_size)) /\
    length (posts w) = j + 1 /\
    log w = infos ++ [Error e] /\ Forall is_info infos.
Proof.
  intros Hd Ht Hok Hraise Hj. unfold lambda_handler, environ_item.
  rewrite parse_lines_total.
  destruct (env "DATASET_NAME") as [dataset|]; [|contradiction].
  destruct (env "AXIOM_API_TOKEN") as [token|]; [|contradiction].
  rewrite length_map.
  assert (Lr : length (range_step (length lines) batch_size)
               = (length lines + 49) / 50).
  { unfold range_step, batch_size. rewrite length_map, length_seq.
    replace (length lines + 50 - 1) with (length lines + 49) by lia.
    reflexivity. }
  match goal with |- context [send_batches ?p ?t ?h ?l ?n ?i ?w0] =>
    destruct (send_batches_raising p t h l n e j Hok Hraise i w0)
      as (w' & infos & -> & Hp & Hg & Hi) end.
  - simpl. lia.
  - simpl. rewrite Lr. exact Hj.
  - simpl in Hp, Hg. rewrite Nat.sub_0_r in Hp.
    eexists. exists infos. split; [reflexivity|]. simpl.
    split; [|split; [|split]].
    + rewrite Hp, map_map. reflexivity.
    + rewrite Hp, length_map, length_firstn, Lr. lia.
    + rewrite Hg. reflexivity.
    + exact Hi.
Qed.

Lemma sink_exception_ends_the_run_witness :
  let post : sink := fun earlier _ =>
                       if length earlier =? 1 then Raise ConnectionError
                       else Ok 500%N in
  exists w infos,
    lambda_handler sample_env sample_lines post
    = (w, Raise ConnectionError) /\
    map payload (posts w)
    = map (fun i => slice (map (record_of sample_env) sample_lines) i
                      batch_size)
          (firstn (1 + 1) (range_step (length sample_lines) batch_size)) /\
    length (posts w) = 1 + 1 /\
    log w = infos ++ [Error ConnectionError] /\ Forall is_info infos.
Proof.
  cbv zeta.
  apply (sink_exception_ends_the_run sample_env sample_lines
           (fun earlier _ => if length earlier =? 1
                             then Raise ConnectionError else Ok 500%N)
           ConnectionError 1).
  - discriminate.
  - discriminate.
  - intros earlier rq H. exists 500%N.
    destruct earlier as [|x earlier]; [reflexivity | simpl in H; lia].
  - intros earlier rq H. rewrite H. reflexivity.
  - vm_compute. lia.
Defined.

Lemma send_batches_log (post : sink) (to : text) (hdrs : dict text)
      (json_logs : list record) (status : nat -> N) :
  (forall earlier rq, post earlier rq = Ok (status (length earlier))) ->
  forall k a w,
    length (posts w) = a ->
    exists w',
      send_batches post to hdrs json_logs batch_size
        (map (fun j => j * batch_size) (seq a k)) w = (w', Ok tt) /\
      log w' = log w
               ++ flat_map
                    (fun j => if (status j =? 200)%N then []
                              else [Info (str "Batch "
                                          ++ decimal (N.of_nat (j + 1))
                                          ++ str " failed: "
                                          ++ decimal (status j))])
                    (seq a k).
Proof.
  intros Hpost. induction k as [|k IH]; intros a w Ha.
  - exists w. simpl. rewrite app_nil_r. auto.
  - cbn [seq map send_batches flat_map]. rewrite Hpost, Ha.
    match goal with |- context [send_batches _ _ _ _ _ _ ?w1] =>
      destruct (IH (S a) w1) as (w' & Hs & Hg) end.
    { simpl. rewrite length_app, Ha. simpl. lia. }
    exists w'. split; [exact Hs|]. rewrite Hg. simpl log.
    destruct (status a =? 200)%N; [reflexivity|].
    rewrite <- app_assoc. unfold batch_failed, batch_size.
    rewrite Nat.div_mul by discriminate. reflexivity.
Qed.

(** X18.  A run whose sink answers its calls with the status codes
    [status 0], [status 1], ... logs one line for every batch whose
    status is not 200, with the number of the batch counted from 1 and
    the status, logs nothing else, and returns status 200 all the
    same. *)
Theorem failed_batches_are_logged
        (env : environ) (lines : list text) (post : sink)
        (status : nat -> N) :
  env "DATASET_NAME" <> None -> env "AXIOM_API_TOKEN" <> None ->
  (forall earlier rq, post earlier rq = Ok (status (length earlier))) ->
  exists w r,
    lambda_handler env lines post = (w, Ok r) /\
    statusCode r = 200%N /\
    log w = flat_map
              (fun j => if (status j =? 200)%N then []
                        else [Info (str "Batch "
                                    ++ decimal (N.of_nat (j + 1))
                                    ++ str " failed: "
                                    ++ decimal (status j))])
              (seq 0 ((length lines + 49) / 50)).
Proof.
  intros Hd Ht Hpost. unfold lambda_handler, environ_item.
  rewrite parse_lines_total.
  destruct (env "DATASET_NAME") as [dataset|]; [|contradiction].
  destruct (env "AXIOM_API_TOKEN") as [token|]; [|contradiction].
  rewrite length_map. unfold range_step.
  replace (length lines + batch_size - 1) with (length lines + 49)
    by (unfold batch_size; lia).
  change ((length lines + 49) / batch_size)
    with ((length lines + 49) / 50).
  match goal with |- context [send_batches ?p ?t ?h ?l _ _ ?w0] =>
    destruct (send_batches_log p t h l status Hpost
                ((length lines + 49) / 50) 0 w0 eq_refl)
      as (w' & -> & Hg) end.
  eexists. eexists. split; [reflexivity|]. split; [reflexivity|].
  exact Hg.
Qed.

Lemma failed_batches_are_logged_witness :
  let status := fun j => if j =? 1 then 500%N else 200%N in
  exists w r,
    lambda_handler sample_env sample_lines second_call_fails = (w, Ok r) /\
    statusCode r = 200%N /\
    log w = flat_map
              (fun j => if (status j =? 200)%N then []
                        else [Info (str "Batch "
                                    ++ decimal (N.of_nat (j + 1))
                                    ++ str " failed: "
                                    ++ decimal (status j))])
              (seq 0 ((length sample_lines + 49) / 50)).
Proof.
  cbv zeta.
  apply (failed_batches_are_logged sample_env sample_lines
           second_call_fails (fun j => if j =? 1 then 500%N else 200%N)).
  - discriminate.
  - discriminate.
  - intros earlier rq. reflexivity.
Defined.

(** ** The grammar decides *)

(** X19.  A line is parsed, and not answered with the failure record, exactly
    when some text at the start of its canonical form is in the language
    of the grammar; what follows that text is free. *)
Theorem parsed_iff_a_prefix_is_in_the_grammar
        (env : environ) (line : text) :
  parse_elb_log env line <> Ok failure_record <->
  exists s1 s2 c, normalize line = s1 ++ s2 /\ Matches pattern s1 [] c.
Proof.
  rewrite <- re_match_iff. split.
  - intros H E. apply H. apply parse_unmatched. exact E.
  - intros H. destruct (re_match pattern (normalize line)) as [m|] eqn:E;
      [|contradiction].
    apply (matched_not_failure env line m E).
Qed.
